(** * Contact-email inference service: the request handler of the
    [/api/process] route, embedded function by function.

    Strings.  A JavaScript string is modelled as a Rocq [string] whose
    characters are the code points U+0000 .. U+00FF (Latin-1).  [trim],
    [toLowerCase] and the ASCII character classes of the regular expressions
    stay within that range and are written out exactly; canonical
    decomposition leaves it and is given as a list of code points.
    [capitalize] is only ever applied to tokens made of [a-z].

    Platform services.  The URL parser ([new URL]) is not code of this
    repository, and what [fetchHtml] answers (the body of a successful
    response, or null on any failure or timeout) depends on the network
    only.  Every function that uses them takes them as section variables, so
    the general theorems hold for whatever parser and network there is; the
    worked examples instantiate them with the small concrete models
    [url_parse] and [no_pages], [one_page], [scripted] defined below. *)

From Stdlib Require Import String Ascii List Bool Arith NArith ZArith Lia.
From Stdlib Require Import Permutation Sorted.
From Stdlib Require QArith.QArith_base.
Import ListNotations.

Local Open Scope list_scope.
Local Open Scope string_scope.

(* ================================================================== *)
(** ** JavaScript built-ins used by the handler *)
(* ================================================================== *)

Module Js.

Definition code (c : ascii) : N := N_of_ascii c.

Definition in_range (lo hi : N) (c : ascii) : bool :=
  (lo <=? code c)%N && (code c <=? hi)%N.

(** [a-z], [A-Z], [0-9]. *)
Definition is_lower (c : ascii) : bool := in_range 97 122 c.
Definition is_upper (c : ascii) : bool := in_range 65 90 c.
Definition is_digit (c : ascii) : bool := in_range 48 57 c.
(** [a-z] under the [i] flag: without the [u] flag no character outside
    ASCII is folded onto an ASCII letter. *)
Definition is_letter (c : ascii) : bool := is_lower c || is_upper c.

(** WhiteSpace and LineTerminator of ECMAScript, on U+0000 .. U+00FF:
    TAB, LF, VT, FF, CR, SP and NBSP.  This is what [trim] removes and what
    [\s] matches. *)
Definition is_space (c : ascii) : bool :=
  in_range 9 13 c || (code c =? 32)%N || (code c =? 160)%N.

(** Simple lower-case mapping: A-Z, and U+00C0 .. U+00DE except the
    multiplication sign U+00D7. *)
Definition lower_char (c : ascii) : ascii :=
  if is_upper c || (in_range 192 222 c && negb (code c =? 215)%N)
  then ascii_of_N (code c + 32) else c.

(** Upper-case mapping of the letters a-z. *)
Definition upper_char (c : ascii) : ascii :=
  if is_lower c then ascii_of_N (code c - 32) else c.

Fixpoint map_chars (f : ascii -> ascii) (s : string) : string :=
  match s with
  | EmptyString => EmptyString
  | String c s' => String (f c) (map_chars f s')
  end.

Fixpoint filter_chars (p : ascii -> bool) (s : string) : string :=
  match s with
  | EmptyString => EmptyString
  | String c s' => if p c then String c (filter_chars p s') else filter_chars p s'
  end.

Fixpoint all_chars (p : ascii -> bool) (s : string) : bool :=
  match s with
  | EmptyString => true
  | String c s' => p c && all_chars p s'
  end.

Definition toLowerCase (s : string) : string := map_chars lower_char s.

(** Truthiness of a string: [!s] holds exactly for the empty string. *)
Definition is_empty (s : string) : bool :=
  match s with EmptyString => true | _ => false end.

Fixpoint trimStart (s : string) : string :=
  match s with
  | EmptyString => EmptyString
  | String c s' => if is_space c then trimStart s' else s
  end.

Fixpoint trimEnd (s : string) : string :=
  match s with
  | EmptyString => EmptyString
  | String c s' =>
      match trimEnd s' with
      | EmptyString => if is_space c then EmptyString else String c EmptyString
      | t => String c t
      end
  end.

Definition trim (s : string) : string := trimEnd (trimStart s).

(** [s.startsWith(p)] *)
Definition startsWith (p s : string) : bool := prefix p s.

(** [s.endsWith(p)] *)
Fixpoint endsWith (p s : string) : bool :=
  (s =? p) ||
  match s with
  | EmptyString => false
  | String _ s' => endsWith p s'
  end.

(** [s.includes(p)] *)
Fixpoint includes (p s : string) : bool :=
  prefix p s ||
  match s with
  | EmptyString => false
  | String _ s' => includes p s'
  end.

(** [s.slice(n)] for [n >= 0]. *)
Fixpoint slice (n : nat) (s : string) : string :=
  match n, s with
  | O, _ => s
  | S n', String _ s' => slice n' s'
  | S _, EmptyString => EmptyString
  end.

(** [s.charAt(0)] *)
Definition charAt0 (s : string) : string :=
  match s with
  | EmptyString => EmptyString
  | String c _ => String c EmptyString
  end.

(** [s.split(sep)] for a one-character separator: the pieces between the
    separators, empty pieces included. *)
Fixpoint split (sep : ascii) (s : string) : list string :=
  match s with
  | EmptyString => [EmptyString]
  | String c s' =>
      if Ascii.eqb c sep then EmptyString :: split sep s'
      else match split sep s' with
           | x :: xs => String c x :: xs
           | [] => [String c EmptyString]
           end
  end.

(** [s.split(/[cls]+/)]: the separators are the maximal runs of characters
    of the class.  [insep] tells that the previous character belonged to a
    separator. *)
Fixpoint split_runs (cls : ascii -> bool) (insep : bool) (s : string) : list string :=
  match s with
  | EmptyString => [EmptyString]
  | String c s' =>
      if cls c then
        if insep then split_runs cls true s'
        else EmptyString :: split_runs cls true s'
      else match split_runs cls false s' with
           | x :: xs => String c x :: xs
           | [] => [String c EmptyString]
           end
  end.

(** [arr.filter(Boolean)] on an array of strings. *)
Definition filter_nonempty (l : list string) : list string :=
  filter (fun s => negb (is_empty s)) l.

(** [arr.pop()] as an expression: the last element, if any. *)
Definition pop (l : list string) : option string := last (map Some l) None.

(** [arr.join(sep)] *)
Fixpoint join (sep : string) (l : list string) : string :=
  match l with
  | [] => EmptyString
  | [x] => x
  | x :: rest => x ++ sep ++ join sep rest
  end.

(** [Array.from(new Set(arr))]: first occurrences, in insertion order. *)
Fixpoint set_from (seen : list string) (l : list string) : list string :=
  match l with
  | [] => []
  | x :: rest =>
      if existsb (String.eqb x) seen then set_from seen rest
      else x :: set_from (x :: seen) rest
  end.

(** Canonical decomposition (NFD) of one character of U+00C0 .. U+00FF:
    the base letter and the combining mark, as code points.  Characters
    without a canonical decomposition are kept. *)
Definition nfd_char (c : ascii) : list N :=
  (let n := code c in
   let k := if n <? 224 then n - 192 else n - 224 in
   let cased (b : N) : N := if n <? 224 then b else b + 32 in
   if n <? 192 then [n]
   else match k with
        | 0 => [cased 65; 768] | 1 => [cased 65; 769] | 2 => [cased 65; 770]
        | 3 => [cased 65; 771] | 4 => [cased 65; 776] | 5 => [cased 65; 778]
        | 7 => [cased 67; 807]
        | 8 => [cased 69; 768] | 9 => [cased 69; 769] | 10 => [cased 69; 770]
        | 11 => [cased 69; 776]
        | 12 => [cased 73; 768] | 13 => [cased 73; 769] | 14 => [cased 73; 770]
        | 15 => [cased 73; 776]
        | 17 => [cased 78; 771]
        | 18 => [cased 79; 768] | 19 => [cased 79; 769] | 20 => [cased 79; 770]
        | 21 => [cased 79; 771] | 22 => [cased 79; 776]
        | 25 => [cased 85; 768] | 26 => [cased 85; 769] | 27 => [cased 85; 770]
        | 28 => [cased 85; 776]
        | 29 => [cased 89; 769]
        | 31 => if n <? 224 then [n] else [121; 776]
        | _ => [n]
        end)%N.

(** [s.normalize("NFD")], as a sequence of code points. *)
Fixpoint normalizeNFD (s : string) : list N :=
  match s with
  | EmptyString => []
  | String c s' => (nfd_char c ++ normalizeNFD s')%list
  end.

(** A sequence of code points below U+0100 read back as a string. *)
Fixpoint of_codes (l : list N) : string :=
  match l with
  | [] => EmptyString
  | n :: rest => String (ascii_of_N n) (of_codes rest)
  end.

End Js.

(* ================================================================== *)
(** ** Regular expressions of the handler

    Every regular expression of the source is a sequence of quantified
    character classes; [Regex.atom] is one such item.  Matching follows the
    backtracking order of ECMAScript: a quantifier is greedy and gives
    characters back one at a time. *)
(* ================================================================== *)

Module Regex.

Record atom := Atom {
  cls  : ascii -> bool;  (* the character class *)
  lo   : nat;            (* least number of repetitions *)
  more : bool            (* true: no upper bound; false: exactly [lo] *)
}.

Definition regex := list atom.

Definition one (p : ascii -> bool) : atom := Atom p 1 false.      (* [p]     *)
Definition plus (p : ascii -> bool) : atom := Atom p 1 true.      (* [p]+    *)
Definition exactly (n : nat) (p : ascii -> bool) : atom := Atom p n false. (* [p]{n}  *)
Definition at_least (n : nat) (p : ascii -> bool) : atom := Atom p n true. (* [p]{n,} *)

Definition chr (a : ascii) : ascii -> bool := Ascii.eqb a.

(** [m_atom p lo more k s]: match the item at the head of [s], then the
    continuation [k]; the answer is the rest of the input after the whole
    match. *)
Fixpoint m_atom (p : ascii -> bool) (lo : nat) (more : bool)
         (k : string -> option string) (s : string) {struct s} : option string :=
  match lo with
  | S lo' =>
      match s with
      | String c s' => if p c then m_atom p lo' more k s' else None
      | EmptyString => None
      end
  | O =>
      if more then
        match s with
        | String c s' =>
            if p c then
              match m_atom p O true k s' with
              | Some r => Some r
              | None => k s
              end
            else k s
        | EmptyString => k s
        end
      else k s
  end.

Fixpoint m_seq (r : regex) (k : string -> option string) : string -> option string :=
  match r with
  | [] => k
  | a :: r' => m_atom (cls a) (lo a) (more a) (m_seq r' k)
  end.

Definition at_end (s : string) : option string :=
  match s with EmptyString => Some EmptyString | _ => None end.

(** [/^r$/.test(s)] *)
Definition test_anchored (r : regex) (s : string) : bool :=
  match m_seq r at_end s with Some _ => true | None => false end.

(** One attempt of [/r/] at the head of [s]: the rest of the input after
    the match. *)
Definition exec_here (r : regex) (s : string) : option string :=
  m_seq r Some s.

Fixpoint take (n : nat) (s : string) : string :=
  match n, s with
  | S n', String c s' => String c (take n' s')
  | _, _ => EmptyString
  end.

(** [s.match(/r/g)], for an [r] that cannot match the empty string: scan
    from the left, and resume after each match.  [skip] counts the
    characters still covered by the last match. *)
Fixpoint match_all_from (r : regex) (skip : nat) (s : string) : list string :=
  match s with
  | EmptyString => []
  | String _ s' =>
      match skip with
      | S n => match_all_from r n s'
      | O =>
          match exec_here r s with
          | Some rest =>
              let len := String.length s - String.length rest in
              take len s :: match_all_from r (len - 1) s'
          | None => match_all_from r O s'
          end
      end
  end.

Definition match_all (r : regex) (s : string) : list string :=
  match_all_from r O s.

End Regex.

(* ================================================================== *)
(** ** Data model *)
(* ================================================================== *)

(** The five local-part conventions, named in the source by the strings
    ["first.last"], ["firstlast"], ["firstinitial.last"],
    ["first.lastinitial"] and ["first"]. *)
Inductive Pattern := FirstLast | Firstlast | FirstinitialLast | FirstLastinitial | First.

Definition pattern_name (p : Pattern) : string :=
  match p with
  | FirstLast => "first.last"
  | Firstlast => "firstlast"
  | FirstinitialLast => "firstinitial.last"
  | FirstLastinitial => "first.lastinitial"
  | First => "first"
  end.

Definition Pattern_eqb (p q : Pattern) : bool :=
  match p, q with
  | FirstLast, FirstLast | Firstlast, Firstlast
  | FirstinitialLast, FirstinitialLast
  | FirstLastinitial, FirstLastinitial | First, First => true
  | _, _ => false
  end.

(** The role labels of [ROLE_KEYWORDS]. *)
Inductive Role := Founder | CEO | Executive | FinanceHead | OperationsHead.

Definition role_label (r : Role) : string :=
  match r with
  | Founder => "Founder"
  | CEO => "CEO"
  | Executive => "Executive"
  | FinanceHead => "Finance Head"
  | OperationsHead => "Operations Head"
  end.

Definition Role_eqb (a b : Role) : bool :=
  match a, b with
  | Founder, Founder | CEO, CEO | Executive, Executive
  | FinanceHead, FinanceHead | OperationsHead, OperationsHead => true
  | _, _ => false
  end.

Inductive Confidence := High | Medium | Low.

(** A value read from the request body. *)
#[warning="-register-all"]
Inductive JSON :=
| JNull
| JBool (b : bool)
| JNum (q : QArith_base.Q)
| JStr (s : string)
| JArr (items : list JSON)
| JObj (fields : list (string * JSON)).

(** [!!v], where [None] stands for [undefined]. *)
Definition truthy (v : option JSON) : bool :=
  match v with
  | None | Some JNull => false
  | Some (JBool b) => b
  | Some (JNum q) => negb (Z.eqb (QArith_base.Qnum q) 0)
  | Some (JStr s) => negb (Js.is_empty s)
  | Some (JArr _) | Some (JObj _) => true
  end.

(** [v?.key] for one of the keys [company], [website], [linkedinProfiles]:
    only an object has such a property; a name repeated in the body keeps its
    last value. *)
Fixpoint lookup (key : string) (fields : list (string * JSON)) : option JSON :=
  match fields with
  | [] => None
  | (k, v) :: rest =>
      match lookup key rest with
      | Some v' => Some v'
      | None => if String.eqb k key then Some v else None
      end
  end.

Definition get_prop (v : JSON) (key : string) : option JSON :=
  match v with
  | JObj fields => lookup key fields
  | _ => None
  end.

Module Contact.
Record t := Make {
  firstName : string;
  lastName : option string;
  fullName : string;
  role : string;
  company : string;
  source : string
}.
End Contact.

Module Discovery.
Record t := Make {
  pattern : option Pattern;
  confidence : Confidence;
  source : string
}.
End Discovery.

Module Result.
Record t := Make {
  name : string;
  role : string;
  company : string;
  email : string;
  confidence : Confidence;
  source : string
}.
End Result.

(** What [new URL(s)] exposes to the handler. *)
Record URL := { hostname : string; pathname : string }.

(** The three responses of the route: 200 with the results, 400 with an empty
    result list and the message "No entries supplied.", 500 with the message
    of the failure. *)
Inductive Response :=
| Ok200 (results : list Result.t)
| BadRequest400
| ServerError500.

(* ================================================================== *)
(** ** Constants *)
(* ================================================================== *)

Definition FREE_PROVIDERS : list string :=
  [ "gmail.com"; "yahoo.com"; "outlook.com"; "hotmail.com"; "icloud.com";
    "aol.com"; "protonmail.com"; "zoho.com"; "yandex.com"; "gmx.com";
    "mail.com" ].

Definition ROLE_KEYWORDS : list (list string * Role) :=
  [ (["founder"; "cofounder"; "co-founder"], Founder);
    (["ceo"; "chiefexecutiveofficer"], CEO);
    (["c-suite"; "executive"], Executive);
    (["cfo"; "chieffinancialofficer"; "financehead"; "finance"], FinanceHead);
    (["operations"; "ops"; "headoperations"; "operationshead"], OperationsHead) ].

Definition FALLBACK_PATTERNS : list Pattern :=
  [FirstLast; First; Firstlast; FirstinitialLast; FirstLastinitial].

Definition PATTERN_PRIORITY (p : Pattern) : Z :=
  match p with
  | FirstLast => 5
  | Firstlast => 4
  | FirstinitialLast => 3
  | FirstLastinitial => 3
  | First => 2
  end.

Definition ROLE_PRIORITY (r : Role) : Z :=
  match r with
  | Founder => 5
  | CEO => 4
  | Executive => 3
  | OperationsHead => 2
  | FinanceHead => 2
  end.

(** [a || b] on numbers. *)
Definition or_num (a b : Z) : Z := if Z.eqb a 0 then b else a.

(** [/[A-Z0-9._%+-]+@[A-Z0-9.-]+\.[A-Z]{2,}/gi] *)
Definition email_local_char (c : ascii) : bool :=
  Js.is_letter c || Js.is_digit c ||
  Ascii.eqb c "." || Ascii.eqb c "_" || Ascii.eqb c "%" || Ascii.eqb c "+" || Ascii.eqb c "-".

Definition email_host_char (c : ascii) : bool :=
  Js.is_letter c || Js.is_digit c || Ascii.eqb c "." || Ascii.eqb c "-".

Definition EMAIL_REGEX : Regex.regex :=
  [ Regex.plus email_local_char; Regex.one (Regex.chr "@");
    Regex.plus email_host_char; Regex.one (Regex.chr ".");
    Regex.at_least 2 Js.is_letter ].

(* ================================================================== *)
(** ** Pattern inference *)
(* ================================================================== *)

(** [/^[a-z]+\.{1}[a-z]+$/] *)
Definition re_first_last : Regex.regex :=
  [Regex.plus Js.is_lower; Regex.exactly 1 (Regex.chr "."); Regex.plus Js.is_lower].
(** [/^[a-z]+[a-z]+$/] *)
Definition re_firstlast : Regex.regex :=
  [Regex.plus Js.is_lower; Regex.plus Js.is_lower].
(** [/^[a-z]\.[a-z]+$/] *)
Definition re_firstinitial_last : Regex.regex :=
  [Regex.one Js.is_lower; Regex.one (Regex.chr "."); Regex.plus Js.is_lower].
(** [/^[a-z]+\.{1}[a-z]$/] *)
Definition re_first_lastinitial : Regex.regex :=
  [Regex.plus Js.is_lower; Regex.exactly 1 (Regex.chr "."); Regex.one Js.is_lower].
(** [/^[a-z]+$/] *)
Definition re_first : Regex.regex := [Regex.plus Js.is_lower].

Definition inferPattern (localPart : string) : option Pattern :=
  let sanitized := Js.filter_chars Js.is_letter localPart in
  if Js.is_empty localPart then None
  else if Regex.test_anchored re_first_last localPart then Some FirstLast
  else if Regex.test_anchored re_firstlast localPart
          && (4 <=? String.length sanitized)%nat then Some Firstlast
  else if Regex.test_anchored re_firstinitial_last localPart then Some FirstinitialLast
  else if Regex.test_anchored re_first_lastinitial localPart then Some FirstLastinitial
  else if Regex.test_anchored re_first localPart then Some First
  else None.

(** [patternScores]: a [Map] from pattern to score.  A [Map] iterates in the
    order in which its keys were first inserted. *)
Definition ScoreMap := list (Pattern * Z).

Fixpoint map_get (p : Pattern) (m : ScoreMap) : option Z :=
  match m with
  | [] => None
  | (q, v) :: rest => if Pattern_eqb p q then Some v else map_get p rest
  end.

Fixpoint map_set (p : Pattern) (v : Z) (m : ScoreMap) : ScoreMap :=
  match m with
  | [] => [(p, v)]
  | (q, w) :: rest => if Pattern_eqb p q then (q, v) :: rest else (q, w) :: map_set p v rest
  end.

(** [const [local] = email.split("@")] *)
Definition local_of (email : string) : string :=
  hd EmptyString (Js.split "@" email).

(** The first loop of [selectPattern]. *)
Fixpoint score_emails (emails : list string) (patternScores : ScoreMap) : ScoreMap :=
  match emails with
  | [] => patternScores
  | email :: rest =>
      match inferPattern (local_of email) with
      | None => score_emails rest patternScores
      | Some pattern =>
          let old := match map_get pattern patternScores with
                     | Some v => or_num v 0
                     | None => 0%Z
                     end in
          score_emails rest
            (map_set pattern (old + or_num (PATTERN_PRIORITY pattern) 1)%Z patternScores)
      end
  end.

(** The second loop of [selectPattern]; a [bestScore] of [None] is
    [-Infinity]. *)
Fixpoint pick_best (entries : ScoreMap) (bestPattern : option Pattern)
         (bestScore : option Z) : option Pattern :=
  match entries with
  | [] => bestPattern
  | (pattern, score) :: rest =>
      let better := match bestScore with
                    | None => true
                    | Some b => (b <? score)%Z
                    end in
      if better then pick_best rest (Some pattern) (Some score)
      else pick_best rest bestPattern bestScore
  end.

Definition selectPattern (emails : list string) : option Pattern :=
  pick_best (score_emails emails []) None None.

Definition hints : list (Pattern * list string) :=
  [ (FirstLast, ["io"; "tech"; "systems"; "labs"]);
    (FirstinitialLast, ["finance"; "bank"; "capital"]);
    (Firstlast, ["media"; "creative"; "studio"]) ].

Fixpoint first_hint (hs : list (Pattern * list string)) (domain : string) : option Pattern :=
  match hs with
  | [] => None
  | (pattern, keywords) :: rest =>
      if existsb (fun keyword => Js.includes keyword domain) keywords
      then Some pattern
      else first_hint rest domain
  end.

Definition guessPatternFromDomain (domain : string) : option Pattern :=
  first_hint hints domain.

Definition buildDiscoveryUrls (domain : string) : list string :=
  let base := "https://" ++ domain in
  let withoutWww := if Js.startsWith "www." domain then Js.slice 4 domain else domain in
  let withWww := if String.eqb withoutWww domain then "www." ++ domain else domain in
  Js.set_from []
    [ "https://" ++ withoutWww; "https://" ++ withWww;
      "http://" ++ withoutWww; "http://" ++ withWww;
      base ++ "/contact"; base ++ "/team"; base ++ "/about" ].

(** The addresses of a page that lie on the domain:
    [(html.match(EMAIL_REGEX) || []).map(lower).filter(endsWith("@" + domain))]. *)
Definition businessEmails (domain html : string) : list string :=
  filter (fun email => Js.endsWith ("@" ++ domain) email)
         (map Js.toLowerCase (Regex.match_all EMAIL_REGEX html)).

(* ================================================================== *)
(** ** Email synthesis and confidence *)
(* ================================================================== *)

(** [sanitizePart]: decompose, drop U+0300 .. U+036F, drop what is not a
    letter of [a-zA-Z], lower-case.  [None] is a [null] name. *)
Definition sanitizePart (value : option string) : string :=
  match value with
  | None => EmptyString
  | Some v =>
      if Js.is_empty v then EmptyString
      else
        let decomposed := Js.normalizeNFD v in
        let unmarked :=
          filter (fun n => negb ((768 <=? n)%N && (n <=? 879)%N)) decomposed in
        let letters :=
          filter (fun n => (n <? 256)%N && Js.is_letter (ascii_of_N n)) unmarked in
        Js.toLowerCase (Js.of_codes letters)
  end.

Definition applyPattern (pattern : Pattern) (first last : string) : option string :=
  match pattern with
  | FirstLast =>
      if Js.is_empty last then None else Some (first ++ "." ++ last)
  | Firstlast =>
      if Js.is_empty last then None else Some (first ++ last)
  | FirstinitialLast =>
      if Js.is_empty last then None else Some (Js.charAt0 first ++ "." ++ last)
  | FirstLastinitial =>
      if Js.is_empty last then None else Some (first ++ "." ++ Js.charAt0 last)
  | First => Some first
  end.

Definition buildEmail (contact : Contact.t) (domain : string) (pattern : Pattern)
  : option string :=
  let first := sanitizePart (Some (Contact.firstName contact)) in
  let last := sanitizePart (Contact.lastName contact) in
  if Js.is_empty first then None
  else match applyPattern pattern first last with
       | None => None
       | Some localPart =>
           if Js.is_empty localPart then None
           else Some (localPart ++ "@" ++ domain)
       end.

(** [!contact.lastName]: the last name is [null] or empty. *)
Definition no_lastName (contact : Contact.t) : bool :=
  match Contact.lastName contact with
  | None => true
  | Some l => Js.is_empty l
  end.

Definition chooseFallbackPattern (contact : Contact.t) : option Pattern :=
  if no_lastName contact then Some First
  else hd_error FALLBACK_PATTERNS.

Definition downgrade (level : Confidence) : Confidence :=
  match level with
  | High => Medium
  | Medium => Low
  | Low => Low
  end.

Definition adjustConfidence (base : Confidence) (pattern : Pattern) (contact : Contact.t)
  : Confidence :=
  let level := base in
  if no_lastName contact || Pattern_eqb pattern First then downgrade level
  else level.

(* ================================================================== *)
(** ** Deduplication *)
(* ================================================================== *)

Definition signature (item : Result.t) : string :=
  Js.toLowerCase (Result.company item) ++ "-" ++ Js.toLowerCase (Result.email item).

(** [results.filter(...)] with the closure's [seen] set threaded through. *)
Fixpoint dedup_from (seen : list string) (results : list Result.t) : list Result.t :=
  match results with
  | [] => []
  | item :: rest =>
      let sig := signature item in
      if existsb (String.eqb sig) seen then dedup_from seen rest
      else item :: dedup_from (sig :: seen) rest
  end.

Definition deduplicateResults (results : list Result.t) : list Result.t :=
  dedup_from [] results.

(* ================================================================== *)
(** ** Identifier parser *)
(* ================================================================== *)

Definition capitalize (input : string) : string :=
  match input with
  | EmptyString => EmptyString
  | String c rest => String (Js.upper_char c) rest
  end.

(** [/[^a-z0-9-_\s]/g] replaced by a space. *)
Definition slug_char (c : ascii) : bool :=
  Js.is_lower c || Js.is_digit c || Ascii.eqb c "-" || Ascii.eqb c "_" || Js.is_space c.

(** [/[-_\s]+/] *)
Definition slug_sep (c : ascii) : bool :=
  Ascii.eqb c "-" || Ascii.eqb c "_" || Js.is_space c.

Definition tokenize (slug : string) : list string :=
  Js.filter_nonempty
    (Js.split_runs slug_sep false
       (Js.map_chars (fun c => if slug_char c then c else " "%char)
                     (Js.toLowerCase slug))).

(** [token.replace(/[^a-z]/g, "")] *)
Definition letters_only (token : string) : string := Js.filter_chars Js.is_lower token.

(** [ROLE_KEYWORDS.find(item => item.match.includes(word))] *)
Definition find_role (word : string) : option Role :=
  match find (fun item => existsb (String.eqb word) (fst item)) ROLE_KEYWORDS with
  | Some item => Some (snd item)
  | None => None
  end.

(** [matchedRoles.add(label)] on a [Set], which keeps insertion order. *)
Definition set_add (r : Role) (s : list Role) : list Role :=
  if existsb (Role_eqb r) s then s else (s ++ [r])%list.

(** [/^\d+$/] *)
Definition re_digits : Regex.regex := [Regex.plus Js.is_digit].

(** The token loop: the matched roles and the name tokens. *)
Fixpoint classify_tokens (tokens : list string) (matchedRoles : list Role)
         (nameTokens : list string) : list Role * list string :=
  match tokens with
  | [] => (matchedRoles, nameTokens)
  | token :: rest =>
      match find_role (letters_only token) with
      | Some label => classify_tokens rest (set_add label matchedRoles) nameTokens
      | None =>
          if negb (Regex.test_anchored re_digits token)
          then classify_tokens rest matchedRoles (nameTokens ++ [token])%list
          else classify_tokens rest matchedRoles nameTokens
      end
  end.

Definition splitNameTokens (tokens : list string) : option string * option string :=
  match tokens with
  | [] => (None, None)
  | _ =>
      let cleanedTokens := Js.filter_nonempty (map letters_only tokens) in
      match cleanedTokens with
      | [] => (None, None)
      | first :: others =>
          let firstName := capitalize first in
          let lastName :=
            if (1 <? List.length cleanedTokens)%nat
            then Some (capitalize (last cleanedTokens EmptyString))
            else None in
          (Some firstName, lastName)
      end
  end.

(** [arr.sort(cmp)]: a stable sort; [cmp a b > 0] moves [b] before [a]. *)
Fixpoint sort_insert {A : Type} (cmp : A -> A -> Z) (x : A) (l : list A) : list A :=
  match l with
  | [] => [x]
  | y :: rest => if (0 <? cmp x y)%Z then y :: sort_insert cmp x rest else x :: l
  end.

Definition sort {A : Type} (cmp : A -> A -> Z) (l : list A) : list A :=
  fold_right (sort_insert cmp) [] l.

Definition role_cmp (a b : Role) : Z :=
  (or_num (ROLE_PRIORITY b) 0 - or_num (ROLE_PRIORITY a) 0)%Z.

Definition role_text (matchedRoles : list Role) : string :=
  match matchedRoles with
  | [] => "Decision Maker"
  | _ => Js.join " & " (map role_label (sort role_cmp matchedRoles))
  end.

(** [[firstName, lastName].filter(Boolean).join(" ")] *)
Definition full_name (firstName : string) (lastName : option string) : string :=
  Js.join " "
    (Js.filter_nonempty
       (firstName :: match lastName with Some l => [l] | None => [] end)).

(** [x.split("/").filter(Boolean).pop() || trimmed] *)
Definition last_segment (path trimmed : string) : string :=
  match Js.pop (Js.filter_nonempty (Js.split "/" path)) with
  | Some seg => if Js.is_empty seg then trimmed else seg
  | None => trimmed
  end.

(** The rows that a loop body pushes: [f x] is the row for [x], or [None]
    when the body takes [continue]. *)
Fixpoint filter_map {A B : Type} (f : A -> option B) (l : list A) : list B :=
  match l with
  | [] => []
  | x :: rest =>
      match f x with
      | Some y => y :: filter_map f rest
      | None => filter_map f rest
      end
  end.

Section Handler.

(** [new URL(s)]: [None] when the constructor throws. *)
Variable parseURL : string -> option URL.

(** [fetchHtml(url)] over the state of the network: the body of a successful
    response or [None] (null: a status that is not ok, a network error, the
    7-second timeout), and the state after the request. *)
Variable World : Type.
Variable fetchHtml : string -> World -> option string * World.

Definition deriveDomain (input : string) : option string :=
  if Js.is_empty input then None
  else
    let value := Js.trim input in
    if Js.is_empty value then None
    else
      let value := if negb (Js.startsWith "http" value)
                   then "https://" ++ value else value in
      match parseURL value with
      | Some url =>
          let host := Js.toLowerCase (hostname url) in
          if Js.startsWith "www." host then Some (Js.slice 4 host)
          else Some host
      | None => None
      end.

(** The slug of a profile reference. *)
Definition slug_of (trimmed : string) : string :=
  match parseURL trimmed with
  | Some link => last_segment (pathname link) trimmed
  | None => last_segment trimmed trimmed
  end.

Definition extractContactFromLinkedIn (url : JSON) (company : string)
  : list Contact.t :=
  match url with
  | JStr url =>
      if Js.is_empty url then []
      else
        let trimmed := Js.trim url in
        if Js.is_empty trimmed then []
        else
          let slug := slug_of trimmed in
          let tokens := tokenize slug in
          let '(matchedRoles, nameTokens) := classify_tokens tokens [] [] in
          match nameTokens with
          | [] => []
          | _ =>
              match splitNameTokens nameTokens with
              | (Some firstName, lastName) =>
                  if Js.is_empty firstName then []
                  else
                    [ Contact.Make firstName lastName
                        (full_name firstName lastName)
                        (role_text matchedRoles) company trimmed ]
              | (None, _) => []
              end
          end
  | _ => []
  end.

(** The candidate loop of [discoverPattern]: the pattern found and the
    page it was found on. *)
Fixpoint try_urls (domain : string) (urlsToTry : list string) (w : World)
  : option (Pattern * string) * World :=
  match urlsToTry with
  | [] => (None, w)
  | url :: rest =>
      let '(html, w1) := fetchHtml url w in
      match html with
      | None => try_urls domain rest w1
      | Some html =>
          if Js.is_empty html then try_urls domain rest w1
          else
            let emails := businessEmails domain html in
            match emails with
            | [] => try_urls domain rest w1
            | _ =>
                match selectPattern emails with
                | Some pattern => (Some (pattern, url), w1)
                | None => try_urls domain rest w1
                end
            end
      end
  end.

Definition discoverPattern (domain : string) (w : World) : Discovery.t * World :=
  let '(found, w1) := try_urls domain (buildDiscoveryUrls domain) w in
  match found with
  | Some (discoveredPattern, discoveredFrom) =>
      (Discovery.Make (Some discoveredPattern) High discoveredFrom, w1)
  | None =>
      match guessPatternFromDomain domain with
      | Some heuristicPattern =>
          (Discovery.Make (Some heuristicPattern) Medium ("https://" ++ domain), w1)
      | None =>
          (Discovery.Make None Low ("https://" ++ domain), w1)
      end
  end.

(** [(entry?.key || "").trim()]; [None] is the [TypeError] raised when the
    property is a truthy value that is not a string. *)
Definition text_field (entry : JSON) (key : string) : option string :=
  let v := get_prop entry key in
  if truthy v then
    match v with
    | Some (JStr s) => Some (Js.trim s)
    | _ => None
    end
  else Some (Js.trim EmptyString).

(** [Array.isArray(entry?.linkedinProfiles)
      ? entry.linkedinProfiles.filter(Boolean) : []] *)
Definition profiles_of (entry : JSON) : list JSON :=
  match get_prop entry "linkedinProfiles" with
  | Some (JArr items) => filter (fun v => truthy (Some v)) items
  | _ => []
  end.

(** The body of the loop over the contacts of one entry: the row pushed
    for a contact, if any. *)
Definition emit (company domain : string) (patternDiscovery : Discovery.t)
           (contact : Contact.t) : option Result.t :=
  let emailPattern :=
    match Discovery.pattern patternDiscovery with
    | Some p => Some p
    | None => chooseFallbackPattern contact
    end in
  match emailPattern with
  | None => None
  | Some emailPattern =>
      match buildEmail contact domain emailPattern with
      | None => None
      | Some email =>
          if Js.is_empty email then None
          else
            let confidence :=
              adjustConfidence (Discovery.confidence patternDiscovery)
                               emailPattern contact in
            let combinedSource :=
              Js.join " | "
                (Js.filter_nonempty
                   [Contact.source contact; Discovery.source patternDiscovery]) in
            Some (Result.Make
                    (Contact.fullName contact)
                    (Contact.role contact)
                    (if negb (Js.is_empty company) then company
                     else if negb (Js.is_empty (Contact.company contact))
                          then Contact.company contact
                          else "Unknown company")
                    email confidence combinedSource)
      end
  end.

(** One turn of the loop over the entries: the rows it pushes, or [None]
    when it throws. *)
Definition process_entry (entry : JSON) (w : World)
  : option (list Result.t) * World :=
  match text_field entry "company" with
  | None => (None, w)
  | Some company =>
      match text_field entry "website" with
      | None => (None, w)
      | Some website =>
          let linkedinProfiles := profiles_of entry in
          match deriveDomain website with
          | None => (Some [], w)
          | Some domain =>
              if Js.is_empty domain
                 || existsb (String.eqb (Js.toLowerCase domain)) FREE_PROVIDERS
              then (Some [], w)
              else
                let '(patternDiscovery, w1) := discoverPattern domain w in
                let contacts :=
                  flat_map (fun profile => extractContactFromLinkedIn profile company)
                           linkedinProfiles in
                (Some (filter_map (emit company domain patternDiscovery) contacts), w1)
          end
      end
  end.

Fixpoint process_entries (entries : list JSON) (results : list Result.t) (w : World)
  : option (list Result.t) * World :=
  match entries with
  | [] => (Some results, w)
  | entry :: rest =>
      match process_entry entry w with
      | (Some rows, w1) => process_entries rest (results ++ rows)%list w1
      | (None, w1) => (None, w1)
      end
  end.

(** [POST], applied to the parsed request body. *)
Definition POST (body : JSON) (w : World) : Response * World :=
  match body with
  | JNull => (ServerError500, w)
  | _ =>
      match get_prop body "entries" with
      | Some (JArr (first :: others)) =>
          match process_entries (first :: others) [] w with
          | (Some results, w1) => (Ok200 (deduplicateResults results), w1)
          | (None, w1) => (ServerError500, w1)
          end
      | _ => (BadRequest400, w)
      end
  end.

End Handler.

(* ================================================================== *)
(** ** Concrete platform models for the worked examples *)
(* ================================================================== *)

(** [span stop s]: the longest prefix of [s] without a character of [stop],
    and the rest. *)
Fixpoint span (stop : ascii -> bool) (s : string) : string * string :=
  match s with
  | EmptyString => (EmptyString, EmptyString)
  | String c s' =>
      if stop c then (EmptyString, s)
      else let '(a, b) := span stop s' in (String c a, b)
  end.

Definition url_host_char (c : ascii) : bool :=
  Js.is_letter c || Js.is_digit c || Ascii.eqb c "-" || Ascii.eqb c ".".

Definition url_path_char (c : ascii) : bool :=
  Js.is_letter c || Js.is_digit c || Ascii.eqb c "-" || Ascii.eqb c "_"
  || Ascii.eqb c "." || Ascii.eqb c "~" || Ascii.eqb c "/".

(** A model of [new URL(s)] on plain web addresses
    [http(s)://host[/path][?query][#fragment]]: the host is made of letters,
    digits, [-] and [.], does not end in a numeric label and has no [xn--]
    label; the path is made of unreserved characters and [/] and has no [.]
    or [..] segment.  On these the URL standard lower-cases the host and
    keeps the path (["/"] when it is empty).  A string without a scheme is
    rejected, as the standard does when no base URL is given.  Everything
    else is outside this model, which answers [None] there. *)
Definition url_parse (s : string) : option URL :=
  let after_scheme :=
    if prefix "https://" s then Some (Js.slice 8 s)
    else if prefix "http://" s then Some (Js.slice 7 s)
    else None in
  match after_scheme with
  | None => None
  | Some rest =>
      let '(host, tail) :=
        span (fun c => Ascii.eqb c "/" || Ascii.eqb c "?" || Ascii.eqb c "#") rest in
      let '(path, _) := span (fun c => Ascii.eqb c "?" || Ascii.eqb c "#") tail in
      let last_label := last (Js.filter_nonempty (Js.split "." host)) EmptyString in
      if Js.is_empty host
         || negb (Js.all_chars url_host_char host)
         || negb (Js.all_chars Js.is_letter (Js.charAt0 last_label))
         || Js.is_empty last_label
         || Js.includes "xn--" (Js.toLowerCase host)
         || negb (Js.all_chars url_path_char path)
         || existsb (fun seg => String.eqb seg "." || String.eqb seg "..")
                    (Js.split "/" path)
      then None
      else Some {| hostname := Js.toLowerCase host;
                   pathname := if Js.is_empty path then "/" else path |}
  end.

(** A network on which every request fails. *)
Definition no_pages (url : string) (w : unit) : option string * unit := (None, w).

(** A network on which every request answers with the same page. *)
Definition one_page (page : string) (url : string) (w : unit) : option string * unit :=
  (Some page, w).

(** A network that answers from a script: the [n]-th request gets the [n]-th
    answer of the list, and fails once the list is used up. *)
Definition scripted (url : string) (w : list (option string)) : option string * list (option string) :=
  match w with
  | [] => (None, [])
  | answer :: rest => (answer, rest)
  end.


(* ================================================================== *)
(** ** The page ([src/app/page.js]): reading the input text, building the
    request, exporting the results *)
(* ================================================================== *)

Module Entry.
Record t := Make {
  company : string;
  website : string;
  linkedinProfiles : list string
}.
End Entry.

Definition newline : ascii := ascii_of_N 10.
Definition dquote : ascii := ascii_of_N 34.

(** [/[\s;|]+/] *)
Definition profile_sep (c : ascii) : bool :=
  Js.is_space c || Ascii.eqb c ";" || Ascii.eqb c "|".

(** The body of [lines.map(...)] in [parsedEntries]. *)
Definition parse_line (line : string) : Entry.t :=
  let parts := map Js.trim (Js.split "," line) in
  Entry.Make
    (nth 0 parts EmptyString)
    (nth 1 parts EmptyString)
    (flat_map
       (fun part =>
          Js.filter_nonempty (map Js.trim (Js.split_runs profile_sep false part)))
       (skipn 2 parts)).

Definition parsedEntries (rawInput : string) : list Entry.t :=
  let lines := Js.filter_nonempty (map Js.trim (Js.split newline rawInput)) in
  map parse_line lines.

(** The body that [handleProcess] posts, [{ entries: parsedEntries }], as
    the handler reads it back. *)
Definition entry_json (entry : Entry.t) : JSON :=
  JObj [ ("company", JStr (Entry.company entry));
         ("website", JStr (Entry.website entry));
         ("linkedinProfiles", JArr (map JStr (Entry.linkedinProfiles entry))) ].

Definition request_body (entries : list Entry.t) : JSON :=
  JObj [("entries", JArr (map entry_json entries))].

Definition confidence_name (c : Confidence) : string :=
  match c with
  | High => "high"
  | Medium => "medium"
  | Low => "low"
  end.

(** [value.replace(...)]: every double quote of the value is doubled. *)
Fixpoint double_quotes (value : string) : string :=
  match value with
  | EmptyString => EmptyString
  | String c rest =>
      if Ascii.eqb c dquote
      then String dquote (String dquote (double_quotes rest))
      else String c (double_quotes rest)
  end.

(** One cell of the export: the value between quotes, its quotes doubled. *)
Definition csv_cell (value : string) : string :=
  String dquote (double_quotes value ++ String dquote EmptyString).

Definition row_cells (item : Result.t) : list string :=
  [ Result.name item; Result.role item; Result.company item; Result.email item;
    confidence_name (Result.confidence item); Result.source item ].

Definition csv_row (item : Result.t) : string :=
  Js.join "," (map csv_cell (row_cells item)).

Definition csv_header : list string :=
  ["Name"; "Role"; "Company"; "Email"; "Confidence"; "Source"].

(** The text that [handleDownload] offers for download; [None] when there
    are no results and the function returns at once. *)
Definition handleDownload (results : list Result.t) : option string :=
  match results with
  | [] => None
  | _ =>
      Some (Js.join (String newline EmptyString)
                    (Js.join "," csv_header :: map csv_row results))
  end.
(* ================================================================== *)
(** ** Specification-side definitions

    These follow the wording of the specification.  The handler above does
    not use them; the theorems compare it with them. *)
(* ================================================================== *)

(** A word: a non-empty run of letters [a-z]. *)
Definition is_word (s : string) : bool :=
  negb (Js.is_empty s) && Js.all_chars Js.is_lower s.

Definition is_single_letter (s : string) : bool :=
  match s with
  | String c EmptyString => Js.is_lower c
  | _ => false
  end.

(** [dotted P Q s]: [s] is [a.b] with exactly one dot, [P a] and [Q b]. *)
Definition dotted (P Q : string -> bool) (s : string) : bool :=
  match Js.split "." s with
  | [a; b] => P a && Q b
  | _ => false
  end.

(** The five precedence rules of the pattern inferencer, first match wins. *)
Definition classify_by_rules (localPart : string) : option Pattern :=
  if dotted is_word is_word localPart then Some FirstLast
  else if is_word localPart && (4 <=? String.length localPart)%nat then Some Firstlast
  else if dotted is_single_letter is_word localPart then Some FirstinitialLast
  else if dotted is_word is_single_letter localPart then Some FirstLastinitial
  else if is_word localPart then Some First
  else None.

(** The strings one item of a regular expression accepts: a run of the class
    of the stated length. *)
Definition in_atom (p : ascii -> bool) (lo : nat) (more : bool) (a : string) : Prop :=
  Js.all_chars p a = true /\
  (if more then lo <= String.length a else String.length a = lo).

(** The strings a regular expression accepts, item by item; [K] is what has
    to hold of the rest of the input. *)
Fixpoint in_seq (r : Regex.regex) (K : string -> Prop) (s : string) : Prop :=
  match r with
  | [] => K s
  | a :: r' =>
      exists x rest, s = x ++ rest /\
        in_atom (Regex.cls a) (Regex.lo a) (Regex.more a) x /\ in_seq r' K rest
  end.

(** No character of [s] is [sep]. *)
Definition free_of (sep : ascii) (s : string) : bool :=
  Js.all_chars (fun c => negb (Ascii.eqb c sep)) s.

(** The pattern an address is classified into, through its local part. *)
Definition classify (email : string) : option Pattern :=
  inferPattern (local_of email).

(** The fixed weights of the five patterns. *)
Definition pattern_weight (p : Pattern) : Z :=
  match p with
  | FirstLast => 5
  | Firstlast => 4
  | FirstinitialLast => 3
  | FirstLastinitial => 3
  | First => 2
  end.

(** The total score of a pattern: its weight, once per address classified
    into it. *)
Fixpoint total_score (emails : list string) (p : Pattern) : Z :=
  match emails with
  | [] => 0
  | email :: rest =>
      ((match classify email with
        | Some q => if Pattern_eqb q p then pattern_weight p else 0
        | None => 0
        end) + total_score rest p)%Z
  end.

(** [met_before emails p q]: an address of pattern [p] comes in the list
    before every address of pattern [q]. *)
Definition met_before (emails : list string) (p q : Pattern) : Prop :=
  exists pre email post,
    emails = (pre ++ email :: post)%list /\
    classify email = Some p /\
    Forall (fun e => classify e <> Some q) pre.

(** The keys of a score map, in iteration order. *)
Definition keys (m : ScoreMap) : list Pattern := map fst m.

(** One leading [www.] label removed. *)
Definition strip_www (host : string) : string :=
  if prefix "www." host then Js.slice 4 host else host.

(** The domain resolver with the scheme test of the code, the literal prefix
    [http]: trim, put [https://] in front unless the prefix is there, parse,
    lower-case the host name and strip one [www.]. *)
Definition deriveDomain_amended (parseURL : string -> option URL) (input : string)
  : option string :=
  let value := Js.trim input in
  match parseURL (if prefix "http" value then value else "https://" ++ value) with
  | None => None
  | Some url => Some (strip_www (Js.toLowerCase (hostname url)))
  end.

(** The same, with the early answer for an input that trims to nothing. *)
Definition deriveDomain_guarded (parseURL : string -> option URL) (input : string)
  : option string :=
  if Js.is_empty (Js.trim input) then None
  else deriveDomain_amended parseURL input.

(** A URL scheme at the head of a string: a letter, then letters, digits,
    [+], [-] or [.], then a colon. *)
Definition scheme_char (c : ascii) : bool :=
  Js.is_letter c || Js.is_digit c || Ascii.eqb c "+" || Ascii.eqb c "-" || Ascii.eqb c ".".

Definition has_scheme (s : string) : bool :=
  match s with
  | EmptyString => false
  | String c rest =>
      Js.is_letter c &&
      (let '(_, tail) := span (fun x => negb (scheme_char x)) rest in prefix ":" tail)
  end.

(** The domain resolver as the specification words it: [https://] is put in
    front exactly when the trimmed input starts with no URL scheme. *)
Definition deriveDomain_claimed (parseURL : string -> option URL) (input : string)
  : option string :=
  let value := Js.trim input in
  match parseURL (if has_scheme value then value else "https://" ++ value) with
  | None => None
  | Some url => Some (strip_www (Js.toLowerCase (hostname url)))
  end.

(** The local part each pattern builds from the two sanitized names. *)
Definition local_template (p : Pattern) (first last : string) : string :=
  match p with
  | FirstLast => first ++ "." ++ last
  | Firstlast => first ++ last
  | FirstinitialLast => Js.charAt0 first ++ "." ++ last
  | FirstLastinitial => first ++ "." ++ Js.charAt0 last
  | First => first
  end.

(** The four patterns that need both names. *)
Definition two_part (p : Pattern) : bool :=
  match p with
  | First => false
  | _ => true
  end.

(** The contact has no last name. *)
Definition lacks_last_name (contact : Contact.t) : bool :=
  match Contact.lastName contact with
  | None => true
  | Some l => String.eqb l EmptyString
  end.

(** One tier down: high to medium, medium to low, low stays low. *)
Definition one_tier_down (level : Confidence) : Confidence :=
  match level with
  | High => Medium
  | Medium | Low => Low
  end.

(** The pattern applied to a contact: the discovered one, or else the
    per-contact fallback. *)
Definition applied_pattern (discovered : option Pattern) (contact : Contact.t) : Pattern :=
  match discovered with
  | Some p => p
  | None => if lacks_last_name contact then First else FirstLast
  end.

(** Two rows have the same company and the same address, letter case
    apart. *)
Definition same_pair (a b : Result.t) : bool :=
  String.eqb (Js.toLowerCase (Result.company a)) (Js.toLowerCase (Result.company b))
  && String.eqb (Js.toLowerCase (Result.email a)) (Js.toLowerCase (Result.email b)).

(** The shape of the addresses the handler emits: a local part without [-],
    an [@], and a host without [@]. *)
Definition address_shape (email : string) : Prop :=
  exists localPart host,
    email = localPart ++ "@" ++ host /\
    free_of "-" localPart = true /\
    free_of "@" host = true.

Definition emitted (row : Result.t) : Prop := address_shape (Result.email row).

(** [subsequence l1 l2]: [l1] is [l2] with some elements left out, the others
    in their order. *)
Inductive subsequence {A : Type} : list A -> list A -> Prop :=
| sub_nil : subsequence [] []
| sub_keep (x : A) (l1 l2 : list A) : subsequence l1 l2 -> subsequence (x :: l1) (x :: l2)
| sub_drop (x : A) (l1 l2 : list A) : subsequence l1 l2 -> subsequence l1 (x :: l2).

(** The answers of the network to the candidate addresses, fetched in
    order. *)
Fixpoint fetch_all {World : Type} (fetchHtml : string -> World -> option string * World)
         (urls : list string) (w : World) : list (option string) :=
  match urls with
  | [] => []
  | url :: rest =>
      let '(page, w1) := fetchHtml url w in
      page :: fetch_all fetchHtml rest w1
  end.

(** A candidate yields no classifiable address on the domain: the request
    failed, or no address of the page that lies on the domain is
    classified. *)
Definition page_unclassifiable (domain : string) (page : option string) : Prop :=
  match page with
  | None => True
  | Some html => Forall (fun e => classify e = None) (businessEmails domain html)
  end.

(** [kw] occurs in [s]. *)
Definition contains (kw s : string) : Prop := exists a b, s = a ++ kw ++ b.

Definition any_keyword (kws : list string) (domain : string) : Prop :=
  Exists (fun kw => contains kw domain) kws.

(** The fixed priorities of the role labels. *)
Definition role_priority (r : Role) : Z :=
  match r with
  | Founder => 5
  | CEO => 4
  | Executive => 3
  | OperationsHead => 2
  | FinanceHead => 2
  end.

(** [a] may stand before [b] in a list in descending priority. *)
Definition by_priority (a b : Role) : Prop := (role_priority b <= role_priority a)%Z.

(** The labels of one priority, in their order in the list. *)
Definition of_priority (k : Z) (l : list Role) : list Role :=
  filter (fun r => Z.eqb (role_priority r) k) l.

(** The role labels matched by the tokens of a slug, in the order in which
    they are first matched. *)
Definition matched_roles (tokens : list string) : list Role :=
  fst (classify_tokens tokens [] []).

(** A request body with the given entries. *)
Definition batch (entries : list JSON) : JSON := JObj [("entries", JArr entries)].

(** An entry with the given properties and, after them, the given array of
    profile references. *)
Definition with_profiles (fields : list (string * JSON)) (items : list JSON) : JSON :=
  JObj (fields ++ [("linkedinProfiles", JArr items)])%list.

Definition is_array (v : option JSON) : bool :=
  match v with
  | Some (JArr _) => true
  | _ => false
  end.


(* ================================================================== *)
(** ** Further specification-side definitions *)
(* ================================================================== *)

(** A property value that [(v || "").trim()] accepts: a string, or anything
    falsy. *)
Definition string_or_falsy (v : option JSON) : bool :=
  match v with
  | Some (JStr _) => true
  | _ => negb (truthy v)
  end.

(** An entry whose company and website can be read. *)
Definition usable (entry : JSON) : bool :=
  string_or_falsy (get_prop entry "company")
  && string_or_falsy (get_prop entry "website").

(** The rows of a list are pairwise different as (company, address) pairs,
    letter case apart. *)
Definition pairwise_distinct (rows : list Result.t) : Prop :=
  ForallOrdPairs (fun a b => same_pair a b = false) rows.

(** The state of the network after the given addresses were requested in
    order. *)
Fixpoint world_after {World : Type} (fetchHtml : string -> World -> option string * World)
         (urls : list string) (w : World) : World :=
  match urls with
  | [] => w
  | url :: rest => world_after fetchHtml rest (snd (fetchHtml url w))
  end.

(** The seven candidate addresses of a domain, written out. *)
Definition seven_candidates (domain : string) : list string :=
  let bare := strip_www domain in
  [ "https://" ++ bare; "https://www." ++ bare;
    "http://" ++ bare; "http://www." ++ bare;
    "https://" ++ domain ++ "/contact";
    "https://" ++ domain ++ "/team";
    "https://" ++ domain ++ "/about" ].

(** A capitalized word: a non-empty run of [a-z] with its first letter in
    upper case. *)
Definition capitalized (s : string) : Prop :=
  exists w, is_word w = true /\ s = capitalize w.

(** The role-keyword table without the two keywords that hold a hyphen. *)
Definition effective_keywords : list (list string * Role) :=
  [ (["founder"; "cofounder"], Founder);
    (["ceo"; "chiefexecutiveofficer"], CEO);
    (["executive"], Executive);
    (["cfo"; "chieffinancialofficer"; "financehead"; "finance"], FinanceHead);
    (["operations"; "ops"; "headoperations"; "operationshead"], OperationsHead) ].

Definition lookup_role (table : list (list string * Role)) (word : string) : option Role :=
  match find (fun item => existsb (String.eqb word) (fst item)) table with
  | Some item => Some (snd item)
  | None => None
  end.

(** The class of an address that was synthesized under a pattern, given its
    local part. *)
Definition class_of_synthesized (p : Pattern) (localPart : string) : Pattern :=
  match p with
  | FirstLast | FirstinitialLast | FirstLastinitial => FirstLast
  | Firstlast | First =>
      if (4 <=? String.length localPart)%nat then Firstlast else First
  end.

(** The tiers in order: low, medium, high. *)
Definition tier_rank (c : Confidence) : nat :=
  match c with
  | Low => 0
  | Medium => 1
  | High => 2
  end.

(** Lower-case letters and dots. *)
Definition lower_or_dot (c : ascii) : bool := Js.is_lower c || Ascii.eqb c ".".

(** The shape of what the address expression matches: a local part, an [@],
    a host, a dot and at least two letters. *)
Definition email_like (m : string) : Prop :=
  exists localPart host tld,
    m = localPart ++ "@" ++ host ++ "." ++ tld /\
    localPart <> EmptyString /\ Js.all_chars email_local_char localPart = true /\
    host <> EmptyString /\ Js.all_chars email_host_char host = true /\
    2 <= String.length tld /\ Js.all_chars Js.is_letter tld = true.

(** A character of a lower-cased local part. *)
Definition lower_local_char (c : ascii) : bool :=
  email_local_char c && negb (Js.is_upper c).

(** Reading comma-separated text back, by the usual rules: a field that
    opens with a double quote runs to the next single double quote and a
    doubled one stands for the character itself; a bare field runs to the
    next comma or line feed and holds no double quote; a comma ends a field,
    a line feed ends a row. *)
Inductive CsvState := FieldStart | Bare | Quoted | QuoteSeen.

Fixpoint csv_run (st : CsvState) (field : string) (row : list string)
         (rows : list (list string)) (s : string) : option (list (list string)) :=
  match s with
  | EmptyString =>
      match st with
      | Quoted => None
      | _ => Some (rows ++ [row ++ [field]])%list
      end
  | String c rest =>
      match st with
      | FieldStart =>
          if Ascii.eqb c dquote then csv_run Quoted EmptyString row rows rest
          else if Ascii.eqb c "," then csv_run FieldStart EmptyString (row ++ [EmptyString])%list rows rest
          else if Ascii.eqb c newline then csv_run FieldStart EmptyString [] (rows ++ [row ++ [EmptyString]])%list rest
          else csv_run Bare (String c EmptyString) row rows rest
      | Bare =>
          if Ascii.eqb c dquote then None
          else if Ascii.eqb c "," then csv_run FieldStart EmptyString (row ++ [field])%list rows rest
          else if Ascii.eqb c newline then csv_run FieldStart EmptyString [] (rows ++ [row ++ [field]])%list rest
          else csv_run Bare (field ++ String c EmptyString) row rows rest
      | Quoted =>
          if Ascii.eqb c dquote then csv_run QuoteSeen field row rows rest
          else csv_run Quoted (field ++ String c EmptyString) row rows rest
      | QuoteSeen =>
          if Ascii.eqb c dquote then csv_run Quoted (field ++ String c EmptyString) row rows rest
          else if Ascii.eqb c "," then csv_run FieldStart EmptyString (row ++ [field])%list rows rest
          else if Ascii.eqb c newline then csv_run FieldStart EmptyString [] (rows ++ [row ++ [field]])%list rest
          else None
      end
  end.

Definition csv_read (s : string) : option (list (list string)) :=
  csv_run FieldStart EmptyString [] [] s.

(** A character that may stand in a profile reference of a parsed entry:
    no white space, no semicolon, no bar and no comma. *)
Definition profile_char (c : ascii) : bool :=
  negb (Ascii.eqb c ",") && negb (profile_sep c).

(* ================================================================== *)
(** ** Strings *)
(* ================================================================== *)

Lemma is_empty_true (s : string) : Js.is_empty s = true <-> s = EmptyString.
Proof. destruct s; simpl; split; congruence. Qed.

Lemma is_empty_false (s : string) : Js.is_empty s = false <-> s <> EmptyString.
Proof. destruct s; simpl; split; congruence. Qed.

Lemma append_nil_r (s : string) : s ++ EmptyString = s.
Proof. induction s as [|c s IH]; simpl; [reflexivity | now rewrite IH]. Qed.

Lemma append_assoc (a b c : string) : (a ++ b) ++ c = a ++ b ++ c.
Proof. induction a as [|x a IH]; simpl; [reflexivity | now rewrite IH]. Qed.

Lemma append_length (a b : string) :
  String.length (a ++ b) = String.length a + String.length b.
Proof. induction a as [|x a IH]; simpl; [reflexivity | now rewrite IH]. Qed.

Lemma all_chars_app (p : ascii -> bool) (a b : string) :
  Js.all_chars p (a ++ b) = Js.all_chars p a && Js.all_chars p b.
Proof.
  induction a as [|x a IH]; simpl; [reflexivity|].
  now rewrite IH, andb_assoc.
Qed.

Lemma all_chars_impl (p q : ascii -> bool) (s : string) :
  (forall c, p c = true -> q c = true) ->
  Js.all_chars p s = true -> Js.all_chars q s = true.
Proof.
  intros Hpq. induction s as [|c s IH]; simpl; [reflexivity|].
  rewrite !andb_true_iff. intros [Hc Hs]. split; auto.
Qed.

(* ================================================================== *)
(** ** The matcher against its language *)
(* ================================================================== *)

Lemma m_atom_spec (p : ascii -> bool) (more : bool) (k : string -> option string) :
  forall (s : string) (lo : nat),
    Regex.m_atom p lo more k s <> None <->
    exists a b, s = a ++ b /\ in_atom p lo more a /\ k b <> None.
Proof.
  unfold in_atom.
  induction s as [|c s IH]; intros lo.
  - destruct lo as [|lo]; simpl.
    + split.
      * intros H. exists EmptyString, EmptyString. repeat split; auto.
        { destruct more; simpl; auto. }
        destruct more; exact H.
      * intros (a & b & E & _ & Hk).
        destruct a; [|discriminate]. simpl in E. subst b.
        destruct more; exact Hk.
    + split; [congruence|].
      intros (a & b & E & [_ Hl] & _).
      destruct a; [|discriminate]. simpl in Hl. destruct more; lia.
  - destruct lo as [|lo].
    + destruct more.
      * simpl. destruct (p c) eqn:Hc.
        -- split.
           ++ intros H.
              destruct (Regex.m_atom p 0 true k s) eqn:Hm.
              ** assert (Hn : Regex.m_atom p 0 true k s <> None) by congruence.
                 apply IH in Hn. destruct Hn as (a & b & E & [Ha Hl] & Hk).
                 exists (String c a), b. simpl. rewrite Hc, Ha, E.
                 repeat split; auto; try lia.
              ** exists EmptyString, (String c s). simpl. repeat split; auto.
           ++ intros (a & b & E & [Ha Hl] & Hk).
              destruct a as [|x a].
              ** simpl in E. subst b.
                 destruct (Regex.m_atom p 0 true k s); congruence.
              ** simpl in E. injection E as Ex Es. subst x.
                 simpl in Ha. apply andb_true_iff in Ha. destruct Ha as [_ Ha].
                 assert (Hn : Regex.m_atom p 0 true k s <> None).
                 { apply IH. exists a, b. repeat split; auto; try lia. }
                 destruct (Regex.m_atom p 0 true k s); congruence.
        -- split.
           ++ intros H. exists EmptyString, (String c s). simpl. repeat split; auto.
           ++ intros (a & b & E & [Ha Hl] & Hk).
              destruct a as [|x a].
              ** simpl in E. now subst b.
              ** simpl in E. injection E as Ex Es. subst x.
                 simpl in Ha. rewrite Hc in Ha. discriminate.
      * simpl. split.
        -- intros H. exists EmptyString, (String c s). simpl. repeat split; auto.
        -- intros (a & b & E & [Ha Hl] & Hk).
           destruct a; [|discriminate]. simpl in E. now subst b.
    + simpl. destruct (p c) eqn:Hc.
      * rewrite IH. split.
        -- intros (a & b & E & [Ha Hl] & Hk).
           exists (String c a), b. simpl. rewrite Hc, Ha, E. repeat split; auto.
           destruct more; lia.
        -- intros (a & b & E & [Ha Hl] & Hk).
           destruct a as [|x a].
           ++ simpl in Hl. destruct more; lia.
           ++ simpl in E. injection E as Ex Es. subst x.
              simpl in Ha. apply andb_true_iff in Ha. destruct Ha as [_ Ha].
              exists a, b. repeat split; auto.
              simpl in Hl. destruct more; lia.
      * split; [congruence|].
        intros (a & b & E & [Ha Hl] & _).
        destruct a as [|x a].
        -- simpl in Hl. destruct more; lia.
        -- simpl in E. injection E as Ex Es. subst x.
           simpl in Ha. rewrite Hc in Ha. discriminate.
Qed.

Lemma at_end_spec (s : string) : Regex.at_end s <> None <-> s = EmptyString.
Proof. destruct s; simpl; split; congruence. Qed.

Lemma test_anchored_true (r : Regex.regex) (s : string) :
  Regex.test_anchored r s = true <-> Regex.m_seq r Regex.at_end s <> None.
Proof.
  unfold Regex.test_anchored.
  destruct (Regex.m_seq r Regex.at_end s); split; congruence.
Qed.

Lemma m_seq_spec (k : string -> option string) (K : string -> Prop) :
  (forall s, k s <> None <-> K s) ->
  forall (r : Regex.regex) (s : string),
    Regex.m_seq r k s <> None <-> in_seq r K s.
Proof.
  intros HK. induction r as [|a r IH]; intros s; simpl.
  - apply HK.
  - rewrite m_atom_spec. split.
    + intros (x & rest & E & Hx & Hk). exists x, rest. rewrite <- IH. auto.
    + intros (x & rest & E & Hx & Hk). exists x, rest. rewrite IH. auto.
Qed.

Lemma test_anchored_spec (r : Regex.regex) (s : string) :
  Regex.test_anchored r s = true <-> in_seq r (fun t => t = EmptyString) s.
Proof.
  rewrite test_anchored_true. apply m_seq_spec. apply at_end_spec.
Qed.

(** *** What the items of the local-part rules accept *)

Lemma in_atom_plus_word (x : string) :
  in_atom Js.is_lower 1 true x <-> is_word x = true.
Proof.
  unfold in_atom, is_word. rewrite andb_true_iff, negb_true_iff, is_empty_false.
  destruct x; simpl; split; intros [H1 H2]; split; auto; try congruence; lia.
Qed.

Lemma in_atom_one_letter (x : string) :
  in_atom Js.is_lower 1 false x <-> is_single_letter x = true.
Proof.
  unfold in_atom, is_single_letter.
  destruct x as [|c [|d x]]; simpl.
  - split; [intros [_ H]; discriminate | discriminate].
  - rewrite andb_true_r. split; [intros [H _]; exact H | intros H; split; auto].
  - split; [intros [_ H]; discriminate | discriminate].
Qed.

Lemma in_atom_chr (a : ascii) (x : string) :
  in_atom (Regex.chr a) 1 false x <-> x = String a EmptyString.
Proof.
  unfold in_atom, Regex.chr.
  destruct x as [|c [|d x]]; simpl.
  - split; [intros [_ H]; discriminate | discriminate].
  - rewrite andb_true_r, Ascii.eqb_eq. split.
    + intros [H _]. now subst.
    + intros H. injection H as ->. auto.
  - split; [intros [_ H]; discriminate | discriminate].
Qed.

(** *** [split] on one separator *)

Lemma split_not_nil (sep : ascii) (s : string) : Js.split sep s <> [].
Proof.
  destruct s as [|c s]; simpl; [discriminate|].
  destruct (Ascii.eqb c sep); [discriminate|].
  destruct (Js.split sep s); discriminate.
Qed.

Lemma split_free (sep : ascii) (a : string) :
  free_of sep a = true -> Js.split sep a = [a].
Proof.
  unfold free_of. induction a as [|c a IH]; simpl; [reflexivity|].
  rewrite andb_true_iff, negb_true_iff. intros [Hc Ha].
  rewrite Hc, (IH Ha). reflexivity.
Qed.

Lemma split_app (sep : ascii) (a b : string) :
  free_of sep a = true ->
  Js.split sep (a ++ String sep b) = a :: Js.split sep b.
Proof.
  unfold free_of. induction a as [|c a IH]; simpl.
  - intros _. now rewrite Ascii.eqb_refl.
  - rewrite andb_true_iff, negb_true_iff. intros [Hc Ha].
    rewrite Hc, (IH Ha). reflexivity.
Qed.

Lemma split_cons_inv (sep : ascii) :
  forall (s x : string) (xs : list string),
    Js.split sep s = x :: xs ->
    free_of sep x = true /\
    ((xs = [] /\ s = x) \/
     (exists rest, s = x ++ String sep rest /\ Js.split sep rest = xs)).
Proof.
  unfold free_of.
  induction s as [|c s IH]; intros x xs; simpl.
  - intros H. injection H as <- <-. split; auto.
  - destruct (Ascii.eqb c sep) eqn:Hc.
    + intros H. injection H as <- <-. split; [reflexivity|].
      right. exists s. apply Ascii.eqb_eq in Hc. subst. auto.
    + destruct (Js.split sep s) as [|y ys] eqn:Hs.
      * now apply split_not_nil in Hs.
      * intros H. injection H as <- <-.
        destruct (IH y ys eq_refl) as [Hy Hcases].
        split; [simpl; now rewrite Hc, Hy|].
        destruct Hcases as [[-> ->] | (rest & -> & Hr)]; [left; auto|].
        right. exists rest. auto.
Qed.

Lemma dotted_spec (P Q : string -> bool) (s : string) :
  dotted P Q s = true <->
  exists a b, s = a ++ "." ++ b /\
              free_of "." a = true /\ free_of "." b = true /\
              P a = true /\ Q b = true.
Proof.
  unfold dotted. split.
  - destruct (Js.split "." s) as [|a [|b [|c l]]] eqn:Hs; try discriminate.
    rewrite andb_true_iff. intros [HP HQ].
    apply split_cons_inv in Hs. destruct Hs as [Ha [[Hx _] | (rest & -> & Hr)]];
      [discriminate|].
    apply split_cons_inv in Hr. destruct Hr as [Hb [[_ ->] | (rest' & _ & Hr')]].
    + exists a, b. auto.
    + now apply split_not_nil in Hr'.
  - intros (a & b & -> & Ha & Hb & HP & HQ).
    simpl. rewrite (split_app "." a b Ha), (split_free "." b Hb).
    now rewrite HP, HQ.
Qed.

Lemma lower_not_dot (c : ascii) : Js.is_lower c = true -> negb (Ascii.eqb c ".") = true.
Proof.
  intros H. destruct (Ascii.eqb c ".") eqn:E; [|reflexivity].
  apply Ascii.eqb_eq in E. subst c. discriminate.
Qed.

Lemma word_free_of_dot (s : string) : is_word s = true -> free_of "." s = true.
Proof.
  unfold is_word, free_of. rewrite andb_true_iff. intros [_ H].
  eapply all_chars_impl; [|exact H]. apply lower_not_dot.
Qed.

Lemma single_letter_word (s : string) : is_single_letter s = true -> is_word s = true.
Proof.
  destruct s as [|c [|d s]]; simpl; try discriminate.
  intros H. unfold is_word. simpl. now rewrite H.
Qed.

(** A dotted pair of words, as a decomposition. *)
Lemma dotted_words_spec (P Q : string -> bool) (s : string) :
  (forall x, P x = true -> is_word x = true) ->
  (forall x, Q x = true -> is_word x = true) ->
  dotted P Q s = true <->
  exists a b, s = a ++ "." ++ b /\ P a = true /\ Q b = true.
Proof.
  intros HP HQ. rewrite dotted_spec. split.
  - intros (a & b & E & _ & _ & Ha & Hb). eauto.
  - intros (a & b & E & Ha & Hb). exists a, b.
    repeat split; auto using word_free_of_dot.
Qed.

(* ================================================================== *)
(** ** The built-ins and the matcher on small inputs *)
(* ================================================================== *)

Example trim_both_ends :
  Js.trim (String (ascii_of_N 9) "  acme.io / x " ++ String (ascii_of_N 160) "") = "acme.io / x".
Proof. reflexivity. Qed.

Example split_keeps_empty_pieces :
  Js.split "/" "/in/jordan-lee/" = [""; "in"; "jordan-lee"; ""].
Proof. reflexivity. Qed.

Example split_runs_on_separators :
  Js.split_runs slug_sep false "-jordan--lee_ceo " = [""; "jordan"; "lee"; "ceo"; ""].
Proof. reflexivity. Qed.

Example tokenize_slug :
  tokenize "Jordan.Lee-CEO_2024" = ["jordan"; "lee"; "ceo"; "2024"].
Proof. reflexivity. Qed.

(** The host part is matched greedily and then gives characters back until
    a dot followed by two letters is found; the scan resumes after the
    match. *)
Example email_regex_backtracks :
  Regex.match_all EMAIL_REGEX "To: Jordan.Lee@Acme.io, a@b.com.1@x.yz; x@y.z <foo@bar.c0m>"
  = ["Jordan.Lee@Acme.io"; "a@b.com"; ".1@x.yz"].
Proof. reflexivity. Qed.

Example businessEmails_on_domain :
  businessEmails "acme.io" "Jordan.Lee@ACME.io, bob@notacme.io, eve@acme.io.uk, al@www.acme.io"
  = ["jordan.lee@acme.io"].
Proof. reflexivity. Qed.

Example discovery_urls :
  buildDiscoveryUrls "acme.io"
  = [ "https://acme.io"; "https://www.acme.io"; "http://acme.io"; "http://www.acme.io";
      "https://acme.io/contact"; "https://acme.io/team"; "https://acme.io/about" ].
Proof. reflexivity. Qed.

Example url_parse_profile :
  url_parse "https://WWW.LinkedIn.com/in/jordan-lee/?trk=x#top"
  = Some {| hostname := "www.linkedin.com"; pathname := "/in/jordan-lee/" |}.
Proof. reflexivity. Qed.

Example url_parse_needs_scheme : url_parse "httpbin.org" = None.
Proof. reflexivity. Qed.

(** *** The five regular expressions of [inferPattern] *)

Lemma is_word_app (a b : string) :
  is_word a = true -> is_word b = true -> is_word (a ++ b) = true.
Proof.
  unfold is_word. rewrite !andb_true_iff, !negb_true_iff, !is_empty_false.
  intros [Na Ha] [Nb Hb]. rewrite all_chars_app, Ha, Hb. split; auto.
  destruct a; [congruence | discriminate].
Qed.

Lemma re_first_last_test (s : string) :
  Regex.test_anchored re_first_last s = dotted is_word is_word s.
Proof.
  apply eq_true_iff_eq.
  rewrite test_anchored_spec, dotted_words_spec by auto. simpl. split.
  - intros (x & r1 & -> & Hx & y & r2 & -> & Hy & z & r3 & -> & Hz & ->).
    apply in_atom_chr in Hy. subst y. rewrite append_nil_r.
    exists x, z. rewrite <- !in_atom_plus_word. auto.
  - intros (a & b & -> & Ha & Hb).
    exists a, ("." ++ b). repeat split; try (apply in_atom_plus_word; assumption).
    exists ".", b. repeat split.
    exists b, EmptyString. rewrite append_nil_r.
    repeat split; auto; apply in_atom_plus_word; assumption.
Qed.

Lemma re_firstinitial_last_test (s : string) :
  Regex.test_anchored re_firstinitial_last s = dotted is_single_letter is_word s.
Proof.
  apply eq_true_iff_eq.
  rewrite test_anchored_spec, dotted_words_spec by auto using single_letter_word.
  simpl. split.
  - intros (x & r1 & -> & Hx & y & r2 & -> & Hy & z & r3 & -> & Hz & ->).
    apply in_atom_chr in Hy. subst y. rewrite append_nil_r.
    exists x, z. rewrite <- in_atom_plus_word, <- in_atom_one_letter. auto.
  - intros (a & b & -> & Ha & Hb).
    exists a, ("." ++ b). repeat split; try (apply in_atom_one_letter; assumption).
    exists ".", b. repeat split.
    exists b, EmptyString. rewrite append_nil_r.
    repeat split; auto; apply in_atom_plus_word; assumption.
Qed.

Lemma re_first_lastinitial_test (s : string) :
  Regex.test_anchored re_first_lastinitial s = dotted is_word is_single_letter s.
Proof.
  apply eq_true_iff_eq.
  rewrite test_anchored_spec, dotted_words_spec by auto using single_letter_word.
  simpl. split.
  - intros (x & r1 & -> & Hx & y & r2 & -> & Hy & z & r3 & -> & Hz & ->).
    apply in_atom_chr in Hy. subst y. rewrite append_nil_r.
    exists x, z. rewrite <- in_atom_plus_word, <- in_atom_one_letter. auto.
  - intros (a & b & -> & Ha & Hb).
    exists a, ("." ++ b). repeat split; try (apply in_atom_plus_word; assumption).
    exists ".", b. repeat split.
    exists b, EmptyString. rewrite append_nil_r.
    repeat split; auto; apply in_atom_one_letter; assumption.
Qed.

Lemma re_first_test (s : string) :
  Regex.test_anchored re_first s = is_word s.
Proof.
  apply eq_true_iff_eq. rewrite test_anchored_spec. simpl. split.
  - intros (x & r & -> & Hx & ->). rewrite append_nil_r.
    now apply in_atom_plus_word.
  - intros H. exists s, EmptyString. rewrite append_nil_r.
    repeat split; auto; apply in_atom_plus_word; assumption.
Qed.

Lemma re_firstlast_test (s : string) :
  Regex.test_anchored re_firstlast s = is_word s && (2 <=? String.length s)%nat.
Proof.
  apply eq_true_iff_eq. rewrite test_anchored_spec, andb_true_iff, Nat.leb_le.
  simpl. split.
  - intros (x & r1 & -> & Hx & y & r2 & -> & Hy & ->).
    rewrite append_nil_r. apply in_atom_plus_word in Hx, Hy. split.
    + now apply is_word_app.
    + rewrite append_length.
      destruct x; [discriminate|]. destruct y; [discriminate|]. simpl. lia.
  - intros [Hw Hl].
    destruct s as [|c [|d s]]; simpl in Hl; try lia.
    unfold is_word in Hw. simpl in Hw. apply andb_true_iff in Hw.
    destruct Hw as [Hc Hs].
    exists (String c EmptyString), (String d s). repeat split.
    + simpl. now rewrite Hc.
    + simpl. lia.
    + exists (String d s), EmptyString. rewrite append_nil_r.
      repeat split; auto. simpl. lia.
Qed.

Lemma filter_letters_word (s : string) :
  Js.all_chars Js.is_lower s = true -> Js.filter_chars Js.is_letter s = s.
Proof.
  induction s as [|c s IH]; simpl; [reflexivity|].
  rewrite andb_true_iff. intros [Hc Hs].
  unfold Js.is_letter at 1. rewrite Hc. simpl. now rewrite IH.
Qed.

(** The guard of the second rule. *)
Lemma firstlast_guard (s : string) :
  Regex.test_anchored re_firstlast s
    && (4 <=? String.length (Js.filter_chars Js.is_letter s))%nat
  = is_word s && (4 <=? String.length s)%nat.
Proof.
  rewrite re_firstlast_test.
  destruct (is_word s) eqn:Hw; [|reflexivity].
  unfold is_word in Hw. apply andb_true_iff in Hw. destruct Hw as [_ Hw].
  rewrite (filter_letters_word s Hw), !andb_true_l.
  destruct (Nat.leb_spec 4 (String.length s)) as [H4|H4].
  - rewrite andb_true_r. apply Nat.leb_le. lia.
  - apply andb_false_r.
Qed.

Lemma inferPattern_rules (localPart : string) :
  inferPattern localPart = classify_by_rules localPart.
Proof.
  unfold inferPattern, classify_by_rules.
  rewrite firstlast_guard, re_first_last_test, re_firstinitial_last_test,
    re_first_lastinitial_test, re_first_test.
  destruct localPart; reflexivity.
Qed.

(** The first rule covers what the third and fourth describe. *)
Lemma dotted_weaken (P Q P' Q' : string -> bool) (s : string) :
  (forall x, P x = true -> P' x = true) ->
  (forall x, Q x = true -> Q' x = true) ->
  dotted P Q s = true -> dotted P' Q' s = true.
Proof.
  unfold dotted. intros HP HQ.
  destruct (Js.split "." s) as [|a [|b [|c l]]]; try discriminate.
  rewrite !andb_true_iff. intros [Ha Hb]. auto.
Qed.

Lemma inferPattern_initial_rules_shadowed (localPart : string) :
  inferPattern localPart <> Some FirstinitialLast /\
  inferPattern localPart <> Some FirstLastinitial.
Proof.
  rewrite inferPattern_rules. unfold classify_by_rules.
  destruct (dotted is_word is_word localPart) eqn:H1; [split; discriminate|].
  destruct (is_word localPart && (4 <=? String.length localPart)%nat);
    [split; discriminate|].
  destruct (dotted is_single_letter is_word localPart) eqn:H3.
  { apply (dotted_weaken _ _ is_word is_word) in H3;
      auto using single_letter_word. congruence. }
  destruct (dotted is_word is_single_letter localPart) eqn:H4.
  { apply (dotted_weaken _ _ is_word is_word) in H4;
      auto using single_letter_word. congruence. }
  destruct (is_word localPart); split; discriminate.
Qed.

(** C3.  The classification of a local part is the first of the five rules
    that applies, in the order: word.word gives first.last; a run of at
    least four letters gives firstlast; letter.word gives
    firstinitial.last; word.letter gives first.lastinitial; any other run
    of letters gives first, and such a run has one to three letters;
    anything else is not classified.  A word is a non-empty run of [a-z]. *)
Theorem C3_inferPattern_precedence :
  forall localPart : string,
    inferPattern localPart = classify_by_rules localPart /\
    (inferPattern localPart = Some First <->
       is_word localPart = true /\ 1 <= String.length localPart <= 3).
Proof.
  intros s. split; [apply inferPattern_rules|].
  rewrite inferPattern_rules. unfold classify_by_rules.
  destruct (dotted is_word is_word s) eqn:H1.
  { split; [discriminate|].
    intros [Hw _]. apply dotted_spec in H1.
    destruct H1 as (a & b & -> & _).
    apply word_free_of_dot in Hw. unfold free_of in Hw.
    rewrite all_chars_app in Hw. simpl in Hw.
    rewrite andb_false_r in Hw. discriminate. }
  destruct (dotted is_single_letter is_word s) eqn:H3.
  { apply (dotted_weaken _ _ is_word is_word) in H3;
      auto using single_letter_word. congruence. }
  destruct (dotted is_word is_single_letter s) eqn:H5.
  { apply (dotted_weaken _ _ is_word is_word) in H5;
      auto using single_letter_word. congruence. }
  destruct (is_word s) eqn:Hw; [|split; [discriminate | intros [? _]; discriminate]].
  rewrite andb_true_l.
  destruct (Nat.leb_spec 4 (String.length s)) as [H4|H4].
  - split; [discriminate | intros [_ ?]; lia].
  - split; [|reflexivity]. intros _. split; [reflexivity|].
    destruct s; [discriminate|]. simpl in *. lia.
Qed.

(* ================================================================== *)
(** ** Pattern scoring *)
(* ================================================================== *)

Lemma Pattern_eqb_eq (p q : Pattern) : Pattern_eqb p q = true <-> p = q.
Proof. destruct p, q; simpl; split; congruence. Qed.

Lemma Pattern_eq_dec (p q : Pattern) : {p = q} + {p <> q}.
Proof. decide equality. Defined.

Lemma Pattern_eqb_refl (p : Pattern) : Pattern_eqb p p = true.
Proof. now apply Pattern_eqb_eq. Qed.

Lemma Pattern_eqb_neq (p q : Pattern) : Pattern_eqb p q = false <-> p <> q.
Proof. destruct p, q; simpl; split; congruence. Qed.

Lemma weight_priority (p : Pattern) : or_num (PATTERN_PRIORITY p) 1 = pattern_weight p.
Proof. destruct p; reflexivity. Qed.

Lemma weight_pos (p : Pattern) : (0 < pattern_weight p)%Z.
Proof. destruct p; simpl; lia. Qed.

Lemma total_score_nonneg (emails : list string) (p : Pattern) :
  (0 <= total_score emails p)%Z.
Proof.
  induction emails as [|e es IH]; simpl; [lia|].
  pose proof (weight_pos p).
  destruct (classify e) as [q|]; [destruct (Pattern_eqb q p)|]; lia.
Qed.

Lemma total_score_app (a b : list string) (p : Pattern) :
  total_score (a ++ b) p = (total_score a p + total_score b p)%Z.
Proof. induction a as [|e a IH]; simpl; [reflexivity | rewrite IH; lia]. Qed.

Lemma total_score_pos (emails : list string) (p : Pattern) :
  (0 < total_score emails p)%Z <-> Exists (fun e => classify e = Some p) emails.
Proof.
  induction emails as [|e es IH]; simpl.
  - split; [lia | intros H; inversion H].
  - pose proof (weight_pos p). pose proof (total_score_nonneg es p).
    rewrite Exists_cons, <- IH.
    destruct (classify e) as [q|].
    + destruct (Pattern_eqb q p) eqn:E.
      * apply Pattern_eqb_eq in E. subst q. split; [auto | lia].
      * apply Pattern_eqb_neq in E. split; [intros; right; lia|].
        intros [Hq | Hp]; [congruence | lia].
    + split; [intros; right; lia|]. intros [Hq | Hp]; [congruence | lia].
Qed.

(** *** The score map *)

Lemma map_get_In (p : Pattern) (v : Z) (m : ScoreMap) :
  map_get p m = Some v -> In (p, v) m.
Proof.
  induction m as [|[q w] m IH]; simpl; [discriminate|].
  destruct (Pattern_eqb p q) eqn:E.
  - apply Pattern_eqb_eq in E. subst q. intros H. injection H as ->. auto.
  - auto.
Qed.

Lemma In_map_get (p : Pattern) (v : Z) (m : ScoreMap) :
  NoDup (keys m) -> In (p, v) m -> map_get p m = Some v.
Proof.
  unfold keys. induction m as [|[q w] m IH]; simpl; [contradiction|].
  intros Hnd [H | H].
  - injection H as -> ->. now rewrite Pattern_eqb_refl.
  - inversion Hnd as [|? ? Hq Hm]; subst.
    destruct (Pattern_eqb p q) eqn:E; [|auto].
    apply Pattern_eqb_eq in E. subst q.
    exfalso. apply Hq. change p with (fst (p, v)). now apply in_map.
Qed.

Lemma map_get_None (p : Pattern) (m : ScoreMap) :
  map_get p m = None <-> ~ In p (keys m).
Proof.
  unfold keys. induction m as [|[q w] m IH]; simpl; [tauto|].
  destruct (Pattern_eqb p q) eqn:E.
  - apply Pattern_eqb_eq in E. subst q. split; [discriminate | tauto].
  - apply Pattern_eqb_neq in E. rewrite IH. split; [intros H [?|?]; auto | tauto].
Qed.

Lemma map_get_set_same (p : Pattern) (v : Z) (m : ScoreMap) :
  map_get p (map_set p v m) = Some v.
Proof.
  induction m as [|[q w] m IH]; simpl.
  - now rewrite Pattern_eqb_refl.
  - destruct (Pattern_eqb p q) eqn:E; simpl; rewrite E; auto.
Qed.

Lemma map_get_set_other (p q : Pattern) (v : Z) (m : ScoreMap) :
  p <> q -> map_get q (map_set p v m) = map_get q m.
Proof.
  intros Hpq.
  assert (Hqp : Pattern_eqb q p = false) by (apply Pattern_eqb_neq; congruence).
  induction m as [|[r w] m IH]; simpl.
  - now rewrite Hqp.
  - destruct (Pattern_eqb p r) eqn:E; simpl.
    + apply Pattern_eqb_eq in E. subst r. now rewrite Hqp.
    + now rewrite IH.
Qed.

Lemma keys_set_old (p : Pattern) (v : Z) (m : ScoreMap) :
  In p (keys m) -> keys (map_set p v m) = keys m.
Proof.
  unfold keys. induction m as [|[q w] m IH]; simpl; [contradiction|].
  destruct (Pattern_eqb p q) eqn:E; simpl; [reflexivity|].
  apply Pattern_eqb_neq in E. intros [H | H]; [congruence|].
  now rewrite IH.
Qed.

Lemma keys_set_new (p : Pattern) (v : Z) (m : ScoreMap) :
  ~ In p (keys m) -> keys (map_set p v m) = (keys m ++ [p])%list.
Proof.
  unfold keys. induction m as [|[q w] m IH]; simpl; [reflexivity|].
  intros H. destruct (Pattern_eqb p q) eqn:E.
  - apply Pattern_eqb_eq in E. subst q. tauto.
  - simpl. rewrite IH; tauto.
Qed.

(** One turn of the first loop of [selectPattern]. *)
Lemma score_emails_snoc (emails : list string) (email : string) :
  forall m : ScoreMap,
    score_emails (emails ++ [email]) m =
    match classify email with
    | None => score_emails emails m
    | Some p =>
        let old := match map_get p (score_emails emails m) with
                   | Some v => v
                   | None => 0%Z
                   end in
        map_set p (old + pattern_weight p)%Z (score_emails emails m)
    end.
Proof.
  unfold classify.
  induction emails as [|e es IH]; intros m; simpl.
  - destruct (inferPattern (local_of email)) as [p|]; [|reflexivity].
    rewrite weight_priority.
    destruct (map_get p m) as [v|]; [|reflexivity].
    unfold or_num. destruct (Z.eqb_spec v 0); subst; reflexivity.
  - destruct (inferPattern (local_of e)); apply IH.
Qed.

Lemma scores_get (emails : list string) (p : Pattern) :
  map_get p (score_emails emails []) =
  if (0 <? total_score emails p)%Z then Some (total_score emails p) else None.
Proof.
  induction emails as [|e es IH] using rev_ind; [reflexivity|].
  rewrite score_emails_snoc, total_score_app. simpl total_score.
  pose proof (total_score_nonneg es p) as Hnn. pose proof (weight_pos p) as Hw.
  destruct (classify e) as [q|].
  - destruct (Pattern_eqb q p) eqn:E.
    + apply Pattern_eqb_eq in E. subst q. cbv zeta.
      rewrite map_get_set_same, IH.
      destruct (Z.ltb_spec 0 (total_score es p));
        destruct (Z.ltb_spec 0 (total_score es p + (pattern_weight p + 0)));
        try lia; f_equal; lia.
    + apply Pattern_eqb_neq in E. cbv zeta.
      rewrite map_get_set_other by assumption. rewrite IH.
      replace (total_score es p + (0 + 0))%Z with (total_score es p) by lia.
      reflexivity.
  - replace (total_score es p + (0 + 0))%Z with (total_score es p) by lia.
    exact IH.
Qed.

Lemma scores_NoDup (emails : list string) : NoDup (keys (score_emails emails [])).
Proof.
  induction emails as [|e es IH] using rev_ind; [constructor|].
  rewrite score_emails_snoc.
  destruct (classify e) as [q|]; [|exact IH]. cbv zeta.
  destruct (in_dec Pattern_eq_dec q (keys (score_emails es []))) as [Hin | Hnin].
  - now rewrite keys_set_old.
  - rewrite keys_set_new by assumption.
    apply (Permutation_NoDup (Permutation_cons_append _ _)).
    now constructor.
Qed.

Lemma scores_key_met (emails : list string) (p : Pattern) :
  In p (keys (score_emails emails [])) <->
  Exists (fun e => classify e = Some p) emails.
Proof.
  rewrite <- total_score_pos.
  pose proof (scores_get emails p) as Hg.
  destruct (Z.ltb_spec 0 (total_score emails p)) as [Hpos | Hle].
  - split; auto. intros _.
    apply map_get_In in Hg. unfold keys.
    change p with (fst (p, total_score emails p)). now apply in_map.
  - split; [|lia]. intros Hin. apply map_get_None in Hg. contradiction.
Qed.

Lemma met_before_snoc (emails : list string) (e : string) (p q : Pattern) :
  met_before emails p q -> met_before (emails ++ [e]) p q.
Proof.
  intros (pre & e0 & post & -> & Hp & Hq).
  exists pre, e0, (post ++ [e])%list. rewrite <- app_assoc. auto.
Qed.

(** The keys of the score map are in the order in which the patterns were
    first met. *)
Lemma scores_order (emails : list string) :
  forall (k1 k2 : list Pattern) (p q : Pattern),
    keys (score_emails emails []) = (k1 ++ p :: k2)%list ->
    In q k2 -> met_before emails p q.
Proof.
  induction emails as [|e es IH] using rev_ind; intros k1 k2 p q Hk Hq.
  - destruct k1; discriminate.
  - rewrite score_emails_snoc in Hk.
    destruct (classify e) as [r|] eqn:Hr; [|apply met_before_snoc; eauto].
    cbv zeta in Hk.
    destruct (in_dec Pattern_eq_dec r (keys (score_emails es []))) as [Hin | Hnin].
    + rewrite keys_set_old in Hk by assumption.
      apply met_before_snoc; eauto.
    + rewrite keys_set_new in Hk by assumption.
      destruct (exists_last (l := k2)) as (k2' & x & ->).
      { intros ->. contradiction. }
      change (k1 ++ p :: k2' ++ [x])%list with (k1 ++ (p :: k2') ++ [x])%list in Hk.
      rewrite app_assoc in Hk. apply app_inj_tail in Hk. destruct Hk as [Hk <-].
      apply in_app_or in Hq. destruct Hq as [Hq | [<- | []]].
      * apply met_before_snoc; eauto.
      * assert (Hp : In p (keys (score_emails es []))).
        { rewrite Hk. apply in_or_app. right. now left. }
        apply scores_key_met in Hp. apply Exists_exists in Hp.
        destruct Hp as (e0 & He0 & Hc0).
        apply in_split in He0. destruct He0 as (pre & post & ->).
        exists pre, e0, (post ++ [e])%list. rewrite <- app_assoc. simpl.
        repeat split; auto.
        apply Forall_forall. intros e1 He1 Hc1.
        apply Hnin. apply scores_key_met. apply Exists_exists.
        exists e1. split; [|assumption]. apply in_or_app. now left.
Qed.

(** The second loop keeps the first entry that holds the maximum. *)
Lemma pick_best_running (m : ScoreMap) :
  forall (p0 : Pattern) (s0 : Z),
    (pick_best m (Some p0) (Some s0) = Some p0 /\
     forall q w, In (q, w) m -> (w <= s0)%Z)
    \/
    (exists pre p v post,
        m = (pre ++ (p, v) :: post)%list /\
        pick_best m (Some p0) (Some s0) = Some p /\
        (s0 < v)%Z /\
        (forall q w, In (q, w) pre -> (w < v)%Z) /\
        (forall q w, In (q, w) post -> (w <= v)%Z)).
Proof.
  induction m as [|[r x] m IH]; intros p0 s0; simpl.
  - left. split; [reflexivity | contradiction].
  - destruct (Z.ltb_spec s0 x) as [Hlt | Hge].
    + right. destruct (IH r x) as [[Hres Hall] | (pre & p & v & post & -> & Hres & Hv & Hpre & Hpost)].
      * exists [], r, x, m. repeat split; auto. contradiction.
      * exists ((r, x) :: pre), p, v, post. repeat split; auto; try lia.
        intros q w [H | H]; [injection H as <- <-; lia | eauto].
    + destruct (IH p0 s0) as [[Hres Hall] | (pre & p & v & post & -> & Hres & Hv & Hpre & Hpost)].
      * left. split; auto. intros q w [H | H]; [injection H as <- <-; lia | eauto].
      * right. exists ((r, x) :: pre), p, v, post. repeat split; auto.
        intros q w [H | H]; [injection H as <- <-; lia | eauto].
Qed.

Lemma pick_best_first_max (m : ScoreMap) :
  m <> [] ->
  exists pre p v post,
    m = (pre ++ (p, v) :: post)%list /\
    pick_best m None None = Some p /\
    (forall q w, In (q, w) pre -> (w < v)%Z) /\
    (forall q w, In (q, w) post -> (w <= v)%Z).
Proof.
  destruct m as [|[r x] m]; [congruence|]. intros _. simpl.
  destruct (pick_best_running m r x)
    as [[Hres Hall] | (pre & p & v & post & -> & Hres & Hv & Hpre & Hpost)].
  - exists [], r, x, m. repeat split; auto. contradiction.
  - exists ((r, x) :: pre), p, v, post. repeat split; auto.
    intros q w [H | H]; [injection H as <- <-; lia | eauto].
Qed.

Lemma selectPattern_none (emails : list string) :
  Forall (fun e => classify e = None) emails -> selectPattern emails = None.
Proof.
  intros H. unfold selectPattern.
  assert (E : score_emails emails [] = []).
  { induction emails as [|e es IH] using rev_ind; [reflexivity|].
    apply Forall_app in H. destruct H as [Hes He]. inversion He; subst.
    rewrite score_emails_snoc. now rewrite H1, IH. }
  now rewrite E.
Qed.

Lemma selectPattern_first_max (emails : list string) :
  Exists (fun e => classify e <> None) emails ->
  exists p,
    selectPattern emails = Some p /\
    (0 < total_score emails p)%Z /\
    (forall q, (total_score emails q <= total_score emails p)%Z) /\
    (forall q, q <> p -> total_score emails q = total_score emails p ->
               met_before emails p q).
Proof.
  intros Hex. unfold selectPattern.
  pose proof (scores_NoDup emails) as Hnd.
  assert (Hne : score_emails emails [] <> []).
  { apply Exists_exists in Hex. destruct Hex as (e & He & Hc).
    destruct (classify e) as [r|] eqn:Hr; [|congruence].
    assert (Hin : In r (keys (score_emails emails []))).
    { apply scores_key_met. apply Exists_exists. eauto. }
    intros E. rewrite E in Hin. exact Hin. }
  destruct (pick_best_first_max _ Hne) as (pre & p & v & post & Hm & Hres & Hpre & Hpost).
  assert (Hv : map_get p (score_emails emails []) = Some v).
  { apply In_map_get; [assumption|]. rewrite Hm. apply in_or_app. right. now left. }
  rewrite scores_get in Hv.
  destruct (Z.ltb_spec 0 (total_score emails p)) as [Hpos|]; [|discriminate].
  injection Hv as Hv.
  assert (Hwhere : forall q, (0 < total_score emails q)%Z ->
            In (q, total_score emails q) pre \/ q = p \/
            In (q, total_score emails q) post).
  { intros q Hq. pose proof (scores_get emails q) as Hg.
    destruct (Z.ltb_spec 0 (total_score emails q)); [|lia].
    apply map_get_In in Hg. rewrite Hm in Hg.
    apply in_app_or in Hg. destruct Hg as [Hg | [Hg | Hg]]; auto.
    injection Hg as -> _. auto. }
  exists p. repeat split; auto.
  - intros q. pose proof (total_score_nonneg emails q).
    destruct (Z.ltb_spec 0 (total_score emails q)) as [Hq|]; [|lia].
    destruct (Hwhere q Hq) as [H1 | [-> | H1]]; [apply Hpre in H1 | | apply Hpost in H1]; lia.
  - intros q Hqp Heq.
    assert (Hq : (0 < total_score emails q)%Z) by lia.
    destruct (Hwhere q Hq) as [H1 | [-> | H1]]; [apply Hpre in H1; lia | congruence |].
    apply (scores_order emails (keys pre) (keys post) p q).
    + rewrite Hm. unfold keys. now rewrite map_app.
    + unfold keys. change q with (fst (q, total_score emails q)). now apply in_map.
Qed.

Lemma total_score_single (emails : list string) (r q : Pattern) :
  Forall (fun e => classify e = Some r) emails -> q <> r ->
  total_score emails q = 0%Z.
Proof.
  intros H Hq. induction H as [|e es He Hes IH]; simpl; [reflexivity|].
  rewrite He, IH.
  assert (E : Pattern_eqb r q = false) by (apply Pattern_eqb_neq; congruence).
  now rewrite E.
Qed.

(** A tie goes to the pattern that was met first in the list, also when the
    other pattern had its total complete earlier: below firstlast stands at
    20 after six addresses, first.last only after nine, and first.last is
    selected. *)
Example tie_goes_to_first_met :
  selectPattern
    [ "a.b@x.io"; "abcd@x.io"; "abcd@x.io"; "abcd@x.io"; "abcd@x.io"; "abcd@x.io";
      "a.b@x.io"; "a.b@x.io"; "a.b@x.io" ] = Some FirstLast.
Proof. reflexivity. Qed.

(** C4.  When at least one address of the list is classified, the selected
    pattern has the greatest total score, the total of a pattern being its
    weight (first.last 5, firstlast 4, firstinitial.last 3,
    first.lastinitial 3, first 2) once per address classified into it; and a
    pattern with the same total was first met later in the list.  A list
    made only of jordan.lee@acme.io and sam.ray@acme.io selects first.last,
    and a page with these two addresses gives first.last with confidence
    high for the domain acme.io. *)
Theorem C4_selectPattern_highest_total :
  (forall emails : list string,
      Exists (fun e => classify e <> None) emails ->
      exists p,
        selectPattern emails = Some p /\
        (forall q, (total_score emails q <= total_score emails p)%Z) /\
        (forall q, q <> p -> total_score emails q = total_score emails p ->
                   met_before emails p q)) /\
  (forall emails : list string,
      emails <> [] ->
      Forall (fun e => e = "jordan.lee@acme.io" \/ e = "sam.ray@acme.io") emails ->
      selectPattern emails = Some FirstLast) /\
  discoverPattern unit
    (one_page "Write to jordan.lee@acme.io or to sam.ray@acme.io.") "acme.io" tt
  = (Discovery.Make (Some FirstLast) High "https://acme.io", tt).
Proof.
  split; [|split].
  - intros emails Hex.
    destruct (selectPattern_first_max emails Hex) as (p & Hs & _ & Hmax & Htie).
    exists p. auto.
  - intros emails Hne Hall.
    assert (Hfl : Forall (fun e => classify e = Some FirstLast) emails).
    { eapply Forall_impl; [|exact Hall]. intros e [-> | ->]; reflexivity. }
    assert (Hex : Exists (fun e => classify e <> None) emails).
    { destruct emails as [|e es]; [congruence|].
      inversion Hfl; subst. left. congruence. }
    destruct (selectPattern_first_max emails Hex) as (p & Hs & Hpos & _).
    destruct (Pattern_eq_dec p FirstLast) as [-> | Hp]; [assumption|].
    rewrite (total_score_single emails FirstLast p Hfl Hp) in Hpos. lia.
  - vm_compute. reflexivity.
Qed.

Lemma C4_selectPattern_highest_total_witness :
  let emails := ["info@acme.io"; "sam.ray@acme.io"; "sales@acme.io"; "x_1@acme.io"] in
  (exists p,
      selectPattern emails = Some p /\
      (forall q, (total_score emails q <= total_score emails p)%Z) /\
      (forall q, q <> p -> total_score emails q = total_score emails p ->
                 met_before emails p q)) /\
  selectPattern ["sam.ray@acme.io"; "jordan.lee@acme.io"; "sam.ray@acme.io"]
    = Some FirstLast.
Proof.
  intros emails. split.
  - apply (proj1 C4_selectPattern_highest_total emails).
    apply Exists_cons_hd. vm_compute. discriminate.
  - apply (proj1 (proj2 C4_selectPattern_highest_total)).
    + discriminate.
    + constructor; [right; reflexivity|].
      constructor; [left; reflexivity|].
      constructor; [right; reflexivity|]. constructor.
Defined.

(* ================================================================== *)
(** ** Domain resolver *)
(* ================================================================== *)

Lemma prefix_spec (p s : string) :
  prefix p s = true <-> exists rest, s = p ++ rest.
Proof.
  revert s. induction p as [|c p IH]; intros s.
  - split; [intros _; now exists s | intros _; destruct s; reflexivity].
  - destruct s as [|d s]; simpl.
    + split; [discriminate | intros [rest H]; discriminate].
    + destruct (ascii_dec c d) as [->|Hcd].
      * rewrite IH. split; intros [rest H]; exists rest; congruence.
      * split; [discriminate | intros [rest H]; congruence].
Qed.

Lemma slice_app (p rest : string) : Js.slice (String.length p) (p ++ rest) = rest.
Proof. induction p as [|c p IH]; simpl; auto. Qed.

Lemma strip_www_label (rest : string) : strip_www ("www." ++ rest) = rest.
Proof. destruct rest; reflexivity. Qed.

Lemma strip_www_other (host : string) :
  (forall rest, host <> "www." ++ rest) -> strip_www host = host.
Proof.
  intros H. unfold strip_www.
  destruct (prefix "www." host) eqn:E; [|reflexivity].
  apply prefix_spec in E. destruct E as [rest ->]. now destruct (H rest).
Qed.

Lemma trimStart_decomposition (s : string) :
  exists l, s = l ++ Js.trimStart s /\ Js.all_chars Js.is_space l = true.
Proof.
  induction s as [|c s (l & E & Hl)]; simpl.
  - exists EmptyString. auto.
  - destruct (Js.is_space c) eqn:Hc.
    + exists (String c l). simpl. rewrite Hc, Hl. split; [congruence | reflexivity].
    + exists EmptyString. auto.
Qed.

Lemma trimEnd_decomposition (s : string) :
  exists r, s = Js.trimEnd s ++ r /\ Js.all_chars Js.is_space r = true.
Proof.
  induction s as [|c s (r & E & Hr)]; simpl.
  - exists EmptyString. auto.
  - destruct (Js.trimEnd s) as [|d t] eqn:Ht.
    + simpl in E. subst r. destruct (Js.is_space c) eqn:Hc.
      * exists (String c s). simpl. rewrite Hc, Hr. auto.
      * exists s. auto.
    + exists r. simpl in *. split; [congruence | assumption].
Qed.

(** [trim] removes white space at both ends and nothing else. *)
Lemma trim_decomposition (s : string) :
  exists l r, s = l ++ Js.trim s ++ r /\
              Js.all_chars Js.is_space l = true /\
              Js.all_chars Js.is_space r = true.
Proof.
  destruct (trimStart_decomposition s) as (l & El & Hl).
  destruct (trimEnd_decomposition (Js.trimStart s)) as (r & Er & Hr).
  exists l, r. unfold Js.trim. rewrite <- Er. auto.
Qed.

Lemma trimStart_head (s : string) :
  match Js.trimStart s with
  | EmptyString => True
  | String c _ => Js.is_space c = false
  end.
Proof.
  induction s as [|c s IH]; simpl; [exact I|].
  destruct (Js.is_space c) eqn:Hc; [exact IH | exact Hc].
Qed.

Lemma trimEnd_head (s : string) :
  match s with
  | EmptyString => True
  | String c _ => Js.is_space c = false
  end ->
  match Js.trimEnd s with
  | EmptyString => s = EmptyString
  | String c _ => Js.is_space c = false
  end.
Proof.
  destruct s as [|c s]; simpl; [reflexivity|]. intros Hc.
  destruct (Js.trimEnd s); [now rewrite Hc | exact Hc].
Qed.

Lemma trimEnd_last (s : string) :
  forall t c, Js.trimEnd s = t ++ String c EmptyString -> Js.is_space c = false.
Proof.
  induction s as [|d s IH]; intros t c; simpl.
  - destruct t; discriminate.
  - destruct (Js.trimEnd s) as [|e u] eqn:Hu.
    + destruct (Js.is_space d) eqn:Hd.
      * destruct t; discriminate.
      * destruct t as [|x [|y t]]; simpl; try discriminate.
        intros H. injection H as <-. exact Hd.
    + destruct t as [|x t]; simpl; [discriminate|].
      intros H. injection H as _ H. eapply IH. exact H.
Qed.

(** The trimmed string neither starts nor ends with white space. *)
Lemma trim_ends (s : string) :
  (forall c t, Js.trim s = String c t -> Js.is_space c = false) /\
  (forall t c, Js.trim s = t ++ String c EmptyString -> Js.is_space c = false).
Proof.
  unfold Js.trim. split.
  - intros c t H. pose proof (trimEnd_head _ (trimStart_head s)) as Hh.
    rewrite H in Hh. exact Hh.
  - apply trimEnd_last.
Qed.

Lemma deriveDomain_as_guarded (parseURL : string -> option URL) (input : string) :
  deriveDomain parseURL input = deriveDomain_guarded parseURL input.
Proof.
  unfold deriveDomain, deriveDomain_guarded, deriveDomain_amended, strip_www,
    Js.startsWith.
  destruct input as [|c input]; [reflexivity|].
  cbn [Js.is_empty].
  destruct (Js.is_empty (Js.trim (String c input))); [reflexivity|].
  destruct (prefix "http" (Js.trim (String c input))); cbn [negb];
    (destruct (parseURL _) as [url|]; [|reflexivity]);
    destruct (prefix "www." (Js.toLowerCase (hostname url))); reflexivity.
Qed.

(** C1.  The resolver against the claim.  The claim puts [https://] in
    front of every trimmed input that starts with no URL scheme; the code
    tests for the four characters [http] instead.  On every non-empty input
    where the two tests give the same answer, the code returns what the
    claim says.  On a bare host name that begins with [http] they part: the
    code hands the bare string to the URL parser and answers null as soon as
    the parser rejects it, whatever the parser makes of the string with
    [https://] in front.  So for httpbin.org the code answers null where
    the claim resolves httpbin.org.  The three inputs acme.io,
    https://www.acme.io/x and http://acme.io all give acme.io. *)
Theorem C1_deriveDomain_bare_http_host :
  (forall (parseURL : string -> option URL) (input : string),
      Js.trim input <> EmptyString ->
      prefix "http" (Js.trim input) = has_scheme (Js.trim input) ->
      deriveDomain parseURL input = deriveDomain_claimed parseURL input) /\
  (forall (parseURL : string -> option URL) (input : string),
      prefix "http" (Js.trim input) = true ->
      parseURL (Js.trim input) = None ->
      deriveDomain parseURL input = None) /\
  (has_scheme "httpbin.org" = false /\
   deriveDomain url_parse "httpbin.org" = None /\
   deriveDomain_claimed url_parse "httpbin.org" = Some "httpbin.org") /\
  deriveDomain url_parse "acme.io" = Some "acme.io" /\
  deriveDomain url_parse "https://www.acme.io/x" = Some "acme.io" /\
  deriveDomain url_parse "http://acme.io" = Some "acme.io".
Proof.
  split; [|split; [|repeat split; reflexivity]].
  - intros parseURL input Hne Hsame.
    rewrite deriveDomain_as_guarded.
    unfold deriveDomain_guarded, deriveDomain_amended, deriveDomain_claimed.
    cbv zeta. rewrite Hsame.
    destruct (Js.trim input); [congruence | reflexivity].
  - intros parseURL input Hhttp Hbare.
    rewrite deriveDomain_as_guarded.
    unfold deriveDomain_guarded, deriveDomain_amended. cbv zeta.
    rewrite Hhttp, Hbare.
    destruct (Js.is_empty (Js.trim input)); reflexivity.
Qed.

Lemma C1_deriveDomain_bare_http_host_witness :
  deriveDomain url_parse " www.Acme.io/team " =
  deriveDomain_claimed url_parse " www.Acme.io/team " /\
  deriveDomain url_parse " httpbin.org " = None.
Proof.
  split.
  - apply (proj1 C1_deriveDomain_bare_http_host url_parse " www.Acme.io/team ").
    + discriminate.
    + reflexivity.
  - apply (proj1 (proj2 C1_deriveDomain_bare_http_host) url_parse " httpbin.org ");
      reflexivity.
Defined.

(* ================================================================== *)
(** ** Email synthesis *)
(* ================================================================== *)

Lemma letter_lower_char (c : ascii) :
  Js.is_letter c = true -> Js.is_lower (Js.lower_char c) = true.
Proof.
  destruct c as [[] [] [] [] [] [] [] []]; vm_compute; congruence.
Qed.

Lemma of_codes_letters (l : list N) :
  Js.all_chars Js.is_letter
    (Js.of_codes (filter (fun n => (n <? 256)%N && Js.is_letter (ascii_of_N n)) l)) = true.
Proof.
  induction l as [|n l IH]; simpl; [reflexivity|].
  destruct ((n <? 256)%N && Js.is_letter (ascii_of_N n)) eqn:E; [|exact IH].
  apply andb_true_iff in E. destruct E as [_ E]. simpl. now rewrite E, IH.
Qed.

Lemma toLowerCase_letters (s : string) :
  Js.all_chars Js.is_letter s = true ->
  Js.all_chars Js.is_lower (Js.toLowerCase s) = true.
Proof.
  unfold Js.toLowerCase.
  induction s as [|c s IH]; simpl; [reflexivity|].
  rewrite andb_true_iff. intros [Hc Hs].
  now rewrite (letter_lower_char c Hc), IH.
Qed.

(** A sanitized name is made of the letters a-z only. *)
Lemma sanitizePart_lower (value : option string) :
  Js.all_chars Js.is_lower (sanitizePart value) = true.
Proof.
  destruct value as [v|]; [|reflexivity]. unfold sanitizePart.
  destruct (Js.is_empty v); [reflexivity|].
  apply toLowerCase_letters, of_codes_letters.
Qed.

Lemma sanitizePart_accents :
  sanitizePart (Some (String (ascii_of_N 201) "ric O'Neil-Sm1th")) = "ericoneilsmth".
Proof. vm_compute. reflexivity. Qed.

Lemma append_empty (a b : string) : Js.is_empty (a ++ b) = Js.is_empty a && Js.is_empty b.
Proof. destruct a; reflexivity. Qed.

Lemma buildEmail_spec (contact : Contact.t) (domain : string) (pattern : Pattern) :
  buildEmail contact domain pattern =
  let first := sanitizePart (Some (Contact.firstName contact)) in
  let last := sanitizePart (Contact.lastName contact) in
  if negb (Js.is_empty first) && (negb (two_part pattern) || negb (Js.is_empty last))
  then Some (local_template pattern first last ++ "@" ++ domain)
  else None.
Proof.
  unfold buildEmail. cbv zeta.
  destruct (sanitizePart (Some (Contact.firstName contact))) as [|c f] eqn:Hf;
    [reflexivity|].
  cbn [Js.is_empty negb andb].
  destruct pattern; cbn [applyPattern two_part negb orb local_template];
    destruct (sanitizePart (Contact.lastName contact)) as [|d l]; reflexivity.
Qed.


(* ================================================================== *)
(** ** Fallback pattern and confidence *)
(* ================================================================== *)

Lemma no_lastName_lacks (contact : Contact.t) :
  no_lastName contact = lacks_last_name contact.
Proof.
  unfold no_lastName, lacks_last_name.
  destruct (Contact.lastName contact) as [[|c l]|]; reflexivity.
Qed.

Lemma downgrade_one_tier (level : Confidence) : downgrade level = one_tier_down level.
Proof. destruct level; reflexivity. Qed.

Lemma chooseFallbackPattern_spec (contact : Contact.t) :
  chooseFallbackPattern contact =
  Some (if lacks_last_name contact then First else FirstLast).
Proof.
  unfold chooseFallbackPattern. rewrite no_lastName_lacks.
  destruct (lacks_last_name contact); reflexivity.
Qed.

Lemma adjustConfidence_spec (base : Confidence) (pattern : Pattern) (contact : Contact.t) :
  adjustConfidence base pattern contact =
  if lacks_last_name contact || negb (two_part pattern)
  then one_tier_down base else base.
Proof.
  unfold adjustConfidence. rewrite no_lastName_lacks, downgrade_one_tier.
  destruct pattern; reflexivity.
Qed.

Lemma emit_row_facts
      (company domain : string) (found : Discovery.t) (contact : Contact.t)
      (row : Result.t) :
  emit company domain found contact = Some row ->
  buildEmail contact domain (applied_pattern (Discovery.pattern found) contact)
    = Some (Result.email row) /\
  Result.confidence row =
    (if lacks_last_name contact
        || negb (two_part (applied_pattern (Discovery.pattern found) contact))
     then one_tier_down (Discovery.confidence found)
     else Discovery.confidence found).
Proof.
  unfold emit, applied_pattern.
  rewrite chooseFallbackPattern_spec.
  destruct (Discovery.pattern found) as [p|].
  - destruct (buildEmail contact domain p) as [email|]; [|discriminate].
    destruct (Js.is_empty email); [discriminate|].
    intros H. injection H as <-. cbn [Result.email Result.confidence].
    rewrite adjustConfidence_spec. auto.
  - destruct (buildEmail contact domain _) as [email|]; [|discriminate].
    destruct (Js.is_empty email); [discriminate|].
    intros H. injection H as <-. cbn [Result.email Result.confidence].
    rewrite adjustConfidence_spec. auto.
Qed.

Lemma buildEmail_nonempty (contact : Contact.t) (domain : string) (pattern : Pattern)
      (email : string) :
  buildEmail contact domain pattern = Some email -> Js.is_empty email = false.
Proof.
  rewrite buildEmail_spec. cbv zeta.
  destruct (negb _ && _); [|discriminate].
  intros H. injection H as <-.
  destruct (local_template pattern _ _); reflexivity.
Qed.

Lemma emit_as_applied
      (company domain : string) (found : Discovery.t) (contact : Contact.t) :
  emit company domain found contact =
  match buildEmail contact domain (applied_pattern (Discovery.pattern found) contact) with
  | None => None
  | Some email =>
      Some (Result.Make
              (Contact.fullName contact)
              (Contact.role contact)
              (if negb (Js.is_empty company) then company
               else if negb (Js.is_empty (Contact.company contact))
                    then Contact.company contact
                    else "Unknown company")
              email
              (if lacks_last_name contact
                  || negb (two_part (applied_pattern (Discovery.pattern found) contact))
               then one_tier_down (Discovery.confidence found)
               else Discovery.confidence found)
              (Js.join " | "
                 (Js.filter_nonempty [Contact.source contact; Discovery.source found])))
  end.
Proof.
  unfold emit, applied_pattern. cbv zeta.
  rewrite chooseFallbackPattern_spec.
  destruct (Discovery.pattern found) as [p|].
  - destruct (buildEmail contact domain p) as [email|] eqn:E; [|reflexivity].
    rewrite (buildEmail_nonempty _ _ _ _ E), adjustConfidence_spec. reflexivity.
  - destruct (buildEmail contact domain _) as [email|] eqn:E; [|reflexivity].
    rewrite (buildEmail_nonempty _ _ _ _ E), adjustConfidence_spec. reflexivity.
Qed.

(** C8.  The fallback pattern of a contact is first when the contact has no
    last name and first.last otherwise, and it is the pattern the loop
    applies whenever discovery found none; with a discovered pattern the
    loop applies that one.  A row is pushed exactly when the address builds
    under the applied pattern: then the row carries that address, and its
    confidence is the discovery tier moved one tier down (high to medium,
    medium to low, low stays low) when the contact has no last name or the
    applied pattern is first, and the discovery tier unchanged otherwise;
    when the address does not build, no row is pushed. *)
Theorem C8_fallback_and_confidence :
  forall (company domain : string) (found : Discovery.t) (contact : Contact.t),
    let applied := applied_pattern (Discovery.pattern found) contact in
    let tier :=
      if lacks_last_name contact || negb (two_part applied)
      then one_tier_down (Discovery.confidence found)
      else Discovery.confidence found in
    chooseFallbackPattern contact =
      Some (if lacks_last_name contact then First else FirstLast) /\
    (forall email : string,
        buildEmail contact domain applied = Some email ->
        exists row : Result.t,
          emit company domain found contact = Some row /\
          Result.email row = email /\
          Result.confidence row = tier) /\
    (buildEmail contact domain applied = None ->
     emit company domain found contact = None) /\
    (forall row : Result.t,
        emit company domain found contact = Some row ->
        buildEmail contact domain applied = Some (Result.email row) /\
        Result.confidence row = tier).
Proof.
  intros company domain found contact applied tier. subst applied tier.
  split; [apply chooseFallbackPattern_spec|].
  rewrite emit_as_applied.
  destruct (buildEmail contact domain _) as [email|]; split; [| split | | split].
  - intros e He. injection He as <-. eexists. split; [reflexivity|].
    split; reflexivity.
  - discriminate.
  - intros row Hrow. injection Hrow as <-. split; reflexivity.
  - discriminate.
  - reflexivity.
  - discriminate.
Qed.

Lemma C8_fallback_and_confidence_witness :
  let madonna := Contact.Make "Madonna" None "Madonna" "Decision Maker" "Acme" "madonna" in
  let jordan := Contact.Make "Jordan" (Some "Lee") "Jordan Lee" "CEO" "Acme" "jordan-lee" in
  let none := Discovery.Make None Low "https://example-corp.com" in
  let guess := Discovery.Make None Medium "https://example-corp.com" in
  (exists row : Result.t,
      emit "Acme" "example-corp.com" none madonna = Some row /\
      Result.email row = "madonna@example-corp.com" /\
      Result.confidence row = Low) /\
  (exists row : Result.t,
      emit "Acme" "example-corp.com" guess jordan = Some row /\
      Result.email row = "jordan.lee@example-corp.com" /\
      Result.confidence row = Medium).
Proof.
  intros madonna jordan none guess. split.
  - destruct (C8_fallback_and_confidence "Acme" "example-corp.com" none madonna)
      as (_ & H & _).
    apply (H "madonna@example-corp.com"). reflexivity.
  - destruct (C8_fallback_and_confidence "Acme" "example-corp.com" guess jordan)
      as (_ & H & _).
    apply (H "jordan.lee@example-corp.com"). reflexivity.
Defined.

(* ================================================================== *)
(** ** Deduplication *)
(* ================================================================== *)

Lemma map_chars_app (f : ascii -> ascii) (a b : string) :
  Js.map_chars f (a ++ b) = Js.map_chars f a ++ Js.map_chars f b.
Proof. induction a as [|c a IH]; simpl; [reflexivity | now rewrite IH]. Qed.

Lemma lower_char_keeps (sep c : ascii) :
  Js.is_letter sep = false -> (Js.code sep <? 128)%N = true ->
  Ascii.eqb (Js.lower_char c) sep = Ascii.eqb c sep.
Proof.
  intros Hl Hs.
  destruct (Ascii.eqb c sep) eqn:E.
  - apply Ascii.eqb_eq in E. subst c.
    unfold Js.lower_char.
    assert (Hu : Js.is_upper sep = false).
    { unfold Js.is_letter in Hl. apply orb_false_iff in Hl. tauto. }
    rewrite Hu. simpl.
    assert (Hr : Js.in_range 192 222 sep = false).
    { unfold Js.in_range. apply N.ltb_lt in Hs.
      apply andb_false_iff. left. apply N.leb_gt. lia. }
    rewrite Hr. simpl. apply Ascii.eqb_refl.
  - apply Ascii.eqb_neq in E. apply Ascii.eqb_neq. intros H. apply E. subst sep.
    revert Hl Hs E. clear.
    destruct c as [[] [] [] [] [] [] [] []]; vm_compute; congruence.
Qed.

Lemma free_of_lower (sep : ascii) (s : string) :
  Js.is_letter sep = false -> (Js.code sep <? 128)%N = true ->
  free_of sep (Js.toLowerCase s) = free_of sep s.
Proof.
  intros Hl Hs. unfold free_of, Js.toLowerCase.
  induction s as [|c s IH]; simpl; [reflexivity|].
  now rewrite IH, lower_char_keeps.
Qed.

Lemma free_of_app (sep : ascii) (a b : string) :
  free_of sep (a ++ b) = free_of sep a && free_of sep b.
Proof. apply all_chars_app. Qed.

Lemma free_of_sep (sep : ascii) (a b : string) :
  free_of sep (a ++ String sep b) = false.
Proof.
  rewrite free_of_app. unfold free_of at 2. simpl.
  rewrite Ascii.eqb_refl. simpl. apply andb_false_r.
Qed.

(** A string splits in one way only at its last separator. *)
Lemma split_at_last (sep : ascii) :
  forall a a' b b' : string,
    a ++ String sep b = a' ++ String sep b' ->
    free_of sep b = true -> free_of sep b' = true ->
    a = a' /\ b = b'.
Proof.
  induction a as [|x a IH]; intros a' b b' E Hb Hb'.
  - destruct a' as [|y a']; simpl in E.
    + injection E as ->. auto.
    + injection E as <- ->. now rewrite free_of_sep in Hb.
  - destruct a' as [|y a']; simpl in E.
    + injection E as -> <-. now rewrite free_of_sep in Hb'.
    + injection E as <- E. destruct (IH a' b b' E Hb Hb') as [-> ->]. auto.
Qed.

Lemma address_shape_lower (email : string) :
  address_shape email -> address_shape (Js.toLowerCase email).
Proof.
  intros (l & d & -> & Hl & Hd).
  exists (Js.toLowerCase l), (Js.toLowerCase d). unfold Js.toLowerCase.
  rewrite map_chars_app. split; [reflexivity|].
  fold (Js.toLowerCase l). fold (Js.toLowerCase d).
  rewrite !free_of_lower by reflexivity. auto.
Qed.

(** On emitted rows the signature tells the pairs apart. *)
Lemma signature_same_pair (a b : Result.t) :
  emitted a -> emitted b ->
  String.eqb (signature a) (signature b) = same_pair a b.
Proof.
  unfold emitted, same_pair, signature. intros Ha Hb.
  apply address_shape_lower in Ha, Hb.
  destruct Ha as (la & da & Ea & Hla & Hda).
  destruct Hb as (lb & db & Eb & Hlb & Hdb).
  rewrite Ea, Eb.
  apply eq_true_iff_eq. rewrite andb_true_iff, !String.eqb_eq. split.
  - intros H.
    assert (G : forall c l d : string,
               c ++ "-" ++ l ++ "@" ++ d = (c ++ String "-" l) ++ String "@" d).
    { intros c l d. rewrite append_assoc. reflexivity. }
    rewrite !G in H.
    apply split_at_last in H; auto. destruct H as [H ->].
    apply split_at_last in H; auto. destruct H as [-> ->]. auto.
  - intros [-> ->]. reflexivity.
Qed.

Lemma existsb_middle {A : Type} (f : A -> bool) (l1 l2 : list A) (x : A) :
  existsb f (l1 ++ x :: l2) = f x || existsb f (l1 ++ l2).
Proof.
  rewrite !existsb_app. simpl.
  destruct (existsb f l1), (f x); reflexivity.
Qed.

Lemma dedup_from_snoc (earlier : list Result.t) (item : Result.t) :
  forall seen : list string,
    dedup_from seen (earlier ++ [item]) =
    (dedup_from seen earlier ++
     if existsb (String.eqb (signature item)) (map signature earlier ++ seen)
     then [] else [item])%list.
Proof.
  induction earlier as [|r rs IH]; intros seen; simpl.
  - destruct (existsb (String.eqb (signature item)) seen); reflexivity.
  - destruct (existsb (String.eqb (signature r)) seen) eqn:Hr.
    + rewrite IH.
      destruct (String.eqb (signature item) (signature r)) eqn:E; [|reflexivity].
      apply String.eqb_eq in E. rewrite E, existsb_app, Hr, orb_true_r. reflexivity.
    + simpl. rewrite IH, existsb_middle. reflexivity.
Qed.

Lemma existsb_signatures (item : Result.t) (earlier : list Result.t) :
  emitted item -> Forall emitted earlier ->
  existsb (String.eqb (signature item)) (map signature earlier) =
  existsb (same_pair item) earlier.
Proof.
  intros Hi H. induction H as [|r rs Hr Hrs IH]; simpl; [reflexivity|].
  now rewrite IH, signature_same_pair.
Qed.

Lemma dedup_from_subsequence (results : list Result.t) :
  forall seen, subsequence (dedup_from seen results) results.
Proof.
  induction results as [|r rs IH]; intros seen; simpl; [constructor|].
  destruct (existsb (String.eqb (signature r)) seen); constructor; apply IH.
Qed.

(** Without the shape of emitted addresses the signature can merge two
    different pairs: the hyphen that joins company and address may also occur
    in either. *)
Lemma signature_not_injective :
  let a := Result.Make "n" "r" "a-b" "c" Low "s" in
  let b := Result.Make "n" "r" "a" "b-c" Low "s" in
  same_pair a b = false /\ deduplicateResults [a; b] = [a].
Proof. split; reflexivity. Qed.

(** C2.  In a batch of emitted rows, a row is removed exactly when an
    earlier row of the batch has the same company and the same address,
    letter case apart; the rows before it are treated as if it were not
    there; and the rows that stay keep their order. *)
Theorem C2_deduplicate_first_occurrence :
  (forall (earlier : list Result.t) (item : Result.t),
      Forall emitted (earlier ++ [item])%list ->
      deduplicateResults (earlier ++ [item])%list =
      (deduplicateResults earlier ++
       if existsb (same_pair item) earlier then [] else [item])%list) /\
  (forall results : list Result.t,
      subsequence (deduplicateResults results) results).
Proof.
  split.
  - intros earlier item H. apply Forall_app in H. destruct H as [He Hi].
    inversion Hi; subst.
    unfold deduplicateResults. rewrite dedup_from_snoc, app_nil_r.
    now rewrite existsb_signatures.
  - intros results. apply dedup_from_subsequence.
Qed.

Lemma C2_deduplicate_first_occurrence_witness :
  let a := Result.Make "Jordan Lee" "CEO" "Acme" "jordan.lee@my-site.io" High "s1" in
  let b := Result.Make "Sam Ray" "CFO" "Acme" "sam.ray@my-site.io" High "s2" in
  let c := Result.Make "J. Lee" "Founder" "ACME" "Jordan.Lee@my-site.io" Low "s3" in
  deduplicateResults ([a; b] ++ [c])%list =
  (deduplicateResults [a; b] ++ if existsb (same_pair c) [a; b] then [] else [c])%list.
Proof.
  intros a b c.
  apply (proj1 C2_deduplicate_first_occurrence [a; b] c).
  repeat constructor.
  - exists "jordan.lee", "my-site.io". repeat split; reflexivity.
  - exists "sam.ray", "my-site.io". repeat split; reflexivity.
  - exists "Jordan.Lee", "my-site.io". repeat split; reflexivity.
Defined.

(* ================================================================== *)
(** ** Pattern discovery *)
(* ================================================================== *)

Lemma includes_nil (kw : string) : Js.includes kw EmptyString = prefix kw EmptyString.
Proof. unfold Js.includes. apply orb_false_r. Qed.

Lemma includes_cons (kw : string) (c : ascii) (s : string) :
  Js.includes kw (String c s) = prefix kw (String c s) || Js.includes kw s.
Proof. reflexivity. Qed.

Lemma includes_spec (kw s : string) : Js.includes kw s = true <-> contains kw s.
Proof.
  unfold contains. split.
  - induction s as [|c s IH].
    + rewrite includes_nil. intros H. apply prefix_spec in H.
      destruct H as [rest E]. exists EmptyString, rest. exact E.
    + rewrite includes_cons, orb_true_iff. intros [H | H].
      * apply prefix_spec in H. destruct H as [rest E].
        exists EmptyString, rest. exact E.
      * destruct (IH H) as (a & b & ->). exists (String c a), b. reflexivity.
  - intros (a & b & ->). induction a as [|c a IH].
    + assert (H : prefix kw (kw ++ b) = true) by (apply prefix_spec; eauto).
      cbn [append]. destruct (kw ++ b).
      * now rewrite includes_nil.
      * now rewrite includes_cons, H.
    + cbn [append]. rewrite includes_cons, IH. apply orb_true_r.
Qed.

Lemma existsb_includes (kws : list string) (domain : string) :
  existsb (fun keyword => Js.includes keyword domain) kws = true <->
  any_keyword kws domain.
Proof.
  unfold any_keyword. rewrite existsb_exists, Exists_exists.
  split; intros (kw & Hin & H); exists kw; split; auto; now apply includes_spec.
Qed.

Lemma guessPatternFromDomain_spec (domain : string) :
  (any_keyword ["io"; "tech"; "systems"; "labs"] domain ->
   guessPatternFromDomain domain = Some FirstLast) /\
  (~ any_keyword ["io"; "tech"; "systems"; "labs"] domain ->
   any_keyword ["finance"; "bank"; "capital"] domain ->
   guessPatternFromDomain domain = Some FirstinitialLast) /\
  (~ any_keyword ["io"; "tech"; "systems"; "labs"] domain ->
   ~ any_keyword ["finance"; "bank"; "capital"] domain ->
   any_keyword ["media"; "creative"; "studio"] domain ->
   guessPatternFromDomain domain = Some Firstlast) /\
  (~ any_keyword ["io"; "tech"; "systems"; "labs"] domain ->
   ~ any_keyword ["finance"; "bank"; "capital"] domain ->
   ~ any_keyword ["media"; "creative"; "studio"] domain ->
   guessPatternFromDomain domain = None).
Proof.
  unfold guessPatternFromDomain, hints. cbn [first_hint].
  rewrite <- !existsb_includes.
  destruct (existsb _ ["io"; "tech"; "systems"; "labs"]);
    destruct (existsb _ ["finance"; "bank"; "capital"]);
    destruct (existsb _ ["media"; "creative"; "studio"]);
    repeat split; congruence.
Qed.

Section Discovery_facts.

Variable World : Type.
Variable fetchHtml : string -> World -> option string * World.

Lemma try_urls_none (domain : string) (urls : list string) :
  forall w : World,
    Forall (page_unclassifiable domain) (fetch_all fetchHtml urls w) ->
    fst (try_urls World fetchHtml domain urls w) = None.
Proof.
  induction urls as [|url rest IH]; intros w; simpl; [reflexivity|].
  destruct (fetchHtml url w) as [page w1]. intros H.
  inversion H as [|? ? Hpage Hrest]; subst.
  destruct page as [html|]; [|now apply IH].
  destruct (Js.is_empty html); [now apply IH|].
  simpl in Hpage.
  destruct (businessEmails domain html) as [|e es] eqn:Hb; [now apply IH|].
  rewrite (selectPattern_none _ Hpage). now apply IH.
Qed.

Lemma discoverPattern_fallback (domain : string) (w : World) :
  Forall (page_unclassifiable domain)
         (fetch_all fetchHtml (buildDiscoveryUrls domain) w) ->
  fst (discoverPattern World fetchHtml domain w) =
  match guessPatternFromDomain domain with
  | Some p => Discovery.Make (Some p) Medium ("https://" ++ domain)
  | None => Discovery.Make None Low ("https://" ++ domain)
  end.
Proof.
  intros H. apply try_urls_none in H. unfold discoverPattern.
  destruct (try_urls World fetchHtml domain (buildDiscoveryUrls domain) w)
    as [found w1].
  simpl in H. subst found.
  destruct (guessPatternFromDomain domain); reflexivity.
Qed.

End Discovery_facts.

(** C5.  When no candidate address of the domain yields a classifiable
    address, discovery answers with the first keyword hint that applies: a
    domain that contains io, tech, systems or labs gives first.last; else
    one that contains finance, bank or capital gives firstinitial.last;
    else one that contains media, creative or studio gives firstlast; each
    with confidence medium.  With no keyword it answers no pattern with
    confidence low.  The source is https://domain in every case.  So
    acmetech.io gives first.last and medium, example-corp.com gives no
    pattern and low. *)
Theorem C5_discovery_keyword_fallback :
  (forall (World : Type) (fetchHtml : string -> World -> option string * World)
          (domain : string) (w : World),
      Forall (page_unclassifiable domain)
             (fetch_all fetchHtml (buildDiscoveryUrls domain) w) ->
      let found := fst (discoverPattern World fetchHtml domain w) in
      Discovery.source found = "https://" ++ domain /\
      (any_keyword ["io"; "tech"; "systems"; "labs"] domain ->
       Discovery.pattern found = Some FirstLast /\
       Discovery.confidence found = Medium) /\
      (~ any_keyword ["io"; "tech"; "systems"; "labs"] domain ->
       any_keyword ["finance"; "bank"; "capital"] domain ->
       Discovery.pattern found = Some FirstinitialLast /\
       Discovery.confidence found = Medium) /\
      (~ any_keyword ["io"; "tech"; "systems"; "labs"] domain ->
       ~ any_keyword ["finance"; "bank"; "capital"] domain ->
       any_keyword ["media"; "creative"; "studio"] domain ->
       Discovery.pattern found = Some Firstlast /\
       Discovery.confidence found = Medium) /\
      (~ any_keyword ["io"; "tech"; "systems"; "labs"] domain ->
       ~ any_keyword ["finance"; "bank"; "capital"] domain ->
       ~ any_keyword ["media"; "creative"; "studio"] domain ->
       Discovery.pattern found = None /\
       Discovery.confidence found = Low)) /\
  discoverPattern unit no_pages "acmetech.io" tt
    = (Discovery.Make (Some FirstLast) Medium "https://acmetech.io", tt) /\
  discoverPattern unit no_pages "example-corp.com" tt
    = (Discovery.Make None Low "https://example-corp.com", tt).
Proof.
  split; [|split; reflexivity].
  intros World fetchHtml domain w H found. subst found.
  rewrite (discoverPattern_fallback World fetchHtml domain w H).
  destruct (guessPatternFromDomain_spec domain) as (G1 & G2 & G3 & G4).
  split; [destruct (guessPatternFromDomain domain); reflexivity|].
  split; [intros K1; now rewrite (G1 K1)|].
  split; [intros K1 K2; now rewrite (G2 K1 K2)|].
  split; [intros K1 K2 K3; now rewrite (G3 K1 K2 K3)|].
  intros K1 K2 K3. now rewrite (G4 K1 K2 K3).
Qed.

Lemma C5_discovery_keyword_fallback_witness :
  let found :=
    fst (discoverPattern (list (option string)) scripted "northbank.com"
           [None; Some "<p>Call us, or write to Info+Sales@northbank.com</p>"]) in
  Discovery.source found = "https://northbank.com" /\
  Discovery.pattern found = Some FirstinitialLast /\
  Discovery.confidence found = Medium.
Proof.
  intros found.
  assert (Hpages :
    Forall (page_unclassifiable "northbank.com")
      (fetch_all scripted (buildDiscoveryUrls "northbank.com")
         [None; Some "<p>Call us, or write to Info+Sales@northbank.com</p>"])).
  { vm_compute. repeat constructor. }
  destruct (proj1 C5_discovery_keyword_fallback (list (option string)) scripted
                  "northbank.com" _ Hpages) as (Hsrc & _ & Hbank & _).
  split; [exact Hsrc|]. apply Hbank.
  - intros H. apply existsb_includes in H. vm_compute in H. discriminate.
  - apply existsb_includes. vm_compute. reflexivity.
Defined.

(* ================================================================== *)
(** ** Sorting and the identifier parser *)
(* ================================================================== *)

Section Sorting.

Variable A : Type.
Variable key : A -> Z.
Variable cmp : A -> A -> Z.
Hypothesis cmp_key : forall a b, cmp a b = (key b - key a)%Z.

Lemma sort_insert_perm (x : A) (l : list A) :
  Permutation (sort_insert cmp x l) (x :: l).
Proof.
  induction l as [|y l IH]; simpl; [reflexivity|].
  destruct (0 <? cmp x y)%Z; [|reflexivity].
  rewrite IH. apply perm_swap.
Qed.

Lemma sort_perm (l : list A) : Permutation (sort cmp l) l.
Proof.
  induction l as [|x l IH]; simpl; [reflexivity|].
  rewrite sort_insert_perm. now constructor.
Qed.

Lemma sort_insert_sorted (x : A) (l : list A) :
  StronglySorted (fun a b => (key b <= key a)%Z) l ->
  StronglySorted (fun a b => (key b <= key a)%Z) (sort_insert cmp x l).
Proof.
  induction 1 as [|y l Hs IH Hy]; simpl.
  - repeat constructor.
  - rewrite cmp_key. destruct (Z.ltb_spec 0 (key y - key x)) as [Hlt | Hge].
    + constructor; [exact IH|].
      apply (Permutation_Forall (Permutation_sym (sort_insert_perm x l))).
      constructor; [lia | exact Hy].
    + constructor; [now constructor|].
      constructor; [lia|].
      eapply Forall_impl; [|exact Hy]. cbv beta. intros a Ha. lia.
Qed.

Lemma sort_sorted (l : list A) :
  StronglySorted (fun a b => (key b <= key a)%Z) (sort cmp l).
Proof.
  induction l as [|x l IH]; simpl; [constructor | now apply sort_insert_sorted].
Qed.

Lemma sort_insert_stable (k : Z) (x : A) (l : list A) :
  filter (fun a => Z.eqb (key a) k) (sort_insert cmp x l) =
  filter (fun a => Z.eqb (key a) k) (x :: l).
Proof.
  induction l as [|y l IH]; [reflexivity|].
  cbn [sort_insert]. rewrite cmp_key.
  destruct (Z.ltb_spec 0 (key y - key x)) as [Hlt | Hge]; [|reflexivity].
  cbn [filter] in *. rewrite IH.
  destruct (Z.eqb_spec (key x) k), (Z.eqb_spec (key y) k); try reflexivity. lia.
Qed.

Lemma sort_stable (k : Z) (l : list A) :
  filter (fun a => Z.eqb (key a) k) (sort cmp l) =
  filter (fun a => Z.eqb (key a) k) l.
Proof.
  induction l as [|x l IH]; [reflexivity|].
  cbn [sort fold_right]. fold (sort cmp l).
  rewrite sort_insert_stable. cbn [filter]. now rewrite IH.
Qed.

End Sorting.

Lemma role_cmp_priority (a b : Role) :
  role_cmp a b = (role_priority b - role_priority a)%Z.
Proof. destruct a, b; reflexivity. Qed.

Lemma Role_eqb_eq (a b : Role) : Role_eqb a b = true <-> a = b.
Proof. destruct a, b; simpl; split; congruence. Qed.

Lemma set_add_In (r x : Role) (s : list Role) :
  In r (set_add x s) <-> r = x \/ In r s.
Proof.
  unfold set_add. destruct (existsb (Role_eqb x) s) eqn:E.
  - split; [tauto|]. intros [-> | H]; [|exact H].
    apply existsb_exists in E. destruct E as (y & Hy & Exy).
    apply Role_eqb_eq in Exy. now subst.
  - rewrite in_app_iff. simpl. intuition auto.
Qed.

Lemma set_add_NoDup (x : Role) (s : list Role) : NoDup s -> NoDup (set_add x s).
Proof.
  intros H. unfold set_add. destruct (existsb (Role_eqb x) s) eqn:E; [exact H|].
  apply (Permutation_NoDup (Permutation_cons_append _ _)).
  constructor; [|exact H]. intros Hin.
  assert (Ht : existsb (Role_eqb x) s = true).
  { apply existsb_exists. exists x. split; [exact Hin | now apply Role_eqb_eq]. }
  congruence.
Qed.

Lemma classify_tokens_roles (tokens : list string) :
  forall (roles : list Role) (names : list string) (r : Role),
    In r (fst (classify_tokens tokens roles names)) <->
    In r roles \/
    exists token, In token tokens /\ find_role (letters_only token) = Some r.
Proof.
  induction tokens as [|t ts IH]; intros roles names r; simpl.
  - split; [auto | intros [H | (t & [] & _)]; exact H].
  - destruct (find_role (letters_only t)) as [label|] eqn:Hf.
    + rewrite IH, set_add_In. split.
      * intros [[-> | H] | (t' & Ht' & Hr)]; eauto 6.
      * intros [H | (t' & [<- | Ht'] & Hr)]; eauto 6.
        left. left. congruence.
    + assert (G : forall names',
                 In r (fst (classify_tokens ts roles names')) <->
                 In r roles \/
                 exists token, (t = token \/ In token ts) /\
                               find_role (letters_only token) = Some r).
      { intros names'. rewrite IH. split.
        - intros [H | (t' & Ht' & Hr)]; eauto 6.
        - intros [H | (t' & [<- | Ht'] & Hr)]; eauto 6. congruence. }
      destruct (negb (Regex.test_anchored re_digits t)); apply G.
Qed.

Lemma classify_tokens_NoDup (tokens : list string) :
  forall (roles : list Role) (names : list string),
    NoDup roles -> NoDup (fst (classify_tokens tokens roles names)).
Proof.
  induction tokens as [|t ts IH]; intros roles names H; simpl; [exact H|].
  destruct (find_role (letters_only t)) as [label|].
  - apply IH. now apply set_add_NoDup.
  - destruct (negb (Regex.test_anchored re_digits t)); now apply IH.
Qed.

(** The matched roles are the labels whose keyword is one of the tokens,
    each of them once. *)
Lemma matched_roles_spec (tokens : list string) :
  NoDup (matched_roles tokens) /\
  forall r, In r (matched_roles tokens) <->
            exists token, In token tokens /\ find_role (letters_only token) = Some r.
Proof.
  unfold matched_roles. split.
  - apply classify_tokens_NoDup. constructor.
  - intros r. rewrite classify_tokens_roles. simpl. tauto.
Qed.

Lemma role_text_sorted (matched : list Role) :
  exists labels,
    Permutation labels matched /\
    StronglySorted by_priority labels /\
    (forall k, of_priority k labels = of_priority k matched) /\
    role_text matched =
      match labels with
      | [] => "Decision Maker"
      | _ => Js.join " & " (map role_label labels)
      end.
Proof.
  exists (sort role_cmp matched).
  pose proof (sort_perm Role role_cmp matched) as Hp.
  split; [exact Hp|].
  split; [apply (sort_sorted Role role_priority role_cmp role_cmp_priority)|].
  split; [intros k; apply (sort_stable Role role_priority role_cmp role_cmp_priority)|].
  unfold role_text. destruct matched as [|r rs].
  - reflexivity.
  - destruct (sort role_cmp (r :: rs)) as [|x xs] eqn:E; [|reflexivity].
    apply Permutation_nil in Hp. discriminate.
Qed.

(** C6.  The role of every contact the parser produces is built from the
    role labels matched in the slug: the labels sorted by descending
    priority (Founder 5, CEO 4, Executive 3, Operations Head 2, Finance Head
    2), labels of equal priority in the order in which they were matched,
    joined with [" & "]; and the literal ["Decision Maker"] when no label was
    matched.  The profile https://www.linkedin.com/in/jordan-lee-founder-ceo/
    of company Acme gives exactly one contact: Jordan, Lee, Jordan Lee, with
    role Founder & CEO. *)
Theorem C6_role_by_priority :
  (forall (parseURL : string -> option URL) (url company : string)
          (contact : Contact.t),
      In contact (extractContactFromLinkedIn parseURL (JStr url) company) ->
      let matched := matched_roles (tokenize (slug_of parseURL (Js.trim url))) in
      exists labels,
        Permutation labels matched /\
        StronglySorted by_priority labels /\
        (forall k, of_priority k labels = of_priority k matched) /\
        Contact.role contact =
          match labels with
          | [] => "Decision Maker"
          | _ => Js.join " & " (map role_label labels)
          end) /\
  extractContactFromLinkedIn url_parse
    (JStr "https://www.linkedin.com/in/jordan-lee-founder-ceo/") "Acme"
  = [ Contact.Make "Jordan" (Some "Lee") "Jordan Lee" "Founder & CEO" "Acme"
        "https://www.linkedin.com/in/jordan-lee-founder-ceo/" ].
Proof.
  split; [|reflexivity].
  intros parseURL url company contact Hin matched. subst matched.
  unfold extractContactFromLinkedIn in Hin.
  destruct (Js.is_empty url); [contradiction|].
  destruct (Js.is_empty (Js.trim url)); [contradiction|].
  unfold matched_roles.
  destruct (classify_tokens (tokenize (slug_of parseURL (Js.trim url))) [] [])
    as [roles names].
  destruct names as [|n ns]; [contradiction|].
  destruct (splitNameTokens (n :: ns)) as [[firstName|] lastName]; [|contradiction].
  destruct (Js.is_empty firstName); [contradiction|].
  destruct Hin as [<- | []]. cbn [Contact.role fst].
  apply role_text_sorted.
Qed.

Lemma C6_role_by_priority_witness :
  let contact :=
    Contact.Make "Samantha" (Some "Ray") "Samantha Ray"
      "CEO & Operations Head & Finance Head" "Northwind"
      "linkedin.com/in/samantha-ray-operations-cfo-ceo-ops" in
  let matched :=
    matched_roles
      (tokenize (slug_of url_parse
                   (Js.trim "  linkedin.com/in/samantha-ray-operations-cfo-ceo-ops "))) in
  exists labels,
    Permutation labels matched /\
    StronglySorted by_priority labels /\
    (forall k, of_priority k labels = of_priority k matched) /\
    Contact.role contact =
      match labels with
      | [] => "Decision Maker"
      | _ => Js.join " & " (map role_label labels)
      end.
Proof.
  intros contact.
  apply (proj1 C6_role_by_priority url_parse
               "  linkedin.com/in/samantha-ray-operations-cfo-ceo-ops " "Northwind").
  vm_compute. left. reflexivity.
Defined.

(* ================================================================== *)
(** ** The loop over the entries *)
(* ================================================================== *)

Lemma existsb_eqb_In (x : string) (l : list string) :
  existsb (String.eqb x) l = true <-> In x l.
Proof.
  rewrite existsb_exists. split.
  - intros (y & Hy & E). apply String.eqb_eq in E. now subst.
  - intros H. exists x. split; [exact H | apply String.eqb_refl].
Qed.

Lemma lookup_app_last (key k : string) (v : JSON) (fields : list (string * JSON)) :
  lookup key (fields ++ [(k, v)]) =
  if String.eqb k key then Some v else lookup key fields.
Proof.
  induction fields as [|[k0 v0] fields IH]; simpl; [reflexivity|].
  rewrite IH. destruct (String.eqb k key); reflexivity.
Qed.

Lemma filter_truthy_skip (before after : list JSON) (v : JSON) :
  truthy (Some v) = false ->
  filter (fun x => truthy (Some x)) (before ++ v :: after) =
  filter (fun x => truthy (Some x)) (before ++ after).
Proof.
  intros H. rewrite !filter_app. cbn [filter]. now rewrite H.
Qed.

Section Entries.

Variable parseURL : string -> option URL.
Variable World : Type.
Variable fetchHtml : string -> World -> option string * World.




Lemma process_entry_no_profiles (entry : JSON) (company website : string) :
  text_field entry "company" = Some company ->
  text_field entry "website" = Some website ->
  profiles_of entry = [] ->
  forall w, exists w', process_entry parseURL World fetchHtml entry w = (Some [], w').
Proof.
  intros Hc Hw Hp w. unfold process_entry.
  rewrite Hc, Hw, Hp.
  destruct (deriveDomain parseURL website) as [domain|]; [|eauto].
  destruct (Js.is_empty domain || _); [eauto|].
  destruct (discoverPattern World fetchHtml domain w) as [found w1].
  simpl. eauto.
Qed.

Lemma process_entry_total (entry : JSON) (company website : string) :
  text_field entry "company" = Some company ->
  text_field entry "website" = Some website ->
  forall w, exists rows w',
    process_entry parseURL World fetchHtml entry w = (Some rows, w').
Proof.
  intros Hc Hw w. unfold process_entry.
  rewrite Hc, Hw.
  destruct (deriveDomain parseURL website) as [domain|]; [|eauto].
  destruct (Js.is_empty domain || _); [eauto|].
  destruct (discoverPattern World fetchHtml domain w) as [found w1].
  eauto.
Qed.

Lemma profiles_of_not_array (entry : JSON) :
  is_array (get_prop entry "linkedinProfiles") = false -> profiles_of entry = [].
Proof.
  unfold profiles_of, is_array.
  destruct (get_prop entry "linkedinProfiles") as [[]|]; try reflexivity.
  discriminate.
Qed.

Lemma process_entry_falsy_profile
      (fields : list (string * JSON)) (before after : list JSON) (v : JSON) :
  truthy (Some v) = false ->
  forall w,
    process_entry parseURL World fetchHtml (with_profiles fields (before ++ v :: after)) w =
    process_entry parseURL World fetchHtml (with_profiles fields (before ++ after)) w.
Proof.
  intros Hv w. unfold process_entry, text_field, profiles_of, with_profiles.
  cbn [get_prop]. rewrite !lookup_app_last. cbn [String.eqb Ascii.eqb Bool.eqb].
  now rewrite (filter_truthy_skip before after v Hv).
Qed.

End Entries.



(** C10, with the precondition the code needs.  For an entry whose company
    and website can be read (each is a string or a falsy value): when its
    [linkedinProfiles] property is missing or is not an array, the entry is
    processed without error and pushes no row, and the loop goes on with the
    next entry; the entry never fails, whatever its profile references are.
    And a falsy element of the array is skipped: the entry is processed as
    if the element were not there. *)
Theorem C10_profiles_defaulting :
  forall (parseURL : string -> option URL) (World : Type)
         (fetchHtml : string -> World -> option string * World)
         (entry : JSON) (company website : string),
    text_field entry "company" = Some company ->
    text_field entry "website" = Some website ->
    (is_array (get_prop entry "linkedinProfiles") = false ->
     profiles_of entry = [] /\
     forall w, exists w',
       process_entry parseURL World fetchHtml entry w = (Some [], w') /\
       forall (rest : list JSON) (acc : list Result.t),
         process_entries parseURL World fetchHtml (entry :: rest) acc w =
         process_entries parseURL World fetchHtml rest acc w') /\
    (forall w, exists rows w',
       process_entry parseURL World fetchHtml entry w = (Some rows, w')) /\
    (forall (fields : list (string * JSON)) (before after : list JSON) (v : JSON)
            (w : World),
        truthy (Some v) = false ->
        process_entry parseURL World fetchHtml
          (with_profiles fields (before ++ v :: after)) w =
        process_entry parseURL World fetchHtml
          (with_profiles fields (before ++ after)) w).
Proof.
  intros parseURL World fetchHtml entry company website Hc Hw.
  split; [|split].
  - intros Harr. pose proof (profiles_of_not_array entry Harr) as Hp.
    split; [exact Hp|]. intros w.
    destruct (process_entry_no_profiles parseURL World fetchHtml
                entry company website Hc Hw Hp w) as [w' Hw'].
    exists w'. split; [exact Hw'|].
    intros rest acc. cbn [process_entries]. now rewrite Hw', app_nil_r.
  - apply (process_entry_total parseURL World fetchHtml entry company website Hc Hw).
  - intros fields before after v w Hv.
    now apply process_entry_falsy_profile.
Qed.

Lemma C10_profiles_defaulting_witness :
  let entry :=
    JObj [("company", JStr "Acme"); ("website", JStr "acme.io");
          ("linkedinProfiles", JStr "https://www.linkedin.com/in/jordan-lee-ceo")] in
  let fields := [("company", JStr "Acme"); ("website", JStr "acme.io")] in
  (profiles_of entry = [] /\
   forall w, exists w',
     process_entry url_parse unit no_pages entry w = (Some [], w') /\
     forall (rest : list JSON) (acc : list Result.t),
       process_entries url_parse unit no_pages (entry :: rest) acc w =
       process_entries url_parse unit no_pages rest acc w') /\
  (forall w, exists rows w',
     process_entry url_parse unit no_pages entry w = (Some rows, w')) /\
  process_entry url_parse unit no_pages
    (with_profiles fields ([JStr "jordan-lee-ceo"] ++ JNull :: [JStr ""; JStr "sam-ray"])) tt =
  process_entry url_parse unit no_pages
    (with_profiles fields ([JStr "jordan-lee-ceo"] ++ [JStr ""; JStr "sam-ray"])) tt.
Proof.
  intros entry fields.
  destruct (C10_profiles_defaulting url_parse unit no_pages entry "Acme" "acme.io")
    as (H1 & H2 & H3).
  - reflexivity.
  - reflexivity.
  - split; [apply H1; reflexivity|]. split; [exact H2|].
    apply H3. reflexivity.
Defined.

(** C10 as stated fails on an entry whose company is the number 7 and that
    has no [linkedinProfiles]: reading the company throws before the
    profile references are looked at, so the entry is not processed as one
    with an empty profile list, and a batch that holds it is answered with
    the server error and no results, also for the entries before it. *)
Lemma C10_unreadable_company_counterexample :
  let entry := JObj [("company", JNum (QArith_base.Qmake 7 1))] in
  let good :=
    JObj [("company", JStr "Acme"); ("website", JStr "acme.io");
          ("linkedinProfiles", JArr [JStr "jordan-lee-ceo"])] in
  is_array (get_prop entry "linkedinProfiles") = false /\
  process_entry url_parse unit no_pages entry tt = (None, tt) /\
  (exists rows, rows <> [] /\
     POST url_parse unit no_pages (batch [good]) tt = (Ok200 rows, tt)) /\
  POST url_parse unit no_pages (batch [good; entry]) tt = (ServerError500, tt).
Proof.
  intros entry good. split; [reflexivity|]. split; [reflexivity|].
  split; [|reflexivity].
  eexists. split; [|reflexivity]. discriminate.
Qed.

(* ================================================================== *)
(** ** The rows the handler deduplicates are emitted rows *)
(* ================================================================== *)

Lemma free_of_slice (sep : ascii) (n : nat) :
  forall s, free_of sep s = true -> free_of sep (Js.slice n s) = true.
Proof.
  unfold free_of. induction n as [|n IH]; intros s H; [destruct s; exact H|].
  destruct s as [|c s]; simpl; [reflexivity|].
  simpl in H. apply andb_true_iff in H. now apply IH.
Qed.

Lemma lower_free_of_hyphen (s : string) :
  Js.all_chars Js.is_lower s = true -> free_of "-" s = true.
Proof.
  apply all_chars_impl. intros c H.
  destruct (Ascii.eqb c "-") eqn:E; [|reflexivity].
  apply Ascii.eqb_eq in E. subst c. discriminate.
Qed.

Lemma charAt0_lower (s : string) :
  Js.all_chars Js.is_lower s = true -> Js.all_chars Js.is_lower (Js.charAt0 s) = true.
Proof.
  destruct s as [|c s]; simpl; [reflexivity|].
  rewrite !andb_true_iff. tauto.
Qed.

Lemma local_template_free_of_hyphen (p : Pattern) (first last : string) :
  Js.all_chars Js.is_lower first = true ->
  Js.all_chars Js.is_lower last = true ->
  free_of "-" (local_template p first last) = true.
Proof.
  intros Hf Hl.
  pose proof (lower_free_of_hyphen _ Hf) as Ff.
  pose proof (lower_free_of_hyphen _ Hl) as Fl.
  pose proof (lower_free_of_hyphen _ (charAt0_lower _ Hf)) as Ff0.
  pose proof (lower_free_of_hyphen _ (charAt0_lower _ Hl)) as Fl0.
  destruct p; cbn [local_template]; rewrite ?free_of_app, ?Ff, ?Fl, ?Ff0, ?Fl0;
    reflexivity.
Qed.

Lemma buildEmail_shape (contact : Contact.t) (domain : string) (p : Pattern)
      (email : string) :
  free_of "@" domain = true ->
  buildEmail contact domain p = Some email -> address_shape email.
Proof.
  intros Hd. rewrite buildEmail_spec. cbv zeta.
  destruct (negb _ && _); [|discriminate].
  intros H. injection H as <-.
  exists (local_template p (sanitizePart (Some (Contact.firstName contact)))
                           (sanitizePart (Contact.lastName contact))), domain.
  split; [reflexivity|]. split; [|exact Hd].
  apply local_template_free_of_hyphen; apply sanitizePart_lower.
Qed.

Lemma emit_shape (company domain : string) (found : Discovery.t)
      (contact : Contact.t) (row : Result.t) :
  free_of "@" domain = true ->
  emit company domain found contact = Some row -> emitted row.
Proof.
  intros Hd H.
  destruct (emit_row_facts company domain found contact row H)
    as [Hb _].
  unfold emitted. eapply buildEmail_shape; eauto.
Qed.

Lemma filter_map_Forall {A B : Type} (f : A -> option B) (P : B -> Prop) (l : list A) :
  (forall x y, f x = Some y -> P y) -> Forall P (filter_map f l).
Proof.
  intros H. induction l as [|x l IH]; simpl; [constructor|].
  destruct (f x) as [y|] eqn:E; [constructor; eauto | exact IH].
Qed.

Section Emitted_rows.

Variable parseURL : string -> option URL.
Variable World : Type.
Variable fetchHtml : string -> World -> option string * World.

(** A host name holds no [@]: in a URL the [@] ends the credentials. *)
Hypothesis hostname_free_of_at :
  forall s url, parseURL s = Some url -> free_of "@" (hostname url) = true.

Lemma deriveDomain_free_of_at (website domain : string) :
  deriveDomain parseURL website = Some domain -> free_of "@" domain = true.
Proof.
  rewrite deriveDomain_as_guarded. unfold deriveDomain_guarded, deriveDomain_amended.
  destruct (Js.is_empty (Js.trim website)); [discriminate|].
  destruct (parseURL _) as [url|] eqn:E; [|discriminate].
  intros H. injection H as <-.
  apply hostname_free_of_at in E.
  assert (L : free_of "@" (Js.toLowerCase (hostname url)) = true)
    by (rewrite free_of_lower; auto).
  unfold strip_www. destruct (prefix "www." _); [now apply free_of_slice | exact L].
Qed.

Lemma process_entry_emitted (entry : JSON) (w w' : World) (rows : list Result.t) :
  process_entry parseURL World fetchHtml entry w = (Some rows, w') ->
  Forall emitted rows.
Proof.
  unfold process_entry.
  destruct (text_field entry "company") as [company|]; [|discriminate].
  destruct (text_field entry "website") as [website|]; [|discriminate].
  destruct (deriveDomain parseURL website) as [domain|] eqn:Hd.
  - destruct (Js.is_empty domain || _).
    + intros H. injection H as <- _. constructor.
    + destruct (discoverPattern World fetchHtml domain w) as [found w1].
      intros H. injection H as <- _.
      apply filter_map_Forall. intros contact row.
      apply emit_shape. now apply (deriveDomain_free_of_at website).
  - intros H. injection H as <- _. constructor.
Qed.

Lemma process_entries_emitted (entries : list JSON) :
  forall (acc results : list Result.t) (w w' : World),
    Forall emitted acc ->
    process_entries parseURL World fetchHtml entries acc w = (Some results, w') ->
    Forall emitted results.
Proof.
  induction entries as [|e es IH]; intros acc results w w' Hacc; simpl.
  - intros H. injection H as <- _. exact Hacc.
  - destruct (process_entry parseURL World fetchHtml e w) as [[rows|] w1] eqn:He;
      [|discriminate].
    apply IH. apply Forall_app. split; [exact Hacc|].
    eapply process_entry_emitted; eauto.
Qed.

(** Every batch that [POST] hands to [deduplicateResults] is a batch of
    emitted rows, so the characterisation of C2 applies to all of them. *)
Lemma POST_deduplicates_emitted (entries : list JSON) (w w' : World)
      (results : list Result.t) :
  process_entries parseURL World fetchHtml entries [] w = (Some results, w') ->
  Forall emitted results /\
  forall (earlier : list Result.t) (item : Result.t),
    results = (earlier ++ [item])%list ->
    deduplicateResults results =
    (deduplicateResults earlier ++
     if existsb (same_pair item) earlier then [] else [item])%list.
Proof.
  intros H. apply process_entries_emitted in H; [|constructor].
  split; [exact H|]. intros earlier item ->.
  unfold deduplicateResults. rewrite dedup_from_snoc, app_nil_r.
  apply Forall_app in H. destruct H as [He Hi]. inversion Hi; subst.
  now rewrite existsb_signatures.
Qed.

End Emitted_rows.

Lemma url_parse_hostname_free_of_at (s : string) (url : URL) :
  url_parse s = Some url -> free_of "@" (hostname url) = true.
Proof.
  unfold url_parse.
  destruct (if prefix "https://" s then _ else _) as [rest|]; [|discriminate].
  destruct (span _ rest) as [host tail].
  destruct (span _ tail) as [path frag].
  destruct (Js.is_empty host) ; [discriminate|]. cbn [orb].
  destruct (Js.all_chars url_host_char host) eqn:Hh; [|discriminate]. cbn [negb orb].
  destruct (_ || _); [discriminate|].
  intros H. injection H as <-. cbn [hostname].
  rewrite free_of_lower by reflexivity.
  eapply all_chars_impl; [|exact Hh].
  intros c Hc. destruct (Ascii.eqb c "@") eqn:E; [|reflexivity].
  apply Ascii.eqb_eq in E. subst c. discriminate.
Qed.

(** With the concrete parser the side condition holds, for every network. *)
Lemma POST_deduplicates_emitted_url_parse
      (World : Type) (fetchHtml : string -> World -> option string * World)
      (entries : list JSON) (w w' : World) (results : list Result.t) :
  process_entries url_parse World fetchHtml entries [] w = (Some results, w') ->
  Forall emitted results.
Proof.
  intros H.
  apply (POST_deduplicates_emitted url_parse World fetchHtml
           url_parse_hostname_free_of_at entries w w' results H).
Qed.

(* ================================================================== *)
(** ** More on deduplication and on the responses of the handler *)
(* ================================================================== *)

Lemma dedup_from_In (results : list Result.t) :
  forall (seen : list string) (x : Result.t),
    In x (dedup_from seen results) ->
    In x results /\ ~ In (signature x) seen.
Proof.
  induction results as [|r rs IH]; intros seen x; simpl; [contradiction|].
  destruct (existsb (String.eqb (signature r)) seen) eqn:E.
  - intros H. destruct (IH _ _ H). auto.
  - intros [<- | H].
    + split; [now left|]. intros Hin. apply existsb_eqb_In in Hin. congruence.
    + destruct (IH _ _ H) as [H1 H2]. split; [now right|].
      intros Hin. apply H2. now right.
Qed.

Lemma dedup_from_NoDup (results : list Result.t) :
  forall seen, NoDup (map signature (dedup_from seen results)).
Proof.
  induction results as [|r rs IH]; intros seen; simpl; [constructor|].
  destruct (existsb (String.eqb (signature r)) seen); [apply IH|].
  simpl. constructor; [|apply IH].
  intros Hin. apply in_map_iff in Hin. destruct Hin as (x & Ex & Hx).
  apply dedup_from_In in Hx. destruct Hx as [_ Hx]. apply Hx. left. auto.
Qed.

Lemma dedup_from_covers (results : list Result.t) :
  forall (seen : list string) (r : Result.t),
    In r results ->
    In (signature r) seen \/
    exists r', In r' (dedup_from seen results) /\ signature r' = signature r.
Proof.
  induction results as [|x rs IH]; intros seen r; simpl; [contradiction|].
  destruct (existsb (String.eqb (signature x)) seen) eqn:E.
  - intros [<- | H]; [left; now apply existsb_eqb_In | now apply IH].
  - intros [<- | H].
    + right. exists x. split; [now left | reflexivity].
    + destruct (IH (signature x :: seen) r H) as [[Hs | Hs] | (r' & Hr' & Es)].
      * right. exists x. split; [now left | exact Hs].
      * now left.
      * right. exists r'. split; [now right | exact Es].
Qed.

Lemma dedup_from_fixed (results : list Result.t) :
  forall seen,
    NoDup (map signature results) ->
    (forall x, In x results -> ~ In (signature x) seen) ->
    dedup_from seen results = results.
Proof.
  induction results as [|r rs IH]; intros seen Hnd Hseen; simpl; [reflexivity|].
  inversion Hnd as [|? ? Hr Hrs]; subst.
  destruct (existsb (String.eqb (signature r)) seen) eqn:E.
  - apply existsb_eqb_In in E. exfalso. apply (Hseen r); [now left | exact E].
  - f_equal. apply IH; [exact Hrs|].
    intros x Hx [Hin | Hin].
    + apply Hr. rewrite Hin. now apply in_map.
    + apply (Hseen x); [now right | exact Hin].
Qed.

(** X1.  Deduplicating twice changes nothing, and a batch whose signatures
    are already pairwise different is returned as it is. *)
Theorem X1_deduplicate_idempotent :
  (forall results : list Result.t,
      deduplicateResults (deduplicateResults results) = deduplicateResults results) /\
  (forall results : list Result.t,
      NoDup (map signature results) -> deduplicateResults results = results).
Proof.
  assert (H : forall results : list Result.t,
             NoDup (map signature results) -> deduplicateResults results = results).
  { intros results Hnd. apply dedup_from_fixed; [exact Hnd | intros x _ []]. }
  split; [|exact H].
  intros results. apply H. apply dedup_from_NoDup.
Qed.

Lemma X1_deduplicate_idempotent_witness :
  let a := Result.Make "Jordan Lee" "CEO" "Acme" "jordan.lee@acme.io" High "s1" in
  let b := Result.Make "Sam Ray" "CFO" "Acme" "sam.ray@acme.io" High "s2" in
  deduplicateResults [a; b] = [a; b].
Proof.
  intros a b. apply (proj2 X1_deduplicate_idempotent).
  repeat constructor; simpl; intuition discriminate.
Defined.

(** X2.  After deduplication no two rows have the same signature, every row
    comes from the batch, and every row of the batch still has a row with
    its signature in the result: nothing but repeats is lost. *)
Theorem X2_deduplicate_keeps_one_of_each :
  forall results : list Result.t,
    NoDup (map signature (deduplicateResults results)) /\
    (forall r, In r (deduplicateResults results) -> In r results) /\
    (forall r, In r results ->
       exists r', In r' (deduplicateResults results) /\ signature r' = signature r).
Proof.
  intros results. unfold deduplicateResults. split; [apply dedup_from_NoDup|]. split.
  - intros r H. now apply dedup_from_In in H.
  - intros r H. destruct (dedup_from_covers results [] r H) as [[] | H']. exact H'.
Qed.

Lemma X2_deduplicate_keeps_one_of_each_witness :
  let a := Result.Make "Jordan Lee" "CEO" "Acme" "jordan.lee@acme.io" High "s1" in
  let b := Result.Make "J. Lee" "Founder" "ACME" "Jordan.Lee@acme.io" Low "s2" in
  exists r', In r' (deduplicateResults [a; b]) /\ signature r' = signature b.
Proof.
  intros a b.
  apply (proj2 (proj2 (X2_deduplicate_keeps_one_of_each [a; b])) b).
  right. left. reflexivity.
Defined.

Lemma string_or_falsy_text_field (entry : JSON) (key : string) :
  text_field entry key <> None <-> string_or_falsy (get_prop entry key) = true.
Proof.
  unfold text_field, string_or_falsy.
  destruct (get_prop entry key) as [[| b | q | s | l | f]|]; simpl;
    try (split; congruence).
  - destruct b; simpl; split; congruence.
  - destruct (Z.eqb (QArith_base.Qnum q) 0); simpl; split; congruence.
  - destruct (Js.is_empty s); simpl; split; congruence.
Qed.

Section Responses.

Variable parseURL : string -> option URL.
Variable World : Type.
Variable fetchHtml : string -> World -> option string * World.

Lemma process_entry_usable (entry : JSON) (w : World) :
  usable entry = true ->
  exists rows w', process_entry parseURL World fetchHtml entry w = (Some rows, w').
Proof.
  unfold usable. rewrite andb_true_iff, <- !string_or_falsy_text_field.
  intros [Hc Hw].
  destruct (text_field entry "company") as [company|] eqn:Ec; [|congruence].
  destruct (text_field entry "website") as [website|] eqn:Ew; [|congruence].
  apply (process_entry_total parseURL World fetchHtml entry company website Ec Ew).
Qed.

Lemma process_entry_unusable (entry : JSON) (w : World) :
  usable entry = false ->
  process_entry parseURL World fetchHtml entry w = (None, w).
Proof.
  unfold usable, process_entry. intros H.
  destruct (text_field entry "company") as [company|] eqn:Ec; [|reflexivity].
  destruct (text_field entry "website") as [website|] eqn:Ew; [|reflexivity].
  assert (H1 : string_or_falsy (get_prop entry "company") = true)
    by (apply string_or_falsy_text_field; congruence).
  assert (H2 : string_or_falsy (get_prop entry "website") = true)
    by (apply string_or_falsy_text_field; congruence).
  rewrite H1, H2 in H. discriminate.
Qed.

Lemma process_entries_usable (entries : list JSON) :
  forall (acc : list Result.t) (w : World),
    forallb usable entries = true ->
    exists rows w',
      process_entries parseURL World fetchHtml entries acc w = (Some rows, w').
Proof.
  induction entries as [|e es IH]; intros acc w; simpl; [eauto|].
  rewrite andb_true_iff. intros [He Hes].
  destruct (process_entry_usable e w He) as (rows & w1 & ->).
  now apply IH.
Qed.

Lemma process_entries_unusable (entries : list JSON) :
  forall (acc : list Result.t) (w : World),
    forallb usable entries = false ->
    fst (process_entries parseURL World fetchHtml entries acc w) = None.
Proof.
  induction entries as [|e es IH]; intros acc w; simpl; [discriminate|].
  destruct (usable e) eqn:He; simpl.
  - intros Hes. destruct (process_entry_usable e w He) as (rows & w1 & ->).
    now apply IH.
  - intros _. now rewrite (process_entry_unusable e w He).
Qed.

End Responses.

(** X3.  The three responses.  A body that is null gives the server error;
    any other body without a non-empty array under [entries] gives the client
    error and makes no request.  With a non-empty array: when every entry
    has a usable company and website (a string, or a falsy value) the answer
    is the list of results; when some entry has not, the answer is the
    server error and carries no result at all. *)
Theorem X3_POST_responses :
  forall (parseURL : string -> option URL) (World : Type)
         (fetchHtml : string -> World -> option string * World) (w : World),
    POST parseURL World fetchHtml JNull w = (ServerError500, w) /\
    (forall body : JSON,
        body <> JNull ->
        (forall e es, get_prop body "entries" <> Some (JArr (e :: es))) ->
        POST parseURL World fetchHtml body w = (BadRequest400, w)) /\
    (forall entries : list JSON,
        entries <> [] ->
        (forallb usable entries = true ->
         exists rows w',
           POST parseURL World fetchHtml (batch entries) w = (Ok200 rows, w')) /\
        (forallb usable entries = false ->
         fst (POST parseURL World fetchHtml (batch entries) w) = ServerError500)).
Proof.
  intros parseURL World fetchHtml w. split; [reflexivity|]. split.
  - intros body Hnull Hentries. unfold POST.
    destruct body; try congruence; try reflexivity.
    destruct (get_prop (JObj fields) "entries") as [[| | | | [|e es] |]|] eqn:E;
      try reflexivity.
    now destruct (Hentries e es).
  - intros entries Hne. unfold POST, batch.
    cbn [get_prop lookup String.eqb Ascii.eqb Bool.eqb].
    destruct entries as [|e es]; [congruence|]. split.
    + intros H.
      destruct (process_entries_usable parseURL World fetchHtml (e :: es) [] w H)
        as (rows & w' & ->).
      eauto.
    + intros H.
      pose proof (process_entries_unusable parseURL World fetchHtml (e :: es) [] w H)
        as Hf.
      destruct (process_entries parseURL World fetchHtml (e :: es) [] w)
        as [[rows|] w']; [discriminate | reflexivity].
Qed.

Lemma X3_POST_responses_witness :
  let good := JObj [("company", JStr "Acme"); ("website", JStr "acme.io")] in
  let bad := JObj [("company", JNum (QArith_base.Qmake 7 1)); ("website", JStr "acme.io")] in
  POST url_parse unit no_pages (JObj [("entries", JStr "none")]) tt = (BadRequest400, tt) /\
  (exists rows w', POST url_parse unit no_pages (batch [good; JNull]) tt = (Ok200 rows, w')) /\
  fst (POST url_parse unit no_pages (batch [good; bad]) tt) = ServerError500.
Proof.
  intros good bad.
  destruct (X3_POST_responses url_parse unit no_pages tt) as (_ & H400 & H).
  split; [|split].
  - apply H400; [discriminate|]. intros e es. discriminate.
  - apply (H [good; JNull]); [discriminate | reflexivity].
  - apply (H [good; bad]); [discriminate | reflexivity].
Defined.

Lemma NoDup_signatures_pairwise (rows : list Result.t) :
  Forall emitted rows -> NoDup (map signature rows) -> pairwise_distinct rows.
Proof.
  unfold pairwise_distinct.
  induction rows as [|r rs IH]; intros He Hnd; [constructor|].
  inversion He as [|? ? Hr Hrs]; subst.
  inversion Hnd as [|? ? Hn Hnd']; subst.
  constructor; [|now apply IH].
  apply Forall_forall. intros x Hx.
  rewrite <- signature_same_pair; [|assumption|].
  - apply String.eqb_neq. intros E. apply Hn. rewrite E. now apply in_map.
  - rewrite Forall_forall in Hrs. now apply Hrs.
Qed.

Lemma subsequence_Forall {A : Type} (P : A -> Prop) (l1 l2 : list A) :
  subsequence l1 l2 -> Forall P l2 -> Forall P l1.
Proof.
  induction 1 as [|x l1 l2 Hs IH|x l1 l2 Hs IH]; intros HP; [constructor | |];
    inversion HP; subst; auto.
Qed.

Lemma deduplicated_rows_distinct (results : list Result.t) :
  Forall emitted results ->
  pairwise_distinct (deduplicateResults results) /\
  Forall emitted (deduplicateResults results).
Proof.
  intros E.
  assert (He : Forall emitted (deduplicateResults results))
    by (eapply subsequence_Forall; [apply dedup_from_subsequence | exact E]).
  split; [|exact He].
  apply NoDup_signatures_pairwise; [exact He | apply dedup_from_NoDup].
Qed.

(** X4.  For any URL parser whose host names hold no [@], the rows of a
    successful response are pairwise different: no two of them have the same
    company and the same address, letter case apart; and each of them has an
    address of the form local part, [@], host. *)
Theorem X4_POST_rows_pairwise_distinct :
  forall (parseURL : string -> option URL) (World : Type)
         (fetchHtml : string -> World -> option string * World),
    (forall s url, parseURL s = Some url -> free_of "@" (hostname url) = true) ->
    forall (body : JSON) (w w' : World) (rows : list Result.t),
      POST parseURL World fetchHtml body w = (Ok200 rows, w') ->
      pairwise_distinct rows /\ Forall emitted rows.
Proof.
  intros parseURL World fetchHtml Hhost body w w' rows. unfold POST.
  assert (G : forall entries,
             match process_entries parseURL World fetchHtml entries [] w with
             | (Some results, w1) => (Ok200 (deduplicateResults results), w1)
             | (None, w1) => (ServerError500, w1)
             end = (Ok200 rows, w') ->
             pairwise_distinct rows /\ Forall emitted rows).
  { intros entries.
    destruct (process_entries parseURL World fetchHtml entries [] w)
      as [[results|] w1] eqn:E; [|discriminate].
    intros H. injection H as <- _.
    apply deduplicated_rows_distinct.
    apply (process_entries_emitted parseURL World fetchHtml Hhost entries
             [] results w w1); [constructor | exact E]. }
  destruct body; try discriminate;
    (destruct (get_prop _ "entries") as [[| | | | [|e es] |]|]; try discriminate);
    apply G.
Qed.

Lemma X4_POST_rows_pairwise_distinct_witness :
  let entry :=
    JObj [("company", JStr "Acme"); ("website", JStr "acme.io");
          ("linkedinProfiles",
           JArr [JStr "jordan-lee-ceo"; JStr "Jordan_Lee"; JStr "sam-ray"])] in
  pairwise_distinct (match fst (POST url_parse unit no_pages (batch [entry]) tt) with
                     | Ok200 rows => rows
                     | _ => []
                     end).
Proof.
  intros entry.
  destruct (POST url_parse unit no_pages (batch [entry]) tt) as [resp w'] eqn:E.
  destruct resp as [rows| |]; cbn [fst]; try constructor.
  apply (X4_POST_rows_pairwise_distinct url_parse unit no_pages
           url_parse_hostname_free_of_at (batch [entry]) tt w' rows E).
Defined.

(* ================================================================== *)
(** ** More on pattern discovery *)
(* ================================================================== *)

Lemma set_from_fixed (l : list string) :
  forall seen,
    NoDup l -> (forall x, In x l -> ~ In x seen) -> Js.set_from seen l = l.
Proof.
  induction l as [|x l IH]; intros seen Hnd Hseen; simpl; [reflexivity|].
  inversion Hnd as [|? ? Hx Hl]; subst.
  destruct (existsb (String.eqb x) seen) eqn:E.
  - apply existsb_eqb_In in E. exfalso. apply (Hseen x); [now left | exact E].
  - f_equal. apply IH; [exact Hl|].
    intros y Hy [<- | Hin]; [contradiction|].
    apply (Hseen y); [now right | exact Hin].
Qed.

Lemma NoDup_by_length (l : list string) :
  NoDup (map String.length l) -> NoDup l.
Proof. apply NoDup_map_inv. Qed.

Lemma eqb_length_neq (a b : string) :
  String.length a <> String.length b -> String.eqb a b = false.
Proof. intros H. apply String.eqb_neq. congruence. Qed.

(** X5.  The candidate addresses of a domain are always these seven, all
    different: https and http for the domain without a leading [www.] and
    with it, then the contact, team and about pages of the domain as given.
    The set never drops one of them. *)
Theorem X5_buildDiscoveryUrls_seven :
  forall domain : string,
    buildDiscoveryUrls domain = seven_candidates domain /\
    NoDup (buildDiscoveryUrls domain) /\
    List.length (buildDiscoveryUrls domain) = 7.
Proof.
  intros domain.
  unfold buildDiscoveryUrls, seven_candidates, strip_www, Js.startsWith. cbv zeta.
  destruct (prefix "www." domain) eqn:Ep.
  - apply prefix_spec in Ep. destruct Ep as [r ->].
    replace (Js.slice 4 ("www." ++ r)) with r
      by (symmetry; apply (slice_app "www." r)).
    rewrite (eqb_length_neq r ("www." ++ r))
      by (rewrite append_length; cbn [String.length]; lia).
    match goal with
    | |- Js.set_from [] ?L = _ /\ _ =>
        assert (Hnd : NoDup L);
        [ apply NoDup_by_length; cbn [map]; rewrite !append_length;
          cbn [String.length]; repeat constructor; cbn [In]; lia
        | rewrite (set_from_fixed L [] Hnd) by (intros x _ []) ]
    end.
    split; [reflexivity|]. split; [exact Hnd | reflexivity].
  - rewrite String.eqb_refl.
    match goal with
    | |- Js.set_from [] ?L = _ /\ _ =>
        assert (Hnd : NoDup L);
        [ apply NoDup_by_length; cbn [map]; rewrite !append_length;
          cbn [String.length]; repeat constructor; cbn [In]; lia
        | rewrite (set_from_fixed L [] Hnd) by (intros x _ []) ]
    end.
    split; [reflexivity|]. split; [exact Hnd | reflexivity].
Qed.

Lemma classified_or_not (emails : list string) :
  Forall (fun e => classify e = None) emails \/
  Exists (fun e => classify e <> None) emails.
Proof.
  induction emails as [|e es [IH | IH]].
  - left. constructor.
  - destruct (classify e) eqn:E.
    + right. left. congruence.
    + left. now constructor.
  - right. now right.
Qed.

Lemma selectPattern_some_met (emails : list string) (p : Pattern) :
  selectPattern emails = Some p -> Exists (fun e => classify e = Some p) emails.
Proof.
  intros H. destruct (classified_or_not emails) as [Hn | Hex].
  - rewrite (selectPattern_none emails Hn) in H. discriminate.
  - destruct (selectPattern_first_max emails Hex) as (q & Hq & Hpos & _).
    rewrite H in Hq. injection Hq as <-. now apply total_score_pos.
Qed.

Lemma selectPattern_range (emails : list string) (p : Pattern) :
  selectPattern emails = Some p -> p = FirstLast \/ p = Firstlast \/ p = First.
Proof.
  intros H. pose proof (selectPattern_some_met emails p H) as Hex.
  apply Exists_exists in Hex. destruct Hex as (e & _ & Hc).
  unfold classify in Hc.
  destruct (inferPattern_initial_rules_shadowed (local_of e)) as [H1 H2].
  destruct p; auto; congruence.
Qed.

(** X6.  No local part is classified as firstinitial.last or
    first.lastinitial: a letter, a dot and a word, or a word, a dot and a
    letter, is already taken by the first rule as first.last.  So pattern
    selection never returns one of these two either; what it returns is the
    class of one of the addresses. *)
Theorem X6_initial_patterns_never_inferred :
  (forall localPart : string,
      inferPattern localPart <> Some FirstinitialLast /\
      inferPattern localPart <> Some FirstLastinitial) /\
  (forall localPart : string,
      dotted is_single_letter is_word localPart = true \/
      dotted is_word is_single_letter localPart = true ->
      inferPattern localPart = Some FirstLast) /\
  (forall (emails : list string) (p : Pattern),
      selectPattern emails = Some p ->
      Exists (fun e => classify e = Some p) emails /\
      (p = FirstLast \/ p = Firstlast \/ p = First)).
Proof.
  split; [exact inferPattern_initial_rules_shadowed|]. split.
  - intros l H. rewrite inferPattern_rules. unfold classify_by_rules.
    assert (Hd : dotted is_word is_word l = true).
    { destruct H as [H | H];
        apply (dotted_weaken _ _ is_word is_word) in H;
        auto using single_letter_word. }
    now rewrite Hd.
  - intros emails p H. pose proof (selectPattern_some_met emails p H) as Hex.
    split; [exact Hex|].
    apply Exists_exists in Hex. destruct Hex as (e & _ & Hc).
    unfold classify in Hc.
    destruct (inferPattern_initial_rules_shadowed (local_of e)) as [H1 H2].
    destruct p; auto; congruence.
Qed.

Lemma X6_initial_patterns_never_inferred_witness :
  inferPattern "j.lee" = Some FirstLast /\
  (Exists (fun e => classify e = Some First) ["j.lee@x.io"; "bob@x.io"; "al@x.io"; "al@x.io"; "al@x.io"] /\
   (First = FirstLast \/ First = Firstlast \/ First = First)).
Proof.
  split.
  - apply (proj1 (proj2 X6_initial_patterns_never_inferred)). left. reflexivity.
  - apply (proj2 (proj2 X6_initial_patterns_never_inferred)). reflexivity.
Defined.

Section Discovery_run.

Variable World : Type.
Variable fetchHtml : string -> World -> option string * World.

Lemma try_urls_skips (domain : string) (pre rest : list string) :
  forall w : World,
    Forall (page_unclassifiable domain) (fetch_all fetchHtml pre w) ->
    try_urls World fetchHtml domain (pre ++ rest) w =
    try_urls World fetchHtml domain rest (world_after fetchHtml pre w).
Proof.
  induction pre as [|url pre IH]; intros w; simpl; [reflexivity|].
  destruct (fetchHtml url w) as [page w1]. intros H.
  inversion H as [|? ? Hpage Hrest]; subst. cbn [snd].
  destruct page as [html|]; [|now apply IH].
  destruct (Js.is_empty html); [now apply IH|].
  simpl in Hpage.
  destruct (businessEmails domain html) as [|e es] eqn:Hb; [now apply IH|].
  rewrite (selectPattern_none _ Hpage). now apply IH.
Qed.

Lemma try_urls_hit (domain url html : string) (rest : list string) (p : Pattern)
      (w : World) :
  fst (fetchHtml url w) = Some html ->
  selectPattern (businessEmails domain html) = Some p ->
  try_urls World fetchHtml domain (url :: rest) w = (Some (p, url), snd (fetchHtml url w)).
Proof.
  simpl. destruct (fetchHtml url w) as [page w1]. cbn [fst snd].
  intros -> Hp.
  destruct html as [|c html]; [discriminate|]. cbn [Js.is_empty].
  destruct (businessEmails domain (String c html)) as [|e es]; [discriminate|].
  now rewrite Hp.
Qed.

Lemma try_urls_found (domain : string) (urls : list string) :
  forall (w w' : World) (p : Pattern) (url : string),
    try_urls World fetchHtml domain urls w = (Some (p, url), w') ->
    In url urls /\ exists emails, selectPattern emails = Some p.
Proof.
  induction urls as [|u rest IH]; intros w w' p url; simpl; [discriminate|].
  destruct (fetchHtml u w) as [page w1].
  assert (G : try_urls World fetchHtml domain rest w1 = (Some (p, url), w') ->
              (u = url \/ In url rest) /\ exists emails, selectPattern emails = Some p).
  { intros H. destruct (IH _ _ _ _ H). auto. }
  destruct page as [html|]; [|exact G].
  destruct (Js.is_empty html); [exact G|].
  destruct (businessEmails domain html) as [|e es]; [exact G|].
  destruct (selectPattern (e :: es)) as [q|] eqn:Hq; [|exact G].
  intros H. injection H as <- <- _. eauto.
Qed.

End Discovery_run.

(** X7.  Discovery stops at the first candidate whose page yields a pattern:
    when the candidates before it fail or hold no classifiable address, the
    answer is that pattern with confidence high and that candidate as the
    source, and the candidates after it are not requested. *)
Theorem X7_discovery_stops_at_first_hit :
  forall (World : Type) (fetchHtml : string -> World -> option string * World)
         (domain : string) (w : World) (before after : list string)
         (url html : string) (p : Pattern),
    buildDiscoveryUrls domain = (before ++ url :: after)%list ->
    Forall (page_unclassifiable domain) (fetch_all fetchHtml before w) ->
    fst (fetchHtml url (world_after fetchHtml before w)) = Some html ->
    selectPattern (businessEmails domain html) = Some p ->
    discoverPattern World fetchHtml domain w =
    (Discovery.Make (Some p) High url,
     world_after fetchHtml (before ++ [url]) w).
Proof.
  intros World fetchHtml domain w before after url html p Hurls Hbefore Hpage Hp.
  unfold discoverPattern. rewrite Hurls.
  rewrite (try_urls_skips World fetchHtml domain before (url :: after) w Hbefore).
  rewrite (try_urls_hit World fetchHtml domain url html after p _ Hpage Hp).
  f_equal. clear. revert w.
  induction before as [|u before IH]; intros w; simpl; [reflexivity | apply IH].
Qed.

Lemma X7_discovery_stops_at_first_hit_witness :
  discoverPattern (list (option string)) scripted "acme.io"
    [None; Some "No address here."; Some "Write to sam.ray@acme.io"; Some "late@acme.io"]
  = (Discovery.Make (Some FirstLast) High "http://acme.io",
     world_after scripted
       (["https://acme.io"; "https://www.acme.io"] ++ ["http://acme.io"])
       [None; Some "No address here."; Some "Write to sam.ray@acme.io"; Some "late@acme.io"]).
Proof.
  apply (X7_discovery_stops_at_first_hit (list (option string)) scripted "acme.io" _
           ["https://acme.io"; "https://www.acme.io"]
           ["http://www.acme.io"; "https://acme.io/contact"; "https://acme.io/team";
            "https://acme.io/about"]
           "http://acme.io" "Write to sam.ray@acme.io" FirstLast).
  - reflexivity.
  - vm_compute. repeat constructor.
  - reflexivity.
  - reflexivity.
Defined.

Lemma first_hint_In (hs : list (Pattern * list string)) (domain : string) (p : Pattern) :
  first_hint hs domain = Some p -> In p (map fst hs).
Proof.
  induction hs as [|[q kws] hs IH]; simpl; [discriminate|].
  destruct (existsb _ kws); [intros H; injection H as ->; now left | auto].
Qed.

Lemma guessPatternFromDomain_range (domain : string) :
  guessPatternFromDomain domain <> Some First /\
  guessPatternFromDomain domain <> Some FirstLastinitial.
Proof.
  split; intros H; apply first_hint_In in H; simpl in H;
    intuition discriminate.
Qed.

(** X8.  What discovery answers is consistent: it has no pattern exactly
    when its confidence is low; with confidence high the source is one of the
    candidate addresses and the pattern is first.last, firstlast or first;
    with confidence medium or low the source is https://domain and the
    pattern is neither first nor first.lastinitial. *)
Theorem X8_discovery_consistent :
  forall (World : Type) (fetchHtml : string -> World -> option string * World)
         (domain : string) (w : World),
    let found := fst (discoverPattern World fetchHtml domain w) in
    (Discovery.confidence found = Low <-> Discovery.pattern found = None) /\
    (Discovery.confidence found = High ->
     In (Discovery.source found) (buildDiscoveryUrls domain) /\
     (Discovery.pattern found = Some FirstLast \/
      Discovery.pattern found = Some Firstlast \/
      Discovery.pattern found = Some First)) /\
    (Discovery.confidence found <> High ->
     Discovery.source found = "https://" ++ domain /\
     Discovery.pattern found <> Some First /\
     Discovery.pattern found <> Some FirstLastinitial).
Proof.
  intros World fetchHtml domain w found. subst found. unfold discoverPattern.
  destruct (try_urls World fetchHtml domain (buildDiscoveryUrls domain) w)
    as [[[p url]|] w1] eqn:E.
  - apply try_urls_found in E. destruct E as [Hin (emails & Hp)].
    apply selectPattern_range in Hp.
    cbn [fst Discovery.confidence Discovery.pattern Discovery.source].
    split; [split; discriminate|]. split.
    + intros _. split; [exact Hin|].
      destruct Hp as [-> | [-> | ->]]; auto.
    + congruence.
  - destruct (guessPatternFromDomain_range domain) as [G1 G2].
    destruct (guessPatternFromDomain domain) as [p|];
      cbn [fst Discovery.confidence Discovery.pattern Discovery.source].
    + split; [split; discriminate|]. split; [discriminate|].
      intros _. repeat split; congruence.
    + split; [split; reflexivity|]. split; [discriminate|].
      intros _. repeat split; congruence.
Qed.

Lemma X8_discovery_consistent_witness :
  let found :=
    fst (discoverPattern unit (one_page "Reach bob@acme.co today.") "acme.co" tt) in
  In (Discovery.source found) (buildDiscoveryUrls "acme.co") /\
  (Discovery.pattern found = Some FirstLast \/
   Discovery.pattern found = Some Firstlast \/
   Discovery.pattern found = Some First).
Proof.
  intros found.
  apply (proj1 (proj2 (X8_discovery_consistent unit
                         (one_page "Reach bob@acme.co today.") "acme.co" tt))).
  reflexivity.
Defined.

Lemma contains_studio_io (domain : string) :
  contains "studio" domain -> contains "io" domain.
Proof.
  intros (a & b & ->). exists (a ++ "stud"), b.
  rewrite append_assoc. reflexivity.
Qed.

(** X9.  The keyword studio never selects firstlast: a domain that contains
    studio contains io, which the first hint takes, so the guess is
    first.last; firstlast is guessed only for a domain that contains media or
    creative. *)
Theorem X9_studio_keyword_shadowed :
  forall domain : string,
    (contains "studio" domain -> guessPatternFromDomain domain = Some FirstLast) /\
    (guessPatternFromDomain domain = Some Firstlast ->
     any_keyword ["media"; "creative"] domain).
Proof.
  intros domain.
  destruct (guessPatternFromDomain_spec domain) as (G1 & G2 & G3 & G4).
  assert (S : contains "studio" domain ->
              any_keyword ["io"; "tech"; "systems"; "labs"] domain).
  { intros H. left. now apply contains_studio_io. }
  split; [intros H; apply G1; auto|].
  intros H.
  unfold guessPatternFromDomain, hints in H. cbn [first_hint] in H.
  destruct (existsb (fun keyword => Js.includes keyword domain)
                    ["io"; "tech"; "systems"; "labs"]) eqn:E1; [discriminate|].
  destruct (existsb (fun keyword => Js.includes keyword domain)
                    ["finance"; "bank"; "capital"]) eqn:E2; [discriminate|].
  destruct (existsb (fun keyword => Js.includes keyword domain)
                    ["media"; "creative"; "studio"]) eqn:E3; [|discriminate].
  apply existsb_includes in E3. unfold any_keyword in *.
  rewrite !Exists_cons in E3. rewrite !Exists_cons.
  destruct E3 as [H1 | [H2 | [H3 | H4]]]; auto.
  exfalso. apply S in H3. apply existsb_includes in H3. congruence.
Qed.

Lemma X9_studio_keyword_shadowed_witness :
  guessPatternFromDomain "brightstudio.com" = Some FirstLast.
Proof.
  apply (proj1 (X9_studio_keyword_shadowed "brightstudio.com")).
  exists "bright", ".com". reflexivity.
Defined.

(* ================================================================== *)
(** ** More on the identifier parser and on synthesis *)
(* ================================================================== *)

Lemma filter_chars_all (p : ascii -> bool) (s : string) :
  Js.all_chars p (Js.filter_chars p s) = true.
Proof.
  induction s as [|c s IH]; simpl; [reflexivity|].
  destruct (p c) eqn:E; [simpl; now rewrite E | exact IH].
Qed.

Lemma filter_nonempty_In (x : string) (l : list string) :
  In x (Js.filter_nonempty l) <-> In x l /\ x <> EmptyString.
Proof.
  unfold Js.filter_nonempty. rewrite filter_In, negb_true_iff, is_empty_false. tauto.
Qed.

Lemma cleaned_tokens_words (tokens : list string) (x : string) :
  In x (Js.filter_nonempty (map letters_only tokens)) -> is_word x = true.
Proof.
  rewrite filter_nonempty_In, in_map_iff. intros [(t & <- & _) Hne].
  unfold is_word. rewrite andb_true_iff, negb_true_iff, is_empty_false.
  split; [exact Hne | apply filter_chars_all].
Qed.

Lemma capitalize_nonempty (w : string) :
  is_word w = true -> Js.is_empty (capitalize w) = false.
Proof. destruct w; [discriminate | reflexivity]. Qed.

Lemma upper_of_lower (c : ascii) :
  Js.is_lower c = true ->
  Js.is_letter (Js.upper_char c) = true /\ Js.lower_char (Js.upper_char c) = c.
Proof.
  destruct c as [[] [] [] [] [] [] [] []]; vm_compute; intuition congruence.
Qed.

Lemma lower_of_lower (c : ascii) : Js.is_lower c = true -> Js.lower_char c = c.
Proof.
  destruct c as [[] [] [] [] [] [] [] []]; vm_compute; congruence.
Qed.

Lemma letter_nfd (c : ascii) :
  Js.is_letter c = true -> Js.nfd_char c = [Js.code c].
Proof.
  destruct c as [[] [] [] [] [] [] [] []]; vm_compute; congruence.
Qed.

Lemma letter_code_kept (c : ascii) :
  Js.is_letter c = true ->
  negb ((768 <=? Js.code c)%N && (Js.code c <=? 879)%N) = true /\
  ((Js.code c <? 256)%N && Js.is_letter (ascii_of_N (Js.code c))) = true /\
  ascii_of_N (Js.code c) = c.
Proof.
  destruct c as [[] [] [] [] [] [] [] []]; vm_compute; intuition congruence.
Qed.

Lemma toLowerCase_word (s : string) :
  Js.all_chars Js.is_lower s = true -> Js.toLowerCase s = s.
Proof.
  unfold Js.toLowerCase. induction s as [|c s IH]; simpl; [reflexivity|].
  rewrite andb_true_iff. intros [Hc Hs]. now rewrite (lower_of_lower c Hc), IH.
Qed.

(** On a string of ASCII letters sanitizing is lower-casing. *)
Lemma sanitizePart_letters (s : string) :
  Js.all_chars Js.is_letter s = true ->
  sanitizePart (Some s) = Js.toLowerCase s.
Proof.
  intros H. unfold sanitizePart.
  destruct (Js.is_empty s) eqn:E; [apply is_empty_true in E; now subst|].
  clear E. f_equal.
  induction s as [|c s IH]; [reflexivity|].
  simpl in H. apply andb_true_iff in H. destruct H as [Hc Hs].
  cbn [Js.normalizeNFD]. rewrite (letter_nfd c Hc).
  destruct (letter_code_kept c Hc) as (K1 & K2 & K3).
  cbn [app filter]. rewrite K1. cbn [filter]. rewrite K2.
  cbn [Js.of_codes]. rewrite K3. f_equal. now apply IH.
Qed.

Lemma lower_is_letter (s : string) :
  Js.all_chars Js.is_lower s = true -> Js.all_chars Js.is_letter s = true.
Proof.
  apply all_chars_impl. intros c H. unfold Js.is_letter. now rewrite H.
Qed.

Lemma sanitizePart_word (s : string) :
  Js.all_chars Js.is_lower s = true -> sanitizePart (Some s) = s.
Proof.
  intros H. rewrite sanitizePart_letters by now apply lower_is_letter.
  now apply toLowerCase_word.
Qed.

Lemma capitalize_letters (w : string) :
  is_word w = true ->
  Js.all_chars Js.is_letter (capitalize w) = true /\
  Js.toLowerCase (capitalize w) = w.
Proof.
  unfold is_word. rewrite andb_true_iff. intros [_ H].
  destruct w as [|c w]; [auto|].
  simpl in H. apply andb_true_iff in H. destruct H as [Hc Hw].
  destruct (upper_of_lower c Hc) as [U1 U2]. split.
  - simpl. rewrite U1. now apply lower_is_letter.
  - unfold Js.toLowerCase. simpl. rewrite U2. f_equal.
    now apply toLowerCase_word.
Qed.

(** Sanitizing gives back the word that was capitalized. *)
Lemma sanitizePart_capitalize (w : string) :
  is_word w = true -> sanitizePart (Some (capitalize w)) = w.
Proof.
  intros H. destruct (capitalize_letters w H) as [H1 H2].
  now rewrite sanitizePart_letters.
Qed.

(** X10.  Sanitizing a name twice is sanitizing it once; a name already made
    of the letters a-z is left as it is; and a string of ASCII letters is
    just lower-cased. *)
Theorem X10_sanitizePart_idempotent :
  (forall value : option string,
      sanitizePart (Some (sanitizePart value)) = sanitizePart value) /\
  (forall s : string,
      Js.all_chars Js.is_lower s = true -> sanitizePart (Some s) = s) /\
  (forall s : string,
      Js.all_chars Js.is_letter s = true ->
      sanitizePart (Some s) = Js.toLowerCase s).
Proof.
  split; [|split].
  - intros value. apply sanitizePart_word, sanitizePart_lower.
  - exact sanitizePart_word.
  - exact sanitizePart_letters.
Qed.

Lemma X10_sanitizePart_idempotent_witness :
  sanitizePart (Some "lee") = "lee" /\
  sanitizePart (Some "McAdam") = Js.toLowerCase "McAdam".
Proof.
  split.
  - apply (proj1 (proj2 X10_sanitizePart_idempotent)). reflexivity.
  - apply (proj2 (proj2 X10_sanitizePart_idempotent)). reflexivity.
Defined.

Lemma last_In {A : Type} (l : list A) (d : A) : l <> [] -> In (last l d) l.
Proof.
  induction l as [|x [|y l] IH]; intros H; [congruence | now left |].
  right. apply IH. discriminate.
Qed.

Lemma splitNameTokens_spec (tokens : list string) (firstName : string)
      (lastName : option string) :
  splitNameTokens tokens = (Some firstName, lastName) ->
  capitalized firstName /\
  match lastName with
  | None => True
  | Some l => capitalized l
  end.
Proof.
  unfold splitNameTokens. destruct tokens as [|t ts]; [discriminate|].
  destruct (Js.filter_nonempty (map letters_only (t :: ts))) as [|f others] eqn:E;
    [discriminate|].
  assert (W : forall x, In x (f :: others) -> is_word x = true).
  { intros x Hx. rewrite <- E in Hx. now apply cleaned_tokens_words in Hx. }
  intros H. injection H as <- <-. split.
  - exists f. split; [apply W; now left | reflexivity].
  - destruct (Nat.ltb _ _); [|exact I].
    exists (last (f :: others) EmptyString). split; [|reflexivity].
    apply W. apply last_In. discriminate.
Qed.

Lemma full_name_spec (firstName : string) (lastName : option string) :
  Js.is_empty firstName = false ->
  match lastName with
  | None => full_name firstName lastName = firstName
  | Some l => Js.is_empty l = false -> full_name firstName lastName = firstName ++ " " ++ l
  end.
Proof.
  intros Hf. unfold full_name, Js.filter_nonempty.
  destruct lastName as [l|]; cbn [filter]; rewrite Hf; cbn [negb].
  - intros Hl. rewrite Hl. reflexivity.
  - reflexivity.
Qed.

(** X11.  The parser gives at most one contact for a reference, and none for
    a value that is not a string.  The contact carries the company it was
    given and the trimmed reference as its source; its first name is a
    capitalized word; its last name, when there is one, is a capitalized
    word too, and the full name is the first name, a space and the last
    name; without a last name the full name is the first name. *)
Theorem X11_contact_well_formed :
  forall (parseURL : string -> option URL) (v : JSON) (company : string)
         (contact : Contact.t),
    In contact (extractContactFromLinkedIn parseURL v company) ->
    extractContactFromLinkedIn parseURL v company = [contact] /\
    (exists url, v = JStr url /\ Contact.source contact = Js.trim url) /\
    Contact.company contact = company /\
    capitalized (Contact.firstName contact) /\
    match Contact.lastName contact with
    | None => Contact.fullName contact = Contact.firstName contact
    | Some l =>
        capitalized l /\
        Contact.fullName contact = Contact.firstName contact ++ " " ++ l
    end.
Proof.
  intros parseURL v company contact. unfold extractContactFromLinkedIn.
  destruct v as [| | | url | |]; try contradiction.
  destruct (Js.is_empty url); [contradiction|].
  destruct (Js.is_empty (Js.trim url)); [contradiction|].
  destruct (classify_tokens (tokenize (slug_of parseURL (Js.trim url))) [] [])
    as [roles names].
  destruct names as [|n ns]; [contradiction|].
  destruct (splitNameTokens (n :: ns)) as [[firstName|] lastName] eqn:E;
    [|contradiction].
  destruct (Js.is_empty firstName) eqn:Hf; [contradiction|].
  intros [<- | []].
  destruct (splitNameTokens_spec _ _ _ E) as [Cf Cl].
  cbn [Contact.source Contact.company Contact.firstName Contact.lastName
       Contact.fullName].
  split; [reflexivity|]. split; [eauto|]. split; [reflexivity|].
  split; [exact Cf|].
  pose proof (full_name_spec firstName lastName Hf) as Hn.
  destruct lastName as [l|]; [|exact Hn].
  split; [exact Cl|]. apply Hn.
  destruct Cl as (w & Hw & ->). now apply capitalize_nonempty.
Qed.

Lemma X11_contact_well_formed_witness :
  let contact :=
    Contact.Make "Jane" (Some "Co") "Jane Co" "Founder" "Acme" "x.com/in/jane-doe-co-founder" in
  extractContactFromLinkedIn url_parse (JStr " x.com/in/jane-doe-co-founder ") "Acme"
    = [contact] /\
  capitalized (Contact.firstName contact).
Proof.
  intros contact.
  destruct (X11_contact_well_formed url_parse
              (JStr " x.com/in/jane-doe-co-founder ") "Acme" contact)
    as (H1 & _ & _ & H4 & _).
  - left. reflexivity.
  - auto.
Defined.

Section Parsed_contacts.

Variable parseURL : string -> option URL.

Lemma parsed_contact_names (v : JSON) (company : string) (contact : Contact.t) :
  In contact (extractContactFromLinkedIn parseURL v company) ->
  Js.is_empty (sanitizePart (Some (Contact.firstName contact))) = false /\
  sanitizePart (Some (Contact.firstName contact))
    = Js.toLowerCase (Contact.firstName contact) /\
  match Contact.lastName contact with
  | None => True
  | Some l =>
      Js.is_empty (sanitizePart (Some l)) = false /\
      sanitizePart (Some l) = Js.toLowerCase l
  end.
Proof.
  intros H.
  assert (G : forall s, capitalized s ->
              Js.is_empty (sanitizePart (Some s)) = false /\
              sanitizePart (Some s) = Js.toLowerCase s).
  { intros s (w & Hw & ->).
    destruct (capitalize_letters w Hw) as [L1 L2].
    rewrite sanitizePart_capitalize, L2 by assumption.
    split; [|reflexivity]. destruct w; [discriminate | reflexivity]. }
  unfold extractContactFromLinkedIn in H.
  destruct v as [| | | url | |]; try contradiction.
  destruct (Js.is_empty url); [contradiction|].
  destruct (Js.is_empty (Js.trim url)); [contradiction|].
  destruct (classify_tokens (tokenize (slug_of parseURL (Js.trim url))) [] [])
    as [roles names].
  destruct names as [|n ns]; [contradiction|].
  destruct (splitNameTokens (n :: ns)) as [[firstName|] lastName] eqn:E;
    [|contradiction].
  destruct (Js.is_empty firstName) eqn:Hf; [contradiction|].
  destruct H as [<- | []].
  destruct (splitNameTokens_spec _ _ _ E) as [Cf Cl].
  cbn [Contact.firstName Contact.lastName].
  destruct (G firstName Cf) as [G1 G2].
  split; [exact G1|]. split; [exact G2|].
  destruct lastName as [l|]; [apply G; exact Cl | exact I].
Qed.

End Parsed_contacts.

(** X12.  Every contact the parser gives can be addressed: under the pattern
    first it gets the lower-cased first name at the domain; an address fails
    to build exactly when the contact has no last name and the pattern is one
    of the four two-part ones; and when discovery found no pattern, the
    fallback always yields a row, so no parsed contact is dropped then. *)
Theorem X12_parsed_contact_gets_address :
  forall (parseURL : string -> option URL) (v : JSON) (company : string)
         (contact : Contact.t),
    In contact (extractContactFromLinkedIn parseURL v company) ->
    (forall domain,
        buildEmail contact domain First
        = Some (Js.toLowerCase (Contact.firstName contact) ++ "@" ++ domain)) /\
    (forall domain p,
        buildEmail contact domain p = None <->
        Contact.lastName contact = None /\ two_part p = true) /\
    (forall (company' domain : string) (found : Discovery.t),
        Discovery.pattern found = None ->
        exists row, emit company' domain found contact = Some row).
Proof.
  intros parseURL v company contact Hin.
  destruct (parsed_contact_names parseURL v company contact Hin) as (F1 & F2 & L).
  assert (B : forall domain p,
             buildEmail contact domain p = None <->
             Contact.lastName contact = None /\ two_part p = true).
  { intros domain p. rewrite buildEmail_spec. cbv zeta. rewrite F1. cbn [negb andb].
    destruct (Contact.lastName contact) as [l|].
    - destruct L as [L1 _]. rewrite L1. cbn [negb]. rewrite orb_true_r.
      split; [discriminate | intros [? _]; discriminate].
    - cbn [sanitizePart Js.is_empty negb]. rewrite orb_false_r.
      destruct (two_part p); cbn [negb]; split; auto; try discriminate.
      intros [_ ?]. discriminate. }
  split; [|split; [exact B|]].
  - intros domain. rewrite buildEmail_spec. cbv zeta. rewrite F1, F2. reflexivity.
  - intros company' domain found Hnone. unfold emit. rewrite Hnone.
    rewrite chooseFallbackPattern_spec.
    destruct (buildEmail contact domain
                (if lacks_last_name contact then First else FirstLast))
      as [email|] eqn:E.
    + assert (Hne : Js.is_empty email = false).
      { rewrite buildEmail_spec in E. cbv zeta in E.
        destruct (negb _ && _); [|discriminate]. injection E as <-.
        rewrite append_empty. cbn [append Js.is_empty]. apply andb_false_r. }
      rewrite Hne. eauto.
    + apply B in E. destruct E as [El Ep].
      unfold lacks_last_name in Ep. rewrite El in Ep. discriminate.
Qed.

Lemma X12_parsed_contact_gets_address_witness :
  let contact :=
    Contact.Make "Madonna" None "Madonna" "Decision Maker" "Acme" "madonna-1958" in
  (forall domain,
      buildEmail contact domain First
      = Some (Js.toLowerCase (Contact.firstName contact) ++ "@" ++ domain)) /\
  (forall domain p,
      buildEmail contact domain p = None <->
      Contact.lastName contact = None /\ two_part p = true) /\
  (forall (company' domain : string) (found : Discovery.t),
      Discovery.pattern found = None ->
      exists row, emit company' domain found contact = Some row).
Proof.
  intros contact.
  apply (X12_parsed_contact_gets_address url_parse (JStr "madonna-1958") "Acme").
  left. reflexivity.
Defined.

(* ================================================================== *)
(** ** Tokens, keywords and rows *)
(* ================================================================== *)

Lemma lower_word_neq (w k : string) :
  Js.all_chars Js.is_lower w = true ->
  Js.all_chars Js.is_lower k = false ->
  String.eqb w k = false.
Proof.
  intros Hw Hk. apply String.eqb_neq. intros ->. congruence.
Qed.

(** X13.  The keywords co-founder and c-suite of the role table can never
    match: a token is compared after everything but a-z was removed from it,
    so it holds no hyphen.  The role of a token is the one found in the
    table without these two keywords. *)
Theorem X13_hyphenated_keywords_dead :
  forall token : string,
    letters_only token <> "co-founder" /\
    letters_only token <> "c-suite" /\
    find_role (letters_only token) = lookup_role effective_keywords (letters_only token).
Proof.
  intros token.
  pose proof (filter_chars_all Js.is_lower token) as Hl.
  fold (letters_only token) in Hl.
  assert (E1 : String.eqb (letters_only token) "co-founder" = false)
    by (apply lower_word_neq; [exact Hl | reflexivity]).
  assert (E2 : String.eqb (letters_only token) "c-suite" = false)
    by (apply lower_word_neq; [exact Hl | reflexivity]).
  split; [now apply String.eqb_neq|]. split; [now apply String.eqb_neq|].
  unfold find_role, lookup_role, ROLE_KEYWORDS, effective_keywords.
  cbn [find existsb fst snd]. rewrite E1, E2.
  rewrite !orb_false_r. cbn [orb].
  repeat match goal with
         | |- context [if ?b then _ else _] => destruct b; [reflexivity|]
         end.
  reflexivity.
Qed.

Lemma split_runs_pieces (cls P : ascii -> bool) (s : string) :
  Js.all_chars P s = true ->
  forall (insep : bool) (piece : string),
    In piece (Js.split_runs cls insep s) ->
    Js.all_chars (fun c => P c && negb (cls c)) piece = true.
Proof.
  induction s as [|c s IH]; intros H insep piece; simpl.
  - intros [<- | []]. reflexivity.
  - simpl in H. apply andb_true_iff in H. destruct H as [Hc Hs].
    destruct (cls c) eqn:E.
    + destruct insep; [now apply IH|].
      intros [<- | Hin]; [reflexivity | now apply (IH Hs true)].
    + destruct (Js.split_runs cls false s) as [|x xs] eqn:Ex.
      * intros [<- | []]. simpl. now rewrite Hc, E.
      * intros [<- | Hin].
        -- simpl. rewrite Hc, E. simpl.
           apply (IH Hs false). rewrite Ex. now left.
        -- apply (IH Hs false). rewrite Ex. now right.
Qed.

Lemma slug_chars_kept (s : string) :
  Js.all_chars slug_char
    (Js.map_chars (fun c => if slug_char c then c else " "%char) s) = true.
Proof.
  induction s as [|c s IH]; simpl; [reflexivity|].
  rewrite IH, andb_true_r. destruct (slug_char c) eqn:E; [exact E | reflexivity].
Qed.

(** X14.  The tokens of a slug are never empty and hold only the letters a-z
    and digits: upper case is folded, every other character separates. *)
Theorem X14_tokens_alphanumeric :
  forall slug token : string,
    In token (tokenize slug) ->
    token <> EmptyString /\
    Js.all_chars (fun c => Js.is_lower c || Js.is_digit c) token = true.
Proof.
  intros slug token. unfold tokenize. rewrite filter_nonempty_In.
  intros [Hin Hne]. split; [exact Hne|].
  apply (split_runs_pieces slug_sep slug_char _ (slug_chars_kept _)) in Hin.
  eapply all_chars_impl; [|exact Hin].
  intros c. unfold slug_char, slug_sep.
  destruct (Js.is_lower c), (Js.is_digit c), (Ascii.eqb c "-"), (Ascii.eqb c "_"),
    (Js.is_space c); simpl; congruence.
Qed.

Lemma X14_tokens_alphanumeric_witness :
  "lee2" <> EmptyString /\
  Js.all_chars (fun c => Js.is_lower c || Js.is_digit c) "lee2" = true.
Proof.
  apply (X14_tokens_alphanumeric "Jordan.LEE2--ceo" "lee2").
  right. left. reflexivity.
Defined.

Lemma filter_nonempty_app (a b : list string) :
  Js.filter_nonempty (a ++ b) = (Js.filter_nonempty a ++ Js.filter_nonempty b)%list.
Proof. unfold Js.filter_nonempty. apply filter_app. Qed.

(** X15.  Only the first and the last name token count: with a first and a
    last token that hold letters, the names are their letters, capitalized,
    whatever stands between them; a single such token gives a first name and
    no last name. *)
Theorem X15_middle_tokens_ignored :
  forall (a b : string) (middle : list string),
    letters_only a <> EmptyString ->
    letters_only b <> EmptyString ->
    splitNameTokens (a :: middle ++ [b])%list
    = (Some (capitalize (letters_only a)), Some (capitalize (letters_only b))) /\
    splitNameTokens [a] = (Some (capitalize (letters_only a)), None).
Proof.
  intros a b middle Ha Hb.
  apply is_empty_false in Ha. apply is_empty_false in Hb.
  split.
  - assert (E : Js.filter_nonempty (map letters_only (a :: middle ++ [b]))
              = ((letters_only a :: Js.filter_nonempty (map letters_only middle))
                 ++ [letters_only b])%list).
    { unfold Js.filter_nonempty. cbn [map filter]. rewrite Ha. cbn [negb].
      rewrite map_app, filter_app. cbn [map filter]. rewrite Hb. reflexivity. }
    unfold splitNameTokens. rewrite E.
    rewrite last_last, length_app. cbn [app List.length].
    replace (1 <? _)%nat with true by (symmetry; apply Nat.ltb_lt; lia).
    reflexivity.
  - unfold splitNameTokens, Js.filter_nonempty. cbn [map filter].
    rewrite Ha. reflexivity.
Qed.

Lemma X15_middle_tokens_ignored_witness :
  splitNameTokens ("mary" :: ["ann"; "x9"; "van"; "der"] ++ ["berg7"])%list
  = (Some (capitalize (letters_only "mary")), Some (capitalize (letters_only "berg7"))) /\
  splitNameTokens ["mary"] = (Some (capitalize (letters_only "mary")), None).
Proof.
  apply (X15_middle_tokens_ignored "mary" "berg7" ["ann"; "x9"; "van"; "der"]);
    discriminate.
Defined.

Lemma lower_or_dot_free_of_at (s : string) :
  Js.all_chars lower_or_dot s = true -> free_of "@" s = true.
Proof.
  apply all_chars_impl. intros c H.
  destruct (Ascii.eqb c "@") eqn:E; [|reflexivity].
  apply Ascii.eqb_eq in E. subst c. discriminate.
Qed.

Lemma local_of_address (localPart host : string) :
  free_of "@" localPart = true ->
  local_of (localPart ++ "@" ++ host) = localPart.
Proof.
  intros H. unfold local_of.
  change ("@" ++ host) with (String "@" host).
  now rewrite (split_app "@" localPart host H).
Qed.

Lemma lower_is_lower_or_dot (s : string) :
  Js.all_chars Js.is_lower s = true -> Js.all_chars lower_or_dot s = true.
Proof.
  apply all_chars_impl. intros c H. unfold lower_or_dot. now rewrite H.
Qed.

Lemma local_template_chars (p : Pattern) (first last : string) :
  Js.all_chars Js.is_lower first = true ->
  Js.all_chars Js.is_lower last = true ->
  Js.all_chars lower_or_dot (local_template p first last) = true.
Proof.
  intros Hf Hl.
  pose proof (lower_is_lower_or_dot _ Hf) as Ff.
  pose proof (lower_is_lower_or_dot _ Hl) as Fl.
  pose proof (lower_is_lower_or_dot _ (charAt0_lower _ Hf)) as Ff0.
  pose proof (lower_is_lower_or_dot _ (charAt0_lower _ Hl)) as Fl0.
  destruct p; cbn [local_template]; rewrite ?all_chars_app, ?Ff, ?Fl, ?Ff0, ?Fl0;
    reflexivity.
Qed.

(** What [buildEmail] returns, with the facts about the two names. *)
Lemma buildEmail_some (contact : Contact.t) (domain : string) (p : Pattern)
      (email : string) :
  buildEmail contact domain p = Some email ->
  let first := sanitizePart (Some (Contact.firstName contact)) in
  let last := sanitizePart (Contact.lastName contact) in
  email = local_template p first last ++ "@" ++ domain /\
  is_word first = true /\
  (two_part p = true -> is_word last = true).
Proof.
  rewrite buildEmail_spec. cbv zeta.
  destruct (negb (Js.is_empty (sanitizePart (Some (Contact.firstName contact)))))
    eqn:Ef; [|discriminate].
  cbn [andb].
  destruct (negb (two_part p) || negb (Js.is_empty (sanitizePart (Contact.lastName contact))))
    eqn:El; [|discriminate].
  intros H. injection H as <-. split; [reflexivity|].
  unfold is_word. rewrite !sanitizePart_lower, !andb_true_r. split; [exact Ef|].
  intros Hp. rewrite Hp in El. exact El.
Qed.

Lemma word_not_dotted (P Q : string -> bool) (w : string) :
  is_word w = true -> dotted P Q w = false.
Proof.
  intros H. unfold dotted. now rewrite (split_free "." w (word_free_of_dot w H)).
Qed.

Lemma charAt0_single_letter (w : string) :
  is_word w = true -> is_single_letter (Js.charAt0 w) = true.
Proof.
  unfold is_word. destruct w as [|c w]; [discriminate|]. simpl.
  rewrite andb_true_iff. tauto.
Qed.

Lemma classify_word (w : string) :
  is_word w = true ->
  inferPattern w = Some (if (4 <=? String.length w)%nat then Firstlast else First).
Proof.
  intros H. rewrite inferPattern_rules. unfold classify_by_rules.
  rewrite !(word_not_dotted _ _ w H), H. cbn [andb].
  destruct (4 <=? String.length w)%nat; reflexivity.
Qed.

Lemma classify_dotted (a b : string) :
  is_word a = true -> is_word b = true ->
  inferPattern (a ++ "." ++ b) = Some FirstLast.
Proof.
  intros Ha Hb. rewrite inferPattern_rules. unfold classify_by_rules.
  assert (H : dotted is_word is_word (a ++ "." ++ b) = true).
  { apply dotted_words_spec; auto. exists a, b. auto. }
  now rewrite H.
Qed.

(** X16.  How a synthesized address is classified when it is read back from
    a page: one built under first.last, firstinitial.last or
    first.lastinitial is classified first.last; one built under firstlast or
    first is classified firstlast when its local part has at least four
    letters, and first otherwise.  So only first.last always comes back as
    the pattern it was built with. *)
Theorem X16_synthesized_address_class :
  forall (contact : Contact.t) (domain : string) (p : Pattern) (email : string),
    buildEmail contact domain p = Some email ->
    email = local_of email ++ "@" ++ domain /\
    Js.all_chars lower_or_dot (local_of email) = true /\
    classify email = Some (class_of_synthesized p (local_of email)).
Proof.
  intros contact domain p email H.
  destruct (buildEmail_some contact domain p email H) as (E & Wf & Wl).
  cbv zeta in E, Wf, Wl.
  set (first := sanitizePart (Some (Contact.firstName contact))) in *.
  set (last := sanitizePart (Contact.lastName contact)) in *.
  assert (C : Js.all_chars lower_or_dot (local_template p first last) = true)
    by (apply local_template_chars; apply sanitizePart_lower).
  assert (L : local_of email = local_template p first last).
  { rewrite E. apply local_of_address. now apply lower_or_dot_free_of_at. }
  unfold classify. rewrite L. split; [exact E|]. split; [exact C|].
  destruct p; cbn [local_template class_of_synthesized two_part] in *.
  - apply classify_dotted; auto.
  - apply classify_word. apply is_word_app; auto.
  - apply classify_dotted; auto.
    apply single_letter_word. now apply charAt0_single_letter.
  - apply classify_dotted; auto.
    apply single_letter_word. apply charAt0_single_letter. auto.
  - now apply classify_word.
Qed.

Lemma X16_synthesized_address_class_witness :
  let jordan := Contact.Make "Jordan" (Some "Lee") "Jordan Lee" "CEO" "Acme" "s" in
  classify "j.lee@acme.io" = Some (class_of_synthesized FirstinitialLast (local_of "j.lee@acme.io")) /\
  classify "jordan@acme.io" = Some (class_of_synthesized First (local_of "jordan@acme.io")).
Proof.
  intros jordan. split.
  - apply (X16_synthesized_address_class jordan "acme.io" FirstinitialLast). reflexivity.
  - apply (X16_synthesized_address_class jordan "acme.io" First). reflexivity.
Defined.

(** X17.  The confidence of a row is never above the confidence of the
    discovery; a row has confidence high only when discovery had it, the
    contact has a last name and the pattern applied is not first; a row for
    a contact without a last name is never high. *)
Theorem X17_confidence_never_raised :
  forall (company domain : string) (found : Discovery.t) (contact : Contact.t)
         (row : Result.t),
    emit company domain found contact = Some row ->
    tier_rank (Result.confidence row) <= tier_rank (Discovery.confidence found) /\
    (Result.confidence row = High ->
     Discovery.confidence found = High /\
     lacks_last_name contact = false /\
     applied_pattern (Discovery.pattern found) contact <> First) /\
    (lacks_last_name contact = true -> Result.confidence row <> High).
Proof.
  intros company domain found contact row H.
  destruct (emit_row_facts company domain found contact row H) as [_ Hc].
  rewrite Hc.
  destruct (lacks_last_name contact);
    destruct (applied_pattern (Discovery.pattern found) contact);
    destruct (Discovery.confidence found); cbn;
    repeat split; try lia; try congruence; try discriminate.
Qed.

Lemma X17_confidence_never_raised_witness :
  let madonna := Contact.Make "Madonna" None "Madonna" "Decision Maker" "Acme" "madonna" in
  let found := Discovery.Make (Some First) High "https://acme.io/team" in
  let row := Result.Make "Madonna" "Decision Maker" "Acme" "madonna@acme.io" Medium
               "madonna | https://acme.io/team" in
  tier_rank (Result.confidence row) <= tier_rank (Discovery.confidence found) /\
  Result.confidence row <> High.
Proof.
  intros madonna found row.
  destruct (X17_confidence_never_raised "Acme" "acme.io" found madonna row)
    as (H1 & _ & H3).
  - reflexivity.
  - split; [exact H1 | apply H3; reflexivity].
Defined.

(** X18.  Every row that is pushed names a company: the company of the
    entry, or the literal Unknown company when the entry has none.  It
    carries the full name and the role of the contact, and its source is the
    source of the contact and the source of the discovery joined by a bar,
    or the one of the two that is not empty. *)
Theorem X18_row_fields :
  forall (company domain : string) (found : Discovery.t) (contact : Contact.t)
         (row : Result.t),
    emit company domain found contact = Some row ->
    Result.company row <> EmptyString /\
    (company <> EmptyString -> Result.company row = company) /\
    (company = EmptyString -> Contact.company contact = EmptyString ->
     Result.company row = "Unknown company") /\
    Result.name row = Contact.fullName contact /\
    Result.role row = Contact.role contact /\
    (Contact.source contact <> EmptyString ->
     Discovery.source found <> EmptyString ->
     Result.source row = Contact.source contact ++ " | " ++ Discovery.source found) /\
    (Contact.source contact = EmptyString ->
     Result.source row = Discovery.source found).
Proof.
  intros company domain found contact row. unfold emit.
  destruct (match Discovery.pattern found with
            | Some p => Some p
            | None => chooseFallbackPattern contact
            end) as [p|]; [|discriminate].
  destruct (buildEmail contact domain p) as [email|]; [|discriminate].
  destruct (Js.is_empty email); [discriminate|].
  intros H. injection H as <-.
  cbn [Result.company Result.name Result.role Result.source].
  split; [|split; [|split; [|split; [|split; [|split]]]]]; try reflexivity.
  - destruct company as [|c company]; cbn [Js.is_empty negb]; [|discriminate].
    destruct (Contact.company contact); cbn [Js.is_empty negb]; discriminate.
  - destruct company; [congruence | reflexivity].
  - intros -> ->. reflexivity.
  - intros Hs Hd. unfold Js.filter_nonempty. cbn [filter].
    apply is_empty_false in Hs, Hd. rewrite Hs, Hd. reflexivity.
  - intros ->. unfold Js.filter_nonempty. cbn [filter Js.is_empty negb].
    destruct (Js.is_empty (Discovery.source found)) eqn:E; cbn [negb Js.join].
    + apply is_empty_true in E. now rewrite E.
    + reflexivity.
Qed.

Lemma X18_row_fields_witness :
  let jordan := Contact.Make "Jordan" (Some "Lee") "Jordan Lee" "CEO" "" "jordan-lee-ceo" in
  let found := Discovery.Make None Low "https://example-corp.com" in
  let row := Result.Make "Jordan Lee" "CEO" "Unknown company"
               "jordan.lee@example-corp.com" Low
               "jordan-lee-ceo | https://example-corp.com" in
  Result.company row <> EmptyString /\
  Result.company row = "Unknown company" /\
  Result.source row = Contact.source jordan ++ " | " ++ Discovery.source found.
Proof.
  intros jordan found row.
  destruct (X18_row_fields "" "example-corp.com" found jordan row)
    as (H1 & _ & H3 & _ & _ & H6 & _).
  - reflexivity.
  - split; [exact H1|]. split; [apply H3; reflexivity|].
    apply H6; discriminate.
Defined.

(* ================================================================== *)
(** ** More on the domain resolver and on address extraction *)
(* ================================================================== *)

Lemma trimEnd_idempotent (s : string) : Js.trimEnd (Js.trimEnd s) = Js.trimEnd s.
Proof.
  induction s as [|c s IH]; [reflexivity|].
  cbn [Js.trimEnd]. destruct (Js.trimEnd s) as [|d t] eqn:E.
  - destruct (Js.is_space c) eqn:Hc; [reflexivity|].
    cbn [Js.trimEnd]. now rewrite Hc.
  - change (Js.trimEnd (String c (String d t)))
      with (match Js.trimEnd (String d t) with
            | EmptyString =>
                if Js.is_space c then EmptyString else String c EmptyString
            | String x y => String c (String x y)
            end).
    now rewrite IH.
Qed.

Lemma trimStart_fixed (s : string) :
  match s with
  | EmptyString => True
  | String c _ => Js.is_space c = false
  end -> Js.trimStart s = s.
Proof. destruct s as [|c s]; simpl; [reflexivity | intros ->; reflexivity]. Qed.

Lemma trim_idempotent (s : string) : Js.trim (Js.trim s) = Js.trim s.
Proof.
  unfold Js.trim at 1.
  rewrite trimStart_fixed.
  - unfold Js.trim. apply trimEnd_idempotent.
  - destruct (Js.trim s) as [|c t] eqn:E; [exact I|].
    now apply (proj1 (trim_ends s) c t).
Qed.

Lemma lower_char_idempotent (c : ascii) :
  Js.lower_char (Js.lower_char c) = Js.lower_char c.
Proof. destruct c as [[] [] [] [] [] [] [] []]; reflexivity. Qed.

Lemma toLowerCase_idempotent (s : string) :
  Js.toLowerCase (Js.toLowerCase s) = Js.toLowerCase s.
Proof.
  unfold Js.toLowerCase. induction s as [|c s IH]; simpl; [reflexivity|].
  now rewrite lower_char_idempotent, IH.
Qed.

Lemma map_chars_slice (f : ascii -> ascii) (n : nat) :
  forall s, Js.map_chars f (Js.slice n s) = Js.slice n (Js.map_chars f s).
Proof.
  induction n as [|n IH]; intros s; [destruct s; reflexivity|].
  destruct s as [|c s]; simpl; [reflexivity | apply IH].
Qed.

(** X19.  White space around the website does not matter, and a resolved
    domain is already in lower case, so lower-casing it again before the
    free-provider test changes nothing. *)
Theorem X19_deriveDomain_trimmed_lowercase :
  forall (parseURL : string -> option URL) (input : string),
    deriveDomain parseURL (Js.trim input) = deriveDomain parseURL input /\
    (forall domain,
        deriveDomain parseURL input = Some domain ->
        Js.toLowerCase domain = domain).
Proof.
  intros parseURL input. split.
  - rewrite !deriveDomain_as_guarded.
    unfold deriveDomain_guarded, deriveDomain_amended.
    now rewrite trim_idempotent.
  - intros domain. rewrite deriveDomain_as_guarded.
    unfold deriveDomain_guarded, deriveDomain_amended.
    destruct (Js.is_empty (Js.trim input)); [discriminate|].
    destruct (parseURL _) as [url|]; [|discriminate].
    intros H. injection H as <-. unfold strip_www.
    assert (P : forall n h, Js.toLowerCase (Js.slice n (Js.toLowerCase h))
                            = Js.slice n (Js.toLowerCase h)).
    { intros n h. unfold Js.toLowerCase at 1. rewrite map_chars_slice.
      fold (Js.toLowerCase (Js.toLowerCase h)). now rewrite toLowerCase_idempotent. }
    destruct (prefix "www." _); [apply P | apply toLowerCase_idempotent].
Qed.

Lemma X19_deriveDomain_trimmed_lowercase_witness :
  Js.toLowerCase "acme.io" = "acme.io".
Proof.
  apply (proj2 (X19_deriveDomain_trimmed_lowercase url_parse "  https://WWW.Acme.IO/x ")).
  reflexivity.
Defined.

(** *** Every match is in the language of the expression *)

Lemma m_atom_sound (p : ascii -> bool) (more : bool) (k : string -> option string) :
  forall (s : string) (lo : nat) (v : string),
    Regex.m_atom p lo more k s = Some v ->
    exists a b, s = a ++ b /\ in_atom p lo more a /\ k b = Some v.
Proof.
  unfold in_atom.
  induction s as [|c s IH]; intros lo v.
  - destruct lo as [|lo]; simpl; [|discriminate].
    intros H. exists EmptyString, EmptyString.
    destruct more; repeat split; auto.
  - destruct lo as [|lo].
    + destruct more.
      * simpl. destruct (p c) eqn:Hc.
        -- destruct (Regex.m_atom p 0 true k s) as [r|] eqn:Hm.
           ++ intros H. injection H as <-.
              destruct (IH 0 r Hm) as (a & b & E & [Ha Hl] & Hk).
              exists (String c a), b. simpl. rewrite Hc, Ha, E.
              repeat split; auto; lia.
           ++ intros H. exists EmptyString, (String c s). repeat split; auto.
        -- intros H. exists EmptyString, (String c s). repeat split; auto.
      * simpl. intros H. exists EmptyString, (String c s). repeat split; auto.
    + simpl. destruct (p c) eqn:Hc; [|discriminate].
      intros H. destruct (IH lo v H) as (a & b & E & [Ha Hl] & Hk).
      exists (String c a), b. simpl. rewrite Hc, Ha, E.
      repeat split; auto; destruct more; lia.
Qed.

Lemma m_seq_sound (r : Regex.regex) :
  forall (k : string -> option string) (s v : string),
    Regex.m_seq r k s = Some v ->
    exists m b, s = m ++ b /\ in_seq r (fun t => t = EmptyString) m /\ k b = Some v.
Proof.
  induction r as [|a r IH]; intros k s v; simpl.
  - intros H. exists EmptyString, s. auto.
  - intros H. apply m_atom_sound in H.
    destruct H as (x & b1 & -> & Hx & H).
    destruct (IH k b1 v H) as (m & b & -> & Hm & Hk).
    exists (x ++ m), b. rewrite append_assoc. repeat split; auto.
    exists x, m. auto.
Qed.

Lemma take_app (m rest : string) :
  Regex.take (String.length (m ++ rest) - String.length rest) (m ++ rest) = m.
Proof.
  rewrite append_length.
  replace (String.length m + String.length rest - String.length rest)
    with (String.length m) by lia.
  induction m as [|c m IH]; simpl; [destruct rest; reflexivity | now rewrite IH].
Qed.

Lemma contains_cons (m s : string) (c : ascii) :
  contains m s -> contains m (String c s).
Proof. intros (a & b & ->). exists (String c a), b. reflexivity. Qed.

Lemma match_all_from_sound (r : Regex.regex) (s : string) :
  forall (skip : nat) (m : string),
    In m (Regex.match_all_from r skip s) ->
    in_seq r (fun t => t = EmptyString) m /\ contains m s.
Proof.
  induction s as [|c s IH]; intros skip m; [simpl; contradiction|].
  cbn [Regex.match_all_from].
  assert (G : forall n, In m (Regex.match_all_from r n s) ->
              in_seq r (fun t => t = EmptyString) m /\ contains m (String c s)).
  { intros n H. destruct (IH n m H). split; [assumption | now apply contains_cons]. }
  destruct skip as [|n]; [|apply G].
  destruct (Regex.exec_here r (String c s)) as [rest|] eqn:E; [|apply G].
  cbn [In]. intros [<- | H]; [|now apply (G _ H)].
  unfold Regex.exec_here in E. apply m_seq_sound in E.
  destruct E as (m & b & E & Hm & Hk). injection Hk as <-.
  rewrite E, take_app. split; [exact Hm|].
  exists EmptyString, b. reflexivity.
Qed.

Lemma in_atom_plus (p : ascii -> bool) (n : nat) (x : string) :
  in_atom p (S n) true x -> x <> EmptyString /\ Js.all_chars p x = true.
Proof.
  unfold in_atom. intros [H1 H2]. split; [|exact H1].
  destruct x; [simpl in H2; lia | discriminate].
Qed.

Lemma email_regex_language (m : string) :
  in_seq EMAIL_REGEX (fun t => t = EmptyString) m -> email_like m.
Proof.
  simpl.
  intros (l & r1 & -> & Hl & a & r2 & -> & Ha & h & r3 & -> & Hh &
          d & r4 & -> & Hd & t & r5 & -> & Ht & ->).
  apply in_atom_chr in Ha, Hd. subst a d.
  apply in_atom_plus in Hl, Hh. destruct Hl as [Nl Cl]. destruct Hh as [Nh Ch].
  destruct Ht as [Ct Lt]. simpl in Lt.
  exists l, h, t. rewrite append_nil_r. repeat split; auto.
Qed.

(** X20.  Every string that the address expression finds in a page occurs in
    the page and has the shape of an address: a non-empty local part of
    letters, digits and [._%+-], an [@], a non-empty host of letters,
    digits, dots and hyphens, a dot, and at least two letters. *)
Theorem X20_matches_are_addresses :
  forall html m : string,
    In m (Regex.match_all EMAIL_REGEX html) ->
    email_like m /\ contains m html.
Proof.
  intros html m H. apply match_all_from_sound in H. destruct H as [H1 H2].
  split; [now apply email_regex_language | exact H2].
Qed.

Lemma X20_matches_are_addresses_witness :
  email_like "sam.ray@acme.io" /\ contains "sam.ray@acme.io" "<a>sam.ray@acme.io.</a>".
Proof.
  apply (X20_matches_are_addresses "<a>sam.ray@acme.io.</a>" "sam.ray@acme.io").
  left. reflexivity.
Defined.

Lemma endsWith_spec (p s : string) :
  Js.endsWith p s = true -> exists x, s = x ++ p.
Proof.
  induction s as [|c s IH]; cbn [Js.endsWith].
  - rewrite orb_false_r. intros H. destruct p; [|discriminate].
    exists EmptyString. reflexivity.
  - rewrite orb_true_iff. intros [H | H].
    + apply String.eqb_eq in H. exists EmptyString. now subst.
    + destruct (IH H) as [x ->]. exists (String c x). reflexivity.
Qed.

(** A string with a single separator splits in one way only. *)
Lemma split_at_single (sep : ascii) :
  forall a x b d : string,
    a ++ String sep b = x ++ String sep d ->
    free_of sep a = true -> free_of sep b = true ->
    a = x /\ b = d.
Proof.
  induction a as [|c a IH]; intros x b d E Ha Hb.
  - destruct x as [|y x]; simpl in E.
    + injection E as ->. auto.
    + injection E as _ E. rewrite E in Hb. now rewrite free_of_sep in Hb.
  - destruct x as [|y x]; simpl in E.
    + injection E as -> _. unfold free_of in Ha. simpl in Ha.
      now rewrite Ascii.eqb_refl in Ha.
    + injection E as <- E.
      unfold free_of in Ha. simpl in Ha. apply andb_true_iff in Ha.
      destruct Ha as [_ Ha]. destruct (IH x b d E Ha Hb) as [-> ->]. auto.
Qed.

Lemma lower_local_chars (c : ascii) :
  email_local_char c = true ->
  lower_local_char (Js.lower_char c) = true /\
  negb (Ascii.eqb (Js.lower_char c) "@") = true.
Proof.
  destruct c as [[] [] [] [] [] [] [] []]; vm_compute; intuition congruence.
Qed.

Lemma lower_host_chars (c : ascii) :
  email_host_char c = true \/ Js.is_letter c = true \/ Ascii.eqb c "." = true ->
  negb (Ascii.eqb (Js.lower_char c) "@") = true.
Proof.
  destruct c as [[] [] [] [] [] [] [] []]; vm_compute; intuition congruence.
Qed.

Lemma map_all_chars (f : ascii -> ascii) (p q : ascii -> bool) (s : string) :
  (forall c, p c = true -> q (f c) = true) ->
  Js.all_chars p s = true -> Js.all_chars q (Js.map_chars f s) = true.
Proof.
  intros H. induction s as [|c s IH]; simpl; [reflexivity|].
  rewrite !andb_true_iff. intros [Hc Hs]. split; auto.
Qed.

(** X21.  Every address kept for a domain is in lower case and is a local
    part, an [@] and exactly the domain; the local part is what pattern
    selection reads, it is not empty and holds lower-case letters, digits
    and [._%+-] only. *)
Theorem X21_business_emails_on_domain :
  forall domain html email : string,
    In email (businessEmails domain html) ->
    email = local_of email ++ "@" ++ domain /\
    local_of email <> EmptyString /\
    Js.all_chars lower_local_char (local_of email) = true /\
    Js.toLowerCase email = email.
Proof.
  intros domain html email. unfold businessEmails.
  rewrite filter_In, in_map_iff. intros [(m & <- & Hm) Hend].
  enough (G : Js.toLowerCase m = local_of (Js.toLowerCase m) ++ "@" ++ domain /\
              local_of (Js.toLowerCase m) <> EmptyString /\
              Js.all_chars lower_local_char (local_of (Js.toLowerCase m)) = true).
  { destruct G as (G1 & G2 & G3). repeat split; auto.
    apply toLowerCase_idempotent. }
  apply match_all_from_sound in Hm. destruct Hm as [Hm _].
  apply email_regex_language in Hm.
  destruct Hm as (l & h & t & -> & Nl & Cl & Nh & Ch & Lt & Ct).
  apply endsWith_spec in Hend. destruct Hend as [x Hx].
  unfold Js.toLowerCase in *. rewrite !map_chars_app in *.
  cbn [Js.map_chars] in *.
  change (Js.lower_char "@") with "@"%char in *.
  change (Js.lower_char ".") with "."%char in *.
  set (l' := Js.map_chars Js.lower_char l) in *.
  set (h' := Js.map_chars Js.lower_char h) in *.
  set (t' := Js.map_chars Js.lower_char t) in *.
  assert (Fl : free_of "@" l' = true).
  { apply (map_all_chars _ email_local_char); [|exact Cl].
    intros c Hc. now apply lower_local_chars. }
  assert (Fr : free_of "@" (h' ++ String "." t') = true).
  { rewrite free_of_app. apply andb_true_iff. split.
    - apply (map_all_chars _ email_host_char); [|exact Ch].
      intros c Hc. apply lower_host_chars. auto.
    - unfold free_of. simpl.
      apply (map_all_chars _ Js.is_letter); [|exact Ct].
      intros c Hc. apply lower_host_chars. auto. }
  assert (E : x = l' /\ domain = h' ++ String "." t').
  { change (l' ++ String "@" (h' ++ String "." t') = x ++ String "@" domain) in Hx.
    destruct (split_at_single "@" _ _ _ _ Hx Fl Fr) as [-> ->]. auto. }
  destruct E as [-> ->].
  assert (L : local_of (l' ++ String "@" (h' ++ String "." t')) = l').
  { unfold local_of. now rewrite (split_app "@" l' _ Fl). }
  change (l' ++ "@" ++ h' ++ "." ++ t') with (l' ++ String "@" (h' ++ String "." t')).
  rewrite L. split; [reflexivity|]. split.
  - subst l'. destruct l; [congruence | discriminate].
  - apply (map_all_chars _ email_local_char); [|exact Cl].
    intros c Hc. now apply lower_local_chars.
Qed.

Lemma X21_business_emails_on_domain_witness :
  "jordan.lee@acme.io" = local_of "jordan.lee@acme.io" ++ "@" ++ "acme.io" /\
  local_of "jordan.lee@acme.io" <> EmptyString.
Proof.
  destruct (X21_business_emails_on_domain "acme.io"
              "Mail Jordan.Lee@ACME.io or bob@other.io" "jordan.lee@acme.io")
    as (H1 & H2 & _).
  - left. reflexivity.
  - split; assumption.
Defined.

(* ================================================================== *)
(** ** The page: reading the input, the request, the export *)
(* ================================================================== *)

Lemma split_pieces (p : ascii -> bool) (sep : ascii) (s : string) :
  Js.all_chars p s = true ->
  forall x, In x (Js.split sep s) -> Js.all_chars p x = true.
Proof.
  induction s as [|c s IH]; cbn [Js.split Js.all_chars].
  - intros _ x [<- | []]. reflexivity.
  - rewrite andb_true_iff. intros [Hc Hs] x.
    destruct (Ascii.eqb c sep).
    + intros [<- | H]; [reflexivity | now apply IH].
    + destruct (Js.split sep s) as [|y ys] eqn:E.
      * intros [<- | []]. simpl. now rewrite Hc.
      * intros [<- | H].
        -- simpl. rewrite Hc. apply IH; [assumption | now left].
        -- apply IH; [assumption | now right].
Qed.

Lemma split_pieces_free (sep : ascii) (s : string) :
  forall x, In x (Js.split sep s) -> free_of sep x = true.
Proof.
  induction s as [|c s IH]; cbn [Js.split].
  - intros x [<- | []]. reflexivity.
  - intros x. destruct (Ascii.eqb c sep) eqn:Ec.
    + intros [<- | H]; [reflexivity | now apply IH].
    + destruct (Js.split sep s) as [|y ys] eqn:E.
      * intros [<- | []]. unfold free_of. simpl. now rewrite Ec.
      * intros [<- | H].
        -- unfold free_of. simpl. rewrite Ec. apply IH. now left.
        -- apply IH. now right.
Qed.

Lemma split_joins (p : ascii -> bool) (sep : ascii) (s : string) :
  p sep = true ->
  (forall x, In x (Js.split sep s) -> Js.all_chars p x = true) ->
  Js.all_chars p s = true.
Proof.
  intros Hsep. induction s as [|c s IH]; cbn [Js.split Js.all_chars]; [reflexivity|].
  destruct (Ascii.eqb c sep) eqn:Ec.
  - apply Ascii.eqb_eq in Ec. subst c. intros H. rewrite Hsep. apply IH.
    intros x Hx. apply H. now right.
  - destruct (Js.split sep s) as [|y ys] eqn:E.
    + now destruct (split_not_nil sep s).
    + intros H. pose proof (H _ (or_introl eq_refl)) as H0. simpl in H0.
      apply andb_true_iff in H0. destruct H0 as [Hc Hy]. rewrite Hc. apply IH.
      intros x [<- | Hx]; [exact Hy | apply H; now right].
Qed.

Lemma trim_keeps (p : ascii -> bool) (s : string) :
  Js.all_chars p s = true -> Js.all_chars p (Js.trim s) = true.
Proof.
  destruct (trim_decomposition s) as (l & r & E & _ & _).
  intros H. rewrite E, !all_chars_app, !andb_true_iff in H. tauto.
Qed.

Lemma trimStart_spaces (s : string) :
  Js.all_chars Js.is_space s = true -> Js.trimStart s = EmptyString.
Proof.
  induction s as [|c s IH]; simpl; [reflexivity|].
  rewrite andb_true_iff. intros [-> Hs]. auto.
Qed.

Lemma trim_blank (s : string) :
  Js.trim s = EmptyString <-> Js.all_chars Js.is_space s = true.
Proof.
  split.
  - intros H. destruct (trim_decomposition s) as (l & r & E & Hl & Hr).
    rewrite H in E. rewrite E, all_chars_app, Hl. exact Hr.
  - intros H. unfold Js.trim. now rewrite trimStart_spaces.
Qed.

Lemma filter_nonempty_nil (l : list string) :
  Js.filter_nonempty l = [] <-> forall x, In x l -> x = EmptyString.
Proof.
  split.
  - intros H x Hx. destruct x as [|c x]; [reflexivity|].
    assert (Hin : In (String c x) (Js.filter_nonempty l))
      by (apply filter_nonempty_In; split; [assumption | discriminate]).
    rewrite H in Hin. destruct Hin.
  - intros H. destruct (Js.filter_nonempty l) as [|y ys] eqn:E; [reflexivity|].
    assert (Hin : In y (Js.filter_nonempty l)) by (rewrite E; now left).
    apply filter_nonempty_In in Hin. destruct Hin as [Hy Hn].
    now destruct (Hn (H _ Hy)).
Qed.

Lemma parsedEntries_nil (rawInput : string) :
  parsedEntries rawInput = [] <-> Js.all_chars Js.is_space rawInput = true.
Proof.
  unfold parsedEntries. cbv zeta.
  assert (M : forall l : list string, map parse_line l = [] <-> l = []).
  { intros [|x l]; simpl; split; congruence. }
  rewrite M, filter_nonempty_nil. split.
  - intros H. apply (split_joins Js.is_space newline); [reflexivity|].
    intros x Hx. apply trim_blank. apply H. now apply in_map.
  - intros H x Hx. apply in_map_iff in Hx. destruct Hx as (y & <- & Hy).
    apply trim_blank. now apply (split_pieces Js.is_space newline rawInput).
Qed.

Lemma In_skipn {A : Type} (n : nat) (l : list A) (x : A) :
  In x (skipn n l) -> In x l.
Proof.
  intros H. rewrite <- (firstn_skipn n l). apply in_or_app. now right.
Qed.

Lemma nth_trimmed (n : nat) (line : string) :
  let field := nth n (map Js.trim (Js.split "," line)) EmptyString in
  Js.trim field = field /\ free_of "," field = true.
Proof.
  cbv zeta.
  destruct (nth_in_or_default n (map Js.trim (Js.split "," line)) EmptyString)
    as [H | ->]; [|split; reflexivity].
  apply in_map_iff in H. destruct H as (x & <- & Hx). split.
  - apply trim_idempotent.
  - apply trim_keeps. now apply (split_pieces_free "," line).
Qed.

(** X22.  What the page reads from the text area: the company and the
    website of every entry are trimmed and hold no comma, and every profile
    reference is non-empty and holds no white space, no semicolon, no bar
    and no comma. *)
Theorem X22_parsed_entries_clean :
  forall (rawInput : string) (entry : Entry.t),
    In entry (parsedEntries rawInput) ->
    (Js.trim (Entry.company entry) = Entry.company entry /\
     free_of "," (Entry.company entry) = true) /\
    (Js.trim (Entry.website entry) = Entry.website entry /\
     free_of "," (Entry.website entry) = true) /\
    (forall profile : string,
        In profile (Entry.linkedinProfiles entry) ->
        profile <> EmptyString /\ Js.all_chars profile_char profile = true).
Proof.
  intros rawInput entry. unfold parsedEntries. cbv zeta.
  rewrite in_map_iff. intros (line & <- & _). unfold parse_line. cbv zeta.
  cbn [Entry.company Entry.website Entry.linkedinProfiles].
  split; [apply (nth_trimmed 0)|]. split; [apply (nth_trimmed 1)|].
  intros profile Hp. apply in_flat_map in Hp. destruct Hp as (part & Hpart & Hp).
  apply In_skipn in Hpart. apply in_map_iff in Hpart.
  destruct Hpart as (x & <- & Hx).
  apply filter_nonempty_In in Hp. destruct Hp as [Hp Hne]. split; [exact Hne|].
  apply in_map_iff in Hp. destruct Hp as (piece & <- & Hpiece).
  apply trim_keeps.
  apply (split_runs_pieces profile_sep (fun c => negb (Ascii.eqb c ","))
           (Js.trim x)) in Hpiece; [exact Hpiece|].
  apply trim_keeps. now apply (split_pieces_free "," line).
Qed.

Lemma X22_parsed_entries_clean_witness :
  let entry := Entry.Make "Acme" "acme.io" ["in/jordan-lee"; "in/sam-ray"] in
  Js.trim (Entry.company entry) = Entry.company entry /\
  free_of "," (Entry.company entry) = true.
Proof.
  intros entry.
  apply (X22_parsed_entries_clean
           (String newline "  Acme , acme.io ,in/jordan-lee ; in/sam-ray, ")).
  left. reflexivity.
Defined.

Lemma entries_usable (entries : list Entry.t) :
  forallb usable (map entry_json entries) = true.
Proof. induction entries as [|e es IH]; [reflexivity | exact IH]. Qed.

(** X23.  The request that the page sends for its text area.  When the text
    holds white space only there is no entry and the handler answers with
    the client error, making no request; otherwise there is at least one
    entry and the handler answers with a list of results: the server error
    cannot occur. *)
Theorem X23_page_request_answered :
  forall (parseURL : string -> option URL) (World : Type)
         (fetchHtml : string -> World -> option string * World)
         (rawInput : string) (w : World),
    (Js.all_chars Js.is_space rawInput = true ->
     parsedEntries rawInput = [] /\
     POST parseURL World fetchHtml (request_body (parsedEntries rawInput)) w =
     (BadRequest400, w)) /\
    (Js.all_chars Js.is_space rawInput = false ->
     parsedEntries rawInput <> [] /\
     exists rows w',
       POST parseURL World fetchHtml (request_body (parsedEntries rawInput)) w =
       (Ok200 rows, w')).
Proof.
  intros parseURL World fetchHtml rawInput w. split.
  - intros H. apply parsedEntries_nil in H. rewrite H. split; reflexivity.
  - intros H.
    assert (Hne : parsedEntries rawInput <> []).
    { intros E. apply parsedEntries_nil in E. congruence. }
    split; [exact Hne|].
    destruct (parsedEntries rawInput) as [|e es] eqn:E; [congruence|].
    unfold POST, request_body.
    cbn [get_prop lookup String.eqb Ascii.eqb Bool.eqb map].
    destruct (process_entries_usable parseURL World fetchHtml
                (map entry_json (e :: es)) [] w (entries_usable (e :: es)))
      as (rows & w' & Hrun).
    cbn [map] in Hrun. rewrite Hrun. eauto.
Qed.

Lemma X23_page_request_answered_witness :
  (exists rows w',
      POST url_parse unit no_pages
           (request_body (parsedEntries "Acme, acme.io, in/jordan-lee")) tt =
      (Ok200 rows, w')) /\
  POST url_parse unit no_pages
       (request_body (parsedEntries (String newline "  "))) tt = (BadRequest400, tt).
Proof.
  split.
  - apply (proj2 (X23_page_request_answered url_parse unit no_pages
                    "Acme, acme.io, in/jordan-lee" tt)).
    reflexivity.
  - apply (proj1 (X23_page_request_answered url_parse unit no_pages
                    (String newline "  ") tt)).
    reflexivity.
Defined.

(** *** The export *)

Lemma quoted_body_read (value : string) :
  forall (field : string) (row : list string) (rows : list (list string)) (rest : string),
    csv_run Quoted field row rows (double_quotes value ++ String dquote rest) =
    csv_run QuoteSeen (field ++ value) row rows rest.
Proof.
  induction value as [|c value IH]; intros field row rows rest.
  - simpl. now rewrite append_nil_r.
  - cbn [double_quotes]. destruct (Ascii.eqb c dquote) eqn:Ec.
    + apply Ascii.eqb_eq in Ec. subst c.
      change (csv_run Quoted (field ++ String dquote EmptyString) row rows
                (double_quotes value ++ String dquote rest) =
              csv_run QuoteSeen (field ++ String dquote value) row rows rest).
      rewrite IH, append_assoc. reflexivity.
    + cbn [append csv_run]. rewrite Ec, IH, append_assoc. reflexivity.
Qed.

Lemma cell_read (value : string) (row : list string) (rows : list (list string))
      (rest : string) :
  csv_run FieldStart EmptyString row rows (csv_cell value ++ rest) =
  csv_run QuoteSeen value row rows rest.
Proof.
  unfold csv_cell. cbn [append]. rewrite append_assoc.
  change (csv_run Quoted EmptyString row rows
            (double_quotes value ++ String dquote rest) =
          csv_run QuoteSeen value row rows rest).
  now rewrite quoted_body_read.
Qed.

Lemma join_cons (sep x y : string) (l : list string) :
  Js.join sep (x :: y :: l) = x ++ sep ++ Js.join sep (y :: l).
Proof. reflexivity. Qed.

Lemma cells_read (cells : list string) :
  forall (final : string) (row : list string) (rows : list (list string)) (rest : string),
    csv_run FieldStart EmptyString row rows
      (Js.join "," (map csv_cell (cells ++ [final])) ++ rest) =
    csv_run QuoteSeen final (row ++ cells)%list rows rest.
Proof.
  induction cells as [|c cells IH]; intros final row rows rest.
  - cbn [app map Js.join]. rewrite app_nil_r. apply cell_read.
  - assert (E : exists y l, map csv_cell (cells ++ [final]) = y :: l).
    { destruct cells; simpl; eauto. }
    destruct E as (y & l & E).
    change (map csv_cell ((c :: cells) ++ [final]))
      with (csv_cell c :: map csv_cell (cells ++ [final])).
    rewrite E, join_cons, <- E, !append_assoc, cell_read.
    change (csv_run FieldStart EmptyString (row ++ [c])%list rows
              (Js.join "," (map csv_cell (cells ++ [final])) ++ rest) =
            csv_run QuoteSeen final (row ++ c :: cells)%list rows rest).
    rewrite IH, <- app_assoc. reflexivity.
Qed.

Lemma row_read (item : Result.t) (rows : list (list string)) (rest : string) :
  csv_run FieldStart EmptyString [] rows (csv_row item ++ rest) =
  csv_run QuoteSeen (Result.source item)
    [ Result.name item; Result.role item; Result.company item; Result.email item;
      confidence_name (Result.confidence item) ] rows rest.
Proof.
  unfold csv_row, row_cells.
  apply (cells_read [ Result.name item; Result.role item; Result.company item;
                      Result.email item; confidence_name (Result.confidence item) ]
                    (Result.source item) [] rows rest).
Qed.

Lemma rows_read (item : Result.t) (items : list Result.t) :
  forall rows : list (list string),
    csv_run FieldStart EmptyString [] rows
      (Js.join (String newline EmptyString) (map csv_row (item :: items))) =
    Some (rows ++ map row_cells (item :: items))%list.
Proof.
  revert item. induction items as [|next items IH]; intros item rows.
  - cbn [map Js.join]. rewrite <- (append_nil_r (csv_row item)), row_read.
    reflexivity.
  - change (map csv_row (item :: next :: items))
      with (csv_row item :: csv_row next :: map csv_row items).
    rewrite join_cons, row_read.
    change (csv_run FieldStart EmptyString [] (rows ++ [row_cells item])%list
              (Js.join (String newline EmptyString) (map csv_row (next :: items))) =
            Some (rows ++ map row_cells (item :: next :: items))%list).
    rewrite IH, <- app_assoc. reflexivity.
Qed.

Lemma header_read (rest : string) :
  csv_run FieldStart EmptyString [] []
    (Js.join "," csv_header ++ String newline rest) =
  csv_run FieldStart EmptyString [] [csv_header] rest.
Proof. reflexivity. Qed.

Lemma handleDownload_cons (r : Result.t) (rs : list Result.t) :
  handleDownload (r :: rs) =
  Some (Js.join "," csv_header ++
        String newline (Js.join (String newline EmptyString) (map csv_row (r :: rs)))).
Proof. reflexivity. Qed.

(** X24.  The export.  Nothing is exported when there are no results.
    Otherwise the exported text, read back by the usual rules for
    comma-separated text, gives the header row and then the six fields of
    every result, unchanged and in order, whatever commas, double quotes or
    line feeds the fields hold. *)
Theorem X24_export_reads_back :
  (forall results : list Result.t, handleDownload results = None <-> results = []) /\
  (forall (results : list Result.t) (csv : string),
      handleDownload results = Some csv ->
      csv_read csv = Some (csv_header :: map row_cells results)).
Proof.
  split.
  - intros [|r rs]; simpl; split; congruence.
  - intros [|r rs] csv; [discriminate|].
    rewrite handleDownload_cons. intros H.
    assert (E : csv = Js.join "," csv_header ++
                      String newline (Js.join (String newline EmptyString)
                                              (map csv_row (r :: rs))))
      by congruence.
    rewrite E. unfold csv_read. rewrite header_read. apply (rows_read r rs [csv_header]).
Qed.

Lemma X24_export_reads_back_witness :
  let tricky := String dquote "Lee, J" ++ String dquote (String newline "Jr") in
  let item := Result.Make tricky "CEO & Founder" "Acme, Inc" "j.lee@acme.io" High "a | b" in
  csv_read (match handleDownload [item] with Some csv => csv | None => EmptyString end) =
  Some (csv_header :: map row_cells [item]).
Proof.
  intros tricky item.
  apply (proj2 X24_export_reads_back [item]). reflexivity.
Defined.
